(** * pressorpass: game state, spin algebra and search nodes

  A shallow embedding of [pyl.hpp], [pyl.cpp] and [pyl_search.cpp].

  Conventions.
  - A C++ [int] is a [Z]; the statements say where a value has to stay
    inside the range of an [int].
  - An unsigned bit-field of width [w] holds its value modulo [2^w]
    ([bits w]); every store into a field is written with it.
  - [Prob] is [float] in the source.  Probabilities are rationals ([Q])
    here, so sums and products are exact. *)

From Stdlib Require Import ZArith QArith Qminmax Qabs List Permutation Bool Lia Lqa
  SpecFloat.
Import ListNotations.

Local Open Scope Z_scope.

(** ** Machine integers *)

Definition INT_MAX : Z := 2147483647.
Definition UINT_MOD : Z := 2 ^ 32.

(** Store into an unsigned bit-field of width [w]. *)
Definition bits (w x : Z) : Z := x mod 2 ^ w.

(** Arithmetic on [unsigned int]. *)
Definition u32 (x : Z) : Z := x mod UINT_MOD.

Definition in_bits (w x : Z) : Prop := 0 <= x < 2 ^ w.

(** ** SpinValue *)

Module SpinValue.

Definition MinScoreUnit : Z := 250.
Definition MaxScore : Z := 20000.

(** The packed struct: [score : 16], [earned : 8], [taken : 8]. *)
Record t : Set := mk { score : Z; earned : Z; taken : Z }.

Definition wf (sv : t) : Prop :=
  in_bits 16 (score sv) /\ in_bits 8 (earned sv) /\ in_bits 8 (taken sv).

(** [SpinValue (int score = 0, int earned = 0, int taken = 1)];
    [/] on [int] truncates towards zero. *)
Definition SpinValue3 (s e k : Z) : t :=
  mk (bits 16 (Z.min MaxScore
                 (Z.quot (s + Z.quot MinScoreUnit 2) MinScoreUnit * MinScoreUnit)))
     (bits 8 e)
     (bits 8 k).

(** [SpinValue (int score1, int score2, int earned, int taken)]. *)
Definition SpinValue4 (s1 s2 e k : Z) : t :=
  mk (bits 16 (Z.min MaxScore (s1 + s2))) (bits 8 e) (bits 8 k).

Definition whammy (sv : t) : bool := score sv =? 0.

(** [bool operator== (const SpinValue&)]: equality of the packed word,
    that is of the three fields. *)
Definition eqb (a b : t) : bool :=
  (score a =? score b) && (earned a =? earned b) && (taken a =? taken b).

(** [SpinValue operator* (const SpinValue& sv1, const SpinValue& sv2)]. *)
Definition mul (sv1 sv2 : t) : t :=
  if whammy sv2 then sv2
  else if whammy sv1 then SpinValue3 0 (earned sv2) (1 + taken sv2)
  else SpinValue4 (score sv1) (score sv2)
                  (earned sv1 + earned sv2) (taken sv1 + taken sv2).

(** The stored-score invariant of the data model. *)
Definition score_inv (x : Z) : Prop :=
  0 <= x <= MaxScore /\ x mod MinScoreUnit = 0.

(** [q] is the multiple of the unit, at most [MaxScore], nearest to [s];
    of two equally near multiples it is the larger. *)
Definition quantized (s q : Z) : Prop :=
  q mod MinScoreUnit = 0 /\ q <= MaxScore /\
  forall m, m mod MinScoreUnit = 0 -> m <= MaxScore ->
    Z.abs (s - q) <= Z.abs (s - m) /\
    (Z.abs (s - q) = Z.abs (s - m) -> m <= q).

(** [unsigned int intval () const]: the member [all] of the union, the
    32-bit word that holds the three fields, the first declared field in
    the low bits. *)
Definition intval (sv : t) : Z :=
  Z.lor (score sv) (Z.lor (Z.shiftl (earned sv) 16) (Z.shiftl (taken sv) 24)).

End SpinValue.


(** ** WeightedSet

    [unordered_map<T,K>] with [K = Prob]: a list of entries with pairwise
    distinct keys.  The order in which the source iterates over a hash table
    is not specified; here it is the order of the list. *)

Module WeightedSet.

Section Container.

Variable T : Type.
Variable T_eqb : T -> T -> bool.

Definition Container : Type := list (T * Q).

(** [terms[term] += scalar]: a missing key is first inserted with weight 0. *)
Fixpoint add (scalar : Q) (term : T) (terms : Container) : Container :=
  match terms with
  | [] => [(term, (0 + scalar)%Q)]
  | (k, w) :: rest =>
      if T_eqb k term then (k, (w + scalar)%Q) :: rest
      else (k, w) :: add scalar term rest
  end.

Definition keys (terms : Container) : list T := map fst terms.

Definition has_key (term : T) (terms : Container) : bool :=
  existsb (fun k => T_eqb k term) (keys terms).

(** [K weight () const]. *)
Definition weight (terms : Container) : Q :=
  fold_left (fun res e => (res + snd e)%Q) terms 0%Q.

(** [terms.at (term)]; [None] stands for the [std::out_of_range] that the
    source throws when the key is missing. *)
Fixpoint at_ (term : T) (terms : Container) : option Q :=
  match terms with
  | [] => None
  | (k, w) :: rest => if T_eqb k term then Some w else at_ term rest
  end.

(** [terms[term]] read: the weight found and the table, into which a
    missing key is first inserted with weight 0. *)
Fixpoint subscript (term : T) (terms : Container) : Q * Container :=
  match terms with
  | [] => (0%Q, [(term, 0%Q)])
  | (k, w) :: rest =>
      if T_eqb k term then (w, terms)
      else let (found, rest') := subscript term rest in (found, (k, w) :: rest')
  end.

(** [terms.erase (term)]. *)
Fixpoint erase (term : T) (terms : Container) : Container :=
  match terms with
  | [] => []
  | (k, w) :: rest => if T_eqb k term then rest else (k, w) :: erase term rest
  end.

(** [void spread (const T& value, const T& min, const T& max)]. *)
Definition spread (value min max : T) (terms : Container) : Container :=
  let (weight, terms) := subscript value terms in
  let terms := add (weight / 2)%Q min terms in
  let terms := add (weight / 2)%Q max terms in
  erase value terms.

(** [void normalize ()].  A total of 0 makes the quotients of the source
    infinities or NaNs, which the rationals do not have: the statements
    about [normalize] are for a total other than 0. *)
Definition normalize (terms : Container) : Container :=
  let w := weight terms in
  map (fun e : T * Q => (fst e, (snd e / w)%Q)) terms.

(** [size_t size() const]. *)
Definition size (terms : Container) : nat := length terms.

(** What a hash table guarantees: no key is stored twice. *)
Fixpoint distinct (terms : Container) : bool :=
  match terms with
  | [] => true
  | (k, _) :: rest =>
      negb (existsb (fun e : T * Q => T_eqb k (fst e)) rest) && distinct rest
  end.

End Container.

Arguments add {T} T_eqb scalar term terms.
Arguments keys {T} terms.
Arguments has_key {T} T_eqb term terms.
Arguments weight {T} terms.
Arguments at_ {T} T_eqb term terms.
Arguments subscript {T} T_eqb term terms.
Arguments erase {T} T_eqb term terms.
Arguments spread {T} T_eqb value min max terms.
Arguments normalize {T} terms.
Arguments size {T} terms.
Arguments distinct {T} T_eqb terms.

End WeightedSet.

(** ** SpinOperator *)

Module SpinOperator.

(** The member [expr]. *)
Definition t : Type := WeightedSet.Container SpinValue.t.

Definition add (p : Q) (sv : SpinValue.t) (expr : t) : t :=
  WeightedSet.add SpinValue.eqb p sv expr.

(** [SpinOperator SpinOperator::operator() (const SpinOperator& sop) const]:
    the outer loop runs over [sop], the inner one over [this]. *)
Definition compose (this sop : t) : t :=
  fold_left
    (fun res t0 =>
       fold_left
         (fun res u => add (snd u * snd t0)%Q (SpinValue.mul (fst u) (fst t0)) res)
         this res)
    sop [].

(** [struct SpinTest]. *)
Definition SpinTest : t :=
  add (1 # 2) (SpinValue.SpinValue3 2000 0 1)
    (add (3 # 10) (SpinValue.SpinValue3 1000 1 1)
       (add (1 # 5) (SpinValue.SpinValue3 0 0 1) [])).

(** [bool SpinOperator::operator== (const SpinOperator& other) const]; the
    result is [None] when [other.expr.terms.at] throws. *)
Fixpoint eqb (expr other : t) : option bool :=
  match expr with
  | [] => Some true
  | term :: rest =>
      match WeightedSet.at_ SpinValue.eqb (fst term) other with
      | None => None
      | Some w => if negb (Qeq_bool (snd term) w) then Some false else eqb rest other
      end
  end.

(** [SpinOperator spread () const]. *)
Definition spread (this : t) : t :=
  let res := this in
  let res :=
    WeightedSet.spread SpinValue.eqb (SpinValue.SpinValue3 4000 1 1)
      (SpinValue.SpinValue3 3000 1 1) (SpinValue.SpinValue3 5000 1 1) res in
  let res :=
    WeightedSet.spread SpinValue.eqb (SpinValue.SpinValue3 1750 0 1)
      (SpinValue.SpinValue3 1500 0 1) (SpinValue.SpinValue3 2000 0 1) res in
  let res :=
    WeightedSet.spread SpinValue.eqb (SpinValue.SpinValue3 2250 0 1)
      (SpinValue.SpinValue3 2000 0 1) (SpinValue.SpinValue3 2500 0 1) res in
  res.

End SpinOperator.

(** ** Player *)

Module Player.

Definition MaxWhammies : Z := 4.

(** The bit-fields of [struct Player], in declaration order:
    [score : 16], [earned : 4], [passed : 4], [whammies : 4], [up : 2],
    [reserved : 2]. *)
Record t : Set := mk {
  score : Z;
  earned : Z;
  passed : Z;
  whammies : Z;
  up : Z;
  reserved : Z
}.

Definition wf (p : t) : Prop :=
  in_bits 16 (score p) /\ in_bits 4 (earned p) /\ in_bits 4 (passed p) /\
  in_bits 4 (whammies p) /\ in_bits 2 (up p) /\ in_bits 2 (reserved p).

(** Assignments to one field; the stored value is cut to the field width. *)
Definition set_score (p : t) (v : Z) : t :=
  mk (bits 16 v) (earned p) (passed p) (whammies p) (up p) (reserved p).
Definition set_earned (p : t) (v : Z) : t :=
  mk (score p) (bits 4 v) (passed p) (whammies p) (up p) (reserved p).
Definition set_passed (p : t) (v : Z) : t :=
  mk (score p) (earned p) (bits 4 v) (whammies p) (up p) (reserved p).
Definition set_whammies (p : t) (v : Z) : t :=
  mk (score p) (earned p) (passed p) (bits 4 v) (up p) (reserved p).
Definition set_up (p : t) (v : Z) : t :=
  mk (score p) (earned p) (passed p) (whammies p) (bits 2 v) (reserved p).

(** [unsigned int spins () const { return earned+passed; }] *)
Definition spins (p : t) : Z := u32 (earned p + passed p).

(** [void take_spins (unsigned int count)].  [count] is an [unsigned int],
    so [passed - count] and [count - passed] are computed modulo [2^32]
    before the result is stored into the 4-bit field. *)
Definition take_spins (p : t) (count : Z) : t :=
  if passed p =? count then set_passed p 0
  else if passed p >? count then set_passed p (u32 (passed p - count))
  else if passed p <? count then
    set_passed (set_earned p (u32 (earned p - u32 (count - passed p)))) 0
  else p.

Definition can_pass (p : t) : bool := (earned p >? 0) && (passed p =? 0).

Definition out (p : t) : bool := whammies p >=? MaxWhammies.

(** [unsigned int hash () const]: the 32-bit word that holds the six
    fields, the first declared field in the low bits. *)
Definition hash (p : t) : Z :=
  Z.lor (score p)
    (Z.lor (Z.shiftl (earned p) 16)
       (Z.lor (Z.shiftl (passed p) 20)
          (Z.lor (Z.shiftl (whammies p) 24)
             (Z.lor (Z.shiftl (up p) 28) (Z.shiftl (reserved p) 30))))).

(** [bool operator== (const Player& p0, const Player& p1)]. *)
Definition eqb (p0 p1 : t) : bool := hash p0 =? hash p1.

End Player.

(** ** State *)

Module State.

Definition num_players : Z := 3.

(** [Player players[num_players]]. *)
Record t : Set := mk {
  players0 : Player.t;
  players1 : Player.t;
  players2 : Player.t
}.

(** [players[i]].  An index outside [0..2] is undefined behaviour in the
    source; [wf] keeps the turn index, the only computed index that is not
    reduced modulo [num_players], below [num_players]. *)
Definition player (s : t) (i : Z) : Player.t :=
  if i =? 0 then players0 s
  else if i =? 1 then players1 s
  else players2 s.

(** [players[i] = p]. *)
Definition set_player (s : t) (i : Z) (p : Player.t) : t :=
  if i =? 0 then mk p (players1 s) (players2 s)
  else if i =? 1 then mk (players0 s) p (players2 s)
  else mk (players0 s) (players1 s) p.

Definition up_num (s : t) : Z := Player.up (players0 s).

Definition wf (s : t) : Prop :=
  Player.wf (players0 s) /\ Player.wf (players1 s) /\ Player.wf (players2 s) /\
  up_num s < num_players.

(** [void up (unsigned int u) { players[0].up = u; }] *)
Definition set_up (s : t) (u : Z) : t :=
  set_player s 0 (Player.set_up (players0 s) u).

Definition opponent_num (s : t) (n : Z) : Z :=
  u32 (up_num s + n + 1) mod num_players.

Definition up (s : t) : Player.t := player s (up_num s).
Definition opponent (s : t) (n : Z) : Player.t := player s (opponent_num s n).

(** The index of the player [passee ()] refers to. *)
Definition passee_num (s : t) : Z :=
  if Player.score (opponent s 0) >=? Player.score (opponent s 1)
  then opponent_num s 0 else opponent_num s 1.

Definition passee (s : t) : Player.t := player s (passee_num s).

Definition spins (s : t) : Z :=
  u32 (Player.spins (players0 s) + Player.spins (players1 s)
       + Player.spins (players2 s)).

Definition total_spins (s : t) : Z := spins s.

Definition can_pass (s : t) : bool := Player.can_pass (up s).

Definition terminal (s : t) : bool :=
  (Player.spins (up s) =? 0)
  || (Player.out (opponent s 0) && Player.out (opponent s 1)).

Definition third_place (s : t) : bool :=
  (Player.score (up s) <? Player.score (opponent s 0))
  && (Player.score (up s) <? Player.score (opponent s 1)).

(** [int lead () const]: both scores are promoted to [int]. *)
Definition lead (s : t) : Z := Player.score (up s) - Player.score (passee s).

(** [void State::change_player ()]. *)
Definition change_player (s : t) : t :=
  if Player.spins (up s) =? 0 then
    match find (fun i => Player.spins (player s i) >? 0) [0; 1; 2] with
    | Some i => set_up s i
    | None => s
    end
  else s.

(** [bool operator== (const State& ds0, const State& ds1)]. *)
Definition eqb (ds0 ds1 : t) : bool :=
  forallb (fun i => Player.eqb (player ds0 i) (player ds1 i)) [0; 1; 2].

(** [State operator* (const SpinValue& opv, const State& sv)].  [up] is a
    reference to [players[i]], [i] the turn index on entry; the assignment
    [up = res.up()] after [change_player] therefore copies the record of
    the player who is now up into [players[i]]. *)
Definition spin (opv : SpinValue.t) (sv : t) : t :=
  let res := sv in
  let i := up_num res in
  let up := Player.take_spins (player res i) (SpinValue.taken opv) in
  let up :=
    if SpinValue.whammy opv then
      let up := Player.set_score up 0 in
      let up := Player.set_earned up (Player.earned up + Player.passed up) in
      let up := Player.set_passed up 0 in
      let up := Player.set_whammies up (Player.whammies up + 1) in
      if Player.out up then Player.set_earned up 0 else up
    else
      let up :=
        Player.set_score up
          (Z.min (Player.score up + SpinValue.score opv) SpinValue.MaxScore) in
      Player.set_earned up (Player.earned up + SpinValue.earned opv) in
  let res := set_player res i up in
  let res := change_player res in
  let res := set_player res i (player res (up_num res)) in
  let up := player res i in
  if Player.whammies up + total_spins res <? Player.MaxWhammies
  then set_player res i (Player.set_whammies up 0)
  else res.

(** The two assignments of [operator* (const PassOperator&, const State&)]
    that come before [change_player]. *)
Definition pass_transfer (sv : t) : t :=
  let res := sv in
  let i := passee_num res in
  let res :=
    set_player res i
      (Player.set_passed (player res i)
         (Player.passed (player res i) + Player.earned (up res))) in
  set_player res (up_num res) (Player.set_earned (up res) 0).

(** [State operator* (const PassOperator& op, const State& sv)]. *)
Definition pass (sv : t) : t := change_player (pass_transfer sv).

(** The index of the player [standby ()] refers to. *)
Definition standby_num (s : t) : Z :=
  if Player.score (opponent s 0) >=? Player.score (opponent s 1)
  then opponent_num s 1 else opponent_num s 0.

Definition standby (s : t) : Player.t := player s (standby_num s).

(** The statements of [operator* (const SpinValue&, const State&)] that
    come before [change_player]: they change the record [up] of the player
    up. *)
Definition spin_record (opv : SpinValue.t) (up : Player.t) : Player.t :=
  let up := Player.take_spins up (SpinValue.taken opv) in
  if SpinValue.whammy opv then
    let up := Player.set_score up 0 in
    let up := Player.set_earned up (Player.earned up + Player.passed up) in
    let up := Player.set_passed up 0 in
    let up := Player.set_whammies up (Player.whammies up + 1) in
    if Player.out up then Player.set_earned up 0 else up
  else
    let up :=
      Player.set_score up
        (Z.min (Player.score up + SpinValue.score opv) SpinValue.MaxScore) in
    Player.set_earned up (Player.earned up + SpinValue.earned opv).

Definition spin_update (opv : SpinValue.t) (sv : t) : t :=
  set_player sv (up_num sv) (spin_record opv (player sv (up_num sv))).

(** The last statement of [operator* (const SpinValue&, const State&)] on
    the record [up]: the whammy count is set to 0 when the player cannot
    whammy out any more. *)
Definition reset_whammies (total_spins : Z) (up : Player.t) : Player.t :=
  if Player.whammies up + total_spins <? Player.MaxWhammies
  then Player.set_whammies up 0 else up.

(** A state whose turn index and whose unused [up] fields are below
    [num_players]: what [players[up_num ()]] needs after any assignment of
    one record to another. *)
Definition wf_up (s : t) : Prop :=
  wf s /\ Player.up (players1 s) < num_players
  /\ Player.up (players2 s) < num_players.

Section Hash.

(** [std::hash<unsigned int>], a function of the standard library, taken
    as it comes; its result is a [size_t] of 64 bits. *)
Variable std_hash : Z -> Z.

Definition size_t_shl (x n : Z) : Z := Z.shiftl x n mod 2 ^ 64.

(** [std::hash<State>::operator()]: [dsp[i]] is the word of [players[i]]. *)
Definition hash (ds : t) : Z :=
  let res := std_hash (Player.hash (player ds 0)) in
  let res := Z.lxor res (size_t_shl (std_hash (Player.hash (player ds 1))) 1) in
  let res := Z.lxor res (size_t_shl (std_hash (Player.hash (player ds 2))) 2) in
  res.

End Hash.

End State.

(** ** Payoff *)

Module Payoff.

(** [array<Prob, num_players> prob]. *)
Record t : Set := mk { prob0 : Q; prob1 : Q; prob2 : Q }.

Definition null_value : Q := (-1)%Q.

(** [Payoff () : prob{ null_value, } {}] *)
Definition null : t := mk null_value 0%Q 0%Q.

(** [Prob operator[] (size_t n) const] *)
Definition get (p : t) (n : Z) : Q :=
  if n =? 0 then prob0 p else if n =? 1 then prob1 p else prob2 p.

(** [void assign (size_t n, Prob value)] *)
Definition assign (p : t) (n : Z) (value : Q) : t :=
  if n =? 0 then mk value (prob1 p) (prob2 p)
  else if n =? 1 then mk (prob0 p) value (prob2 p)
  else mk (prob0 p) (prob1 p) value.

Definition clear (p : t) : t := mk 0%Q 0%Q 0%Q.

Definition invalidate (p : t) : t := assign (clear p) 0 null_value.

Definition is_null (p : t) : bool := Qle_bool (prob0 p) null_value.

(** [std::accumulate(prob.begin(), prob.end(), Prob(0.0))] *)
Definition sum (p : t) : Q := (((0 + prob0 p) + prob1 p) + prob2 p)%Q.

Definition uncertainty (p : t) : Q :=
  if is_null p then 1%Q else (1 - sum p)%Q.

(** [a > b] and [std::min (a, b)] on [Prob]. *)
Definition gt (a b : Q) : bool :=
  match (a ?= b)%Q with Gt => true | _ => false end.

Definition min (a b : Q) : Q := if gt a b then b else a.

(** [bool operator== (const Payoff& other)] *)
Definition eqb (a other : t) : bool :=
  Qeq_bool (prob0 a) (prob0 other) && Qeq_bool (prob1 a) (prob1 other)
  && Qeq_bool (prob2 a) (prob2 other).

(** [Payoff& operator*= (Prob p)] and [Payoff& operator+= (const Payoff&)]. *)
Definition scale (a : t) (p : Q) : t :=
  mk (prob0 a * p)%Q (prob1 a * p)%Q (prob2 a * p)%Q.

Definition plus (a other : t) : t :=
  mk (prob0 a + prob0 other)%Q (prob1 a + prob1 other)%Q
     (prob2 a + prob2 other)%Q.

(** A payoff whose entries are probabilities of disjoint events: none is
    negative and their sum is at most 1. *)
Definition valid (p : t) : Prop :=
  (0 <= prob0 p /\ 0 <= prob1 p /\ 0 <= prob2 p /\ sum p <= 1)%Q.

End Payoff.

(** ** Search options and nodes *)

Record SearchOptions : Set := {
  max_uncertainty : Q;
  max_lead : Z;
  max_depth : Z;
  max_passed_spins_optimized : Z;
  debug : bool;
  always_spin_third_place : bool;
  merge_passed_spins : bool;
  optimize_final_spin : bool
}.

(** [SearchOptions()] *)
Definition default_options : SearchOptions :=
  {| max_uncertainty := (3 # 100)%Q;
     max_lead := 15000;
     max_depth := 50;
     max_passed_spins_optimized := 7;
     debug := false;
     always_spin_third_place := true;
     merge_passed_spins := true;
     optimize_final_spin := false |}.

(** The three classes derived from [Node]. *)
Inductive Kind : Set := Terminal | Decide | Spin.

(** A [Node *] handed out by the [NodeCache]: the cache keeps one node for
    each class and state, so the pair names the node. *)
Definition NodeRef : Set := (Kind * State.t)%type.

(** The class [NodeCache::create_node] chooses. *)
Definition create_node (ds : State.t) : NodeRef :=
  if State.terminal ds then (Terminal, ds)
  else if State.can_pass ds then (Decide, ds)
  else (Spin, ds).

Definition create_spin_node (ds : State.t) : NodeRef := (Spin, ds).

Module TerminalNode.

(** One round of the first loop of [calc_payoff] over [(max, count)]. *)
Definition tally (acc : Z * Z) (player : Player.t) : Z * Z :=
  let (max, count) := acc in
  if Player.out player then acc
  else if Player.score player =? max then (max, u32 (count + 1))
  else if Player.score player >? max then (Player.score player, 1)
  else acc.

(** [void TerminalNode::calc_payoff () const]: the new value of [payoff_]. *)
Definition calc_payoff (state : State.t) (payoff_ : Payoff.t) : Payoff.t :=
  let (max, count) :=
    fold_left tally (map (State.player state) [0; 1; 2]) (0, 0) in
  fold_left
    (fun payoff i =>
       if (Player.score (State.player state i) =? max)
          && negb (Player.out (State.player state i))
       then Payoff.assign payoff i (1 / inject_Z count)%Q
       else Payoff.assign payoff i 0%Q)
    [0; 1; 2] payoff_.

(** The words of the specification: a player who is not out and whose score
    no player who is not out exceeds. *)
Definition leader (state : State.t) (i : Z) : bool :=
  negb (Player.out (State.player state i))
  && forallb
       (fun j => Player.out (State.player state j)
                 || (Player.score (State.player state j)
                     <=? Player.score (State.player state i)))
       [0; 1; 2].

Definition leaders (state : State.t) : Z :=
  Z.of_nat (length (filter (leader state) [0; 1; 2])).

End TerminalNode.

(** The arithmetic of [TerminalNode::calc_payoff] and of
    [Payoff::uncertainty] in the formats of the source: [1.0/count] and
    [1.0 - sum] are computed in [double] and stored as [float]; the sum is
    accumulated in [float]. *)
Module Float32.

Definition to_float (x : spec_float) : spec_float :=
  match x with
  | S754_finite s m e => binary_round 24 128 s m e
  | _ => x
  end.

Definition to_double (x : spec_float) : spec_float :=
  match x with
  | S754_finite s m e => binary_round 53 1024 s m e
  | _ => x
  end.

Definition double_of_Z (n : Z) : spec_float := binary_normalize 53 1024 n 0 false.

(** [payoff_.assign (i, 1.0/count)] and [payoff_.assign (i, 0)]. *)
Definition share (count : Z) (leads : bool) : spec_float :=
  if leads then to_float (SFdiv 53 1024 (double_of_Z 1) (double_of_Z count))
  else S754_zero false.

(** [std::accumulate(prob.begin(), prob.end(), Prob(0.0))]. *)
Definition accumulate (prob : list spec_float) : spec_float :=
  fold_left (SFadd 24 128) prob (S754_zero false).

(** [1.0 - std::accumulate(...)], returned as [Prob]. *)
Definition uncertainty (prob : list spec_float) : spec_float :=
  to_float (SFsub 53 1024 (double_of_Z 1) (to_double (accumulate prob))).

End Float32.

Module DecideNode.

(** [Payoff merge(const Payoff& first, const Payoff& second)] *)
Definition merge (first second : Payoff.t) : Payoff.t :=
  fold_left
    (fun result n =>
       Payoff.assign result n
         (Payoff.min (Payoff.get first n) (Payoff.get second n)))
    [0; 1; 2] Payoff.null.

(** [void DecideNode::calc_payoff () const]: the new value of [payoff_].
    [if_play] and [if_pass] are [None] for a null branch and otherwise hold
    what [payoff ()] of the branch returns. *)
Definition calc_payoff (state : State.t) (if_play if_pass : option Payoff.t)
    (payoff_ : Payoff.t) : Payoff.t :=
  match if_play, if_pass with
  | None, None => Payoff.clear payoff_
  | None, Some pass => pass
  | Some play, None => play
  | Some play, Some pass =>
      let up := State.up_num state in
      let win_play := Payoff.get play up in
      let win_pass := Payoff.get pass up in
      if Payoff.gt win_play win_pass then play
      else if Payoff.gt win_pass win_play then pass
      else merge pass play
  end.

(** The creation of branches in [DecideNode::scan_branches]: the new values
    of [if_play] and [if_pass]. *)
Definition materialize (options : SearchOptions) (state : State.t)
    (if_play if_pass : option NodeRef) : option NodeRef * option NodeRef :=
  match if_pass, if_play with
  | None, None =>
      (if negb (max_lead options =? 0) && (State.lead state >? max_lead options)
       then if_play
       else Some (create_spin_node state),
       if always_spin_third_place options && State.third_place state
       then if_pass
       else Some (create_node (State.pass state)))
  | _, _ => (if_play, if_pass)
  end.

End DecideNode.


(** ** Interval *)

Module Interval.

Record t : Set := mk { min_ : Q; max_ : Q }.

(** [Interval (T t1, T t2)] *)
Definition make (t1 t2 : Q) : t :=
  if Payoff.gt t2 t1 then mk t1 t2 else mk t2 t1.

(** [operator<], [operator>] and [overlaps]. *)
Definition lt (a other : t) : bool := Payoff.gt (min_ other) (max_ a).
Definition gt (a other : t) : bool := Payoff.gt (min_ a) (max_ other).
Definition overlaps (a other : t) : bool := negb (lt a other) && negb (gt a other).

(** [Interval<Prob> Payoff::range(size_t n) const] *)
Definition range (p : Payoff.t) (n : Z) : t :=
  make (Payoff.get p n) (Payoff.get p n + Payoff.uncertainty p)%Q.

(** [T width () const] *)
Definition width (a : t) : Q := (max_ a - min_ a)%Q.

End Interval.

(** ** The node cache and the search

    A node lives in the cache under its class and its state; the three
    hash tables of [NodeCache] are lists of entries looked up with
    [operator==] on states.  The functions below run in a state monad over
    the cache; a computation that runs out of fuel, or follows a reference
    to a node that is not in the cache, has no result. *)

Inductive NodeBody : Set :=
| TerminalBody
| DecideBody (if_play if_pass : option NodeRef)
| SpinBody (branches : list (Q * NodeRef)).

Record Node : Set := {
  state : State.t;
  payoff_ : Payoff.t;
  visited_ : bool;
  body : NodeBody
}.

Definition set_payoff_ (n : Node) (p : Payoff.t) : Node :=
  {| state := state n; payoff_ := p; visited_ := visited_ n; body := body n |}.

Definition set_visited_ (n : Node) (v : bool) : Node :=
  {| state := state n; payoff_ := payoff_ n; visited_ := v; body := body n |}.

Definition set_body (n : Node) (b : NodeBody) : Node :=
  {| state := state n; payoff_ := payoff_ n; visited_ := visited_ n; body := b |}.

(** [Node (State ds)] and the constructors of the derived classes. *)
Definition new_node (r : NodeRef) : Node :=
  {| state := snd r;
     payoff_ := Payoff.null;
     visited_ := false;
     body := match fst r with
             | Terminal => TerminalBody
             | Decide => DecideBody None None
             | Spin => SpinBody []
             end |}.

Module NodeCache.

Definition table : Set := list (State.t * Node).

Record t : Set := mk {
  spin_nodes_ : table;
  decide_nodes_ : table;
  terminal_nodes_ : table;
  final_spin_nodes : Z
}.

Definition empty : t := mk [] [] [] 0.

Fixpoint table_find (ds : State.t) (m : table) : option Node :=
  match m with
  | [] => None
  | (k, n) :: m' => if State.eqb k ds then Some n else table_find ds m'
  end.

Fixpoint table_set (ds : State.t) (n : Node) (m : table) : table :=
  match m with
  | [] => [(ds, n)]
  | (k, n0) :: m' =>
      if State.eqb k ds then (k, n) :: m' else (k, n0) :: table_set ds n m'
  end.

Definition table_of (k : Kind) (c : t) : table :=
  match k with
  | Spin => spin_nodes_ c
  | Decide => decide_nodes_ c
  | Terminal => terminal_nodes_ c
  end.

Definition with_table (k : Kind) (m : table) (c : t) : t :=
  match k with
  | Spin => mk m (decide_nodes_ c) (terminal_nodes_ c) (final_spin_nodes c)
  | Decide => mk (spin_nodes_ c) m (terminal_nodes_ c) (final_spin_nodes c)
  | Terminal => mk (spin_nodes_ c) (decide_nodes_ c) m (final_spin_nodes c)
  end.

Definition find (r : NodeRef) (c : t) : option Node :=
  table_find (snd r) (table_of (fst r) c).

Definition set (r : NodeRef) (n : Node) (c : t) : t :=
  with_table (fst r) (table_set (snd r) n (table_of (fst r) c)) c.

(** [create_terminal_node], [create_spin_node] and [create_decide_node]:
    the node of the reference is made if the table does not have it. *)
Definition create (r : NodeRef) (c : t) : t :=
  match find r c with
  | Some _ => c
  | None =>
      let c := set r (new_node r) c in
      match fst r with
      | Spin =>
          if State.spins (snd r) =? 1
          then mk (spin_nodes_ c) (decide_nodes_ c) (terminal_nodes_ c)
                  (u32 (final_spin_nodes c + 1))
          else c
      | _ => c
      end
  end.

(** [apply]: [f] is run on every node of the three tables. *)
Definition apply (f : Node -> Node) (c : t) : t :=
  let on := map (fun e : State.t * Node => (fst e, f (snd e))) in
  mk (on (spin_nodes_ c)) (on (decide_nodes_ c)) (on (terminal_nodes_ c))
     (final_spin_nodes c).

Definition size (c : t) : nat :=
  (length (spin_nodes_ c) + length (decide_nodes_ c))%nat.

End NodeCache.

(** The monad. *)
Definition M (A : Type) : Type := NodeCache.t -> option (A * NodeCache.t).

Definition ret {A : Type} (a : A) : M A := fun c => Some (a, c).

Definition bind {A B : Type} (m : M A) (f : A -> M B) : M B :=
  fun c => match m c with
           | Some (a, c') => f a c'
           | None => None
           end.

Definition fail {A : Type} : M A := fun _ => None.

Declare Scope search_scope.
Delimit Scope search_scope with search.
Notation "x <- m ;; k" := (bind m (fun x => k))
  (at level 61, m at next level, right associativity) : search_scope.
Notation "m ;;; k" := (bind m (fun _ => k))
  (at level 61, right associativity) : search_scope.
Local Open Scope search_scope.

Definition get (r : NodeRef) : M Node :=
  fun c => match NodeCache.find r c with
           | Some n => Some (n, c)
           | None => None
           end.

Definition put (r : NodeRef) (n : Node) : M unit :=
  fun c => Some (tt, NodeCache.set r n c).

Definition create (r : NodeRef) : M NodeRef :=
  fun c => Some (r, NodeCache.create r c).

Definition create_opt (r : option NodeRef) : M unit :=
  match r with
  | Some r => create r ;;; ret tt
  | None => ret tt
  end.

Fixpoint for_each {A : Type} (l : list A) (f : A -> M unit) : M unit :=
  match l with
  | [] => ret tt
  | a :: l' => f a ;;; for_each l' f
  end.

Definition set_payoff (r : NodeRef) (p : Payoff.t) : M unit :=
  node <- get r ;; put r (set_payoff_ node p).

(** [typedef WeightedSet<State, Prob> ProbState]. *)
Definition ProbState : Type := WeightedSet.Container State.t.

(** [ProbState SpinOperator::operator* (const State& ds) const]. *)
Definition SpinOperator_apply (expr : SpinOperator.t) (ds : State.t) : ProbState :=
  fold_left
    (fun res term => WeightedSet.add State.eqb (snd term) (State.spin (fst term) ds) res)
    expr [].

Record SearchResult : Set := {
  play_win : Interval.t;
  pass_win : Interval.t
}.

Definition new_result : SearchResult :=
  {| play_win := Interval.make 0 1; pass_win := Interval.make 0 1 |}.

(** The constant members of [Search].  [order] is the order in which the
    entries of a [ProbState] are visited, which the source leaves to the
    hash table. *)
Record Search : Type := {
  spin_op : list SpinOperator.t;
  options : SearchOptions;
  order : ProbState -> ProbState
}.

Definition MaxPassedSpins : nat := 7.

(** [Search::Search]: [spin_op[0]] and [spin_op[1]] are the board,
    [spin_op[n]] the board applied to [spin_op[n-1]]. *)
Definition new_Search (spin : SpinOperator.t) (opts : SearchOptions)
    (ord : ProbState -> ProbState) : Search :=
  let spin2 := SpinOperator.compose spin spin in
  let spin3 := SpinOperator.compose spin spin2 in
  let spin4 := SpinOperator.compose spin spin3 in
  let spin5 := SpinOperator.compose spin spin4 in
  let spin6 := SpinOperator.compose spin spin5 in
  {| spin_op := [spin; spin; spin2; spin3; spin4; spin5; spin6];
     options := opts;
     order := ord |}.

(** [constexpr bool opt_passed_spin_merge = true]. *)
Definition opt_passed_spin_merge : bool := true.

Module SearchNode.

(** The body of a [calc_payoff] of the three classes; [payoff] is
    [Node::payoff] of a branch. *)
Definition calc_payoff (payoff : NodeRef -> M Payoff.t) (r : NodeRef) : M unit :=
  node <- get r ;;
  match body node with
  | TerminalBody =>
      set_payoff r (TerminalNode.calc_payoff (state node) (payoff_ node))
  | SpinBody branches =>
      set_payoff r (Payoff.clear (payoff_ node)) ;;;
      for_each branches
        (fun branch =>
           p <- payoff (snd branch) ;;
           node <- get r ;;
           set_payoff r (Payoff.plus (payoff_ node) (Payoff.scale p (fst branch))))
  | DecideBody None None =>
      set_payoff r (Payoff.clear (payoff_ node))
  | DecideBody None (Some if_pass) =>
      p <- payoff if_pass ;; set_payoff r p
  | DecideBody (Some if_play) None =>
      p <- payoff if_play ;; set_payoff r p
  | DecideBody (Some if_play) (Some if_pass) =>
      let up := State.up_num (state node) in
      p <- payoff if_play ;;
      let win_play := Payoff.get p up in
      p <- payoff if_pass ;;
      let win_pass := Payoff.get p up in
      if Payoff.gt win_play win_pass then
        p <- payoff if_play ;; set_payoff r p
      else if Payoff.gt win_pass win_play then
        p <- payoff if_pass ;; set_payoff r p
      else
        first <- payoff if_pass ;;
        second <- payoff if_play ;;
        set_payoff r (DecideNode.merge first second)
  end.

(** [const Payoff& Node::payoff() const]. *)
Fixpoint payoff (fuel : nat) (r : NodeRef) : M Payoff.t :=
  match fuel with
  | O => fail
  | S fuel' =>
      node <- get r ;;
      if Payoff.is_null (payoff_ node) then
        calc_payoff (payoff fuel') r ;;;
        node <- get r ;; ret (payoff_ node)
      else ret (payoff_ node)
  end.

(** The branches a spin node makes on its first scan. *)
Fixpoint make_branches (st : State.t) (terms : ProbState) (coverage : Q)
    (branches : list (Q * NodeRef)) : M (Q * list (Q * NodeRef)) :=
  match terms with
  | [] => ret (coverage, branches)
  | s :: terms' =>
      if State.eqb (fst s) st then
        make_branches st terms' (coverage - snd s)%Q branches
      else
        node <- create (create_node (fst s)) ;;
        make_branches st terms' coverage (branches ++ [(snd s, node)])
  end.

(** [scan_branches] of the three classes; [scan] is [Node::scan] with the
    stop condition [stop]. *)
Definition scan_branches (search : Search) (scan : NodeRef -> M unit)
    (r : NodeRef) : M unit :=
  node <- get r ;;
  match body node with
  | TerminalBody => ret tt
  | SpinBody branches =>
      put r (set_payoff_ node (Payoff.invalidate (payoff_ node))) ;;;
      branches <-
        match branches with
        | [] =>
            let up := State.up (state node) in
            let max_spins :=
              if opt_passed_spin_merge && (Player.passed up >? 0)
              then Z.min (Player.passed up) 5 else 1 in
            let next :=
              SpinOperator_apply (nth (Z.to_nat max_spins) (spin_op search) [])
                (state node) in
            made <- make_branches (state node) (order search next) 1%Q [] ;;
            let coverage := fst made in
            let branches :=
              if Payoff.gt 1%Q coverage
              then map (fun b : Q * NodeRef => ((fst b / coverage)%Q, snd b)) (snd made)
              else snd made in
            node <- get r ;;
            put r (set_body node (SpinBody branches)) ;;;
            ret branches
        | _ => ret branches
        end ;;
      for_each branches (fun branch => scan (snd branch))
  | DecideBody if_play if_pass =>
      put r (set_payoff_ node (Payoff.invalidate (payoff_ node))) ;;;
      let made :=
        DecideNode.materialize (options search) (state node) if_play if_pass in
      create_opt (fst made) ;;;
      create_opt (snd made) ;;;
      node <- get r ;;
      put r (set_body node (DecideBody (fst made) (snd made))) ;;;
      match fst made with Some n => scan n | None => ret tt end ;;;
      match snd made with Some n => scan n | None => ret tt end
  end.

(** [void Node::scan (const Search& search, const StopCondition& stop)];
    [depth] is [stop.depth], which [Search::run] never makes negative. *)
Fixpoint scan (search : Search) (depth : nat) (r : NodeRef) : M unit :=
  node <- get r ;;
  if visited_ node then ret tt
  else
    put r (set_visited_ node true) ;;;
    match depth with
    | O => ret tt
    | S deeper =>
        if Qle_bool (Payoff.uncertainty (payoff_ node))
                    (max_uncertainty (options search))
        then ret tt
        else scan_branches search (scan search deeper) r
    end.

(** [bool DecideNode::solved (SearchResult&, const SearchOptions&) const]. *)
Definition solved (fuel : nat) (search : Search) (r : NodeRef)
    (result : SearchResult) : M (bool * SearchResult) :=
  node <- get r ;;
  match body node with
  | DecideBody if_play if_pass =>
      if Payoff.is_null (payoff_ node)
         || (match if_play, if_pass with None, None => true | _, _ => false end)
      then ret (false, result)
      else
        let up := State.up_num (state node) in
        result <-
          match if_play with
          | Some n =>
              p <- payoff fuel n ;;
              ret {| play_win := Interval.range p up; pass_win := pass_win result |}
          | None => ret result
          end ;;
        result <-
          match if_pass with
          | Some n =>
              p <- payoff fuel n ;;
              ret {| play_win := play_win result; pass_win := Interval.range p up |}
          | None => ret result
          end ;;
        match if_pass, if_play with
        | Some pa, Some pl =>
            if negb (Interval.overlaps (play_win result) (pass_win result))
            then ret (true, result)
            else
              a <- payoff fuel pl ;;
              b <- payoff fuel pa ;;
              if Qle_bool (Payoff.uncertainty a) (max_uncertainty (options search))
                 && Qle_bool (Payoff.uncertainty b) (max_uncertainty (options search))
              then ret (true, result)
              else ret (false, result)
        | _, _ => ret (true, result)
        end
  | _ => fail
  end.

(** [enum Decision] and [DecideNode::Decision DecideNode::decision () const]. *)
Inductive Decision : Set := UNDECIDED | PLAY | PASS.

Definition chosen (fuel : nat) (r : NodeRef) (branch : option NodeRef) : M bool :=
  match branch with
  | Some n =>
      p <- payoff fuel n ;;
      node <- get r ;;
      ret (Payoff.eqb (payoff_ node) p)
  | None => ret false
  end.

Definition decision (fuel : nat) (r : NodeRef) : M Decision :=
  node <- get r ;;
  match body node with
  | DecideBody if_play if_pass =>
      play <- chosen fuel r if_play ;;
      if play then ret PLAY
      else
        pass <- chosen fuel r if_pass ;;
        if pass then ret PASS else ret UNDECIDED
  | _ => fail
  end.

(** What the log output of a round of [Search::run] evaluates: the payoffs
    of the branches that exist and, when the round solved the root, its
    decision. *)
Definition log_round (fuel : nat) (r : NodeRef) (solved : bool) : M unit :=
  node <- get r ;;
  match body node with
  | DecideBody if_play if_pass =>
      match if_play with Some n => payoff fuel n ;;; ret tt | None => ret tt end ;;;
      match if_pass with Some n => payoff fuel n ;;; ret tt | None => ret tt end ;;;
      if solved then decision fuel r ;;; ret tt else ret tt
  | _ => fail
  end.

End SearchNode.

(** One round of the loop of [Search::run]: the scan to [depth], the root
    payoff, the test, the log output, and the reset of every visited mark.
    The result is the root payoff and the value of [solved]. *)
Definition run_pass (fuel : nat) (search : Search) (node : NodeRef)
    (depth : Z) (result : SearchResult)
    : M (Payoff.t * bool * SearchResult) :=
  SearchNode.scan search (Z.to_nat depth) node ;;;
  payoff <- SearchNode.payoff fuel node ;;
  res <- SearchNode.solved fuel search node result ;;
  SearchNode.log_round fuel node (fst res) ;;;
  (fun c => Some (tt, NodeCache.apply (fun n => set_visited_ n false) c)) ;;;
  ret (payoff, fst res, snd res).

(** The loop of [Search::run]; [rounds] bounds the number of rounds, the
    payoffs of the rounds are collected in order. *)
Fixpoint run_loop (rounds fuel : nat) (search : Search) (node : NodeRef)
    (depth : Z) (solved : bool) (result : SearchResult)
    : M (list Payoff.t) :=
  if (depth <? 64) && negb solved then
    match rounds with
    | O => fail
    | S rounds' =>
        res <- run_pass fuel search node depth result ;;
        let '(payoff, solved, result) := res in
        rest <- run_loop rounds' fuel search node
                  (depth + (if depth <? 32 then 8 else 4)) solved result ;;
        ret (payoff :: rest)
    end
  else ret [].

(** [DecideNode *Search::run(State init)]: the root and the root payoff of
    every round. *)
Definition run (fuel : nat) (search : Search) (init : State.t)
    : M (NodeRef * list Payoff.t) :=
  let init := State.change_player init in
  node <- create (Decide, init) ;;
  payoffs <- run_loop 12 fuel search node 4 false new_result ;;
  ret (node, payoffs).

(** The root payoffs of the rounds of [run] on a fresh cache. *)
Definition root_payoffs (fuel : nat) (search : Search) (init : State.t)
    : option (list Payoff.t) :=
  match run fuel search init NodeCache.empty with
  | Some (_, payoffs, _) => Some payoffs
  | None => None
  end.

(** The root payoffs of the rounds with their uncertainties, every number
    as a fraction in lowest terms. *)
Definition Payoff_red (p : Payoff.t) : Payoff.t :=
  Payoff.mk (Qred (Payoff.prob0 p)) (Qred (Payoff.prob1 p))
            (Qred (Payoff.prob2 p)).

Definition rounds (fuel : nat) (search : Search) (init : State.t)
    : option (list (Payoff.t * Q)) :=
  option_map
    (map (fun p => (Payoff_red p, Qred (Payoff.uncertainty p))))
    (root_payoffs fuel search init).

(** A board with two outcomes, a whammy with weight 3/4 and 2000 with
    weight 1/4, and a state in which the third player is up with three
    earned spins. *)
Definition tie_board : SpinOperator.t :=
  SpinOperator.add (1 # 4) (SpinValue.SpinValue3 2000 0 1)
    (SpinOperator.add (3 # 4) (SpinValue.SpinValue3 0 0 1) []).

Definition tie_state : State.t :=
  State.mk (Player.mk 5000 0 0 2 0 0) (Player.mk 1000 0 0 1 0 0)
           (Player.mk 1000 3 0 0 0 0).

(** [keeps c c']: every node that has a computed payoff in [c] is the same
    node in [c']. *)
Definition keeps (c c' : NodeCache.t) : Prop :=
  forall r n,
    NodeCache.find r c = Some n -> Payoff.is_null (payoff_ n) = false ->
    NodeCache.find r c' = Some n.

(** Two references name the same node. *)
Definition same_node (r r' : NodeRef) : bool :=
  match fst r, fst r' with
  | Terminal, Terminal | Decide, Decide | Spin, Spin =>
      State.eqb (snd r) (snd r')
  | _, _ => false
  end.

(** A state that the first round settles: the second player is up with one
    earned spin and wins for certain by passing it. *)
Definition settled_state : State.t :=
  State.mk (Player.mk 0 0 0 0 1 0) (Player.mk 8000 1 0 0 0 0)
           (Player.mk 3000 0 0 0 0 0).

Definition settled_search : Search :=
  new_Search tie_board default_options (fun t => t).

(** The cache [run] leaves behind on [settled_state]. *)
Definition settled_cache : NodeCache.t :=
  match run 64 settled_search settled_state NodeCache.empty with
  | Some (_, _, c) => c
  | None => NodeCache.empty
  end.

(** [branch_payoff c branch p]: the branch is null and [p] is [None], or the
    node of the branch has the computed payoff [p] in [c]. *)
Definition branch_payoff (c : NodeCache.t) (branch : option NodeRef)
    (p : option Payoff.t) : Prop :=
  match branch, p with
  | None, None => True
  | Some child, Some v =>
      exists n, NodeCache.find child c = Some n /\ payoff_ n = v
                /\ Payoff.is_null v = false
  | _, _ => False
  end.

(** The payoffs, in lowest terms, that the play branch and the pass branch
    of the root hold when [run] returns. *)
Definition root_branches (fuel : nat) (search : Search) (init : State.t)
    : option (option Payoff.t * option Payoff.t) :=
  match run fuel search init NodeCache.empty with
  | Some (root, _, c) =>
      match NodeCache.find root c with
      | Some n =>
          match body n with
          | DecideBody if_play if_pass =>
              let held (branch : option NodeRef) :=
                match branch with
                | Some r =>
                    option_map (fun m => Payoff_red (payoff_ m))
                               (NodeCache.find r c)
                | None => None
                end in
              Some (held if_play, held if_pass)
          | _ => None
          end
      | None => None
      end
  | None => None
  end.

(** ** Further definitions: spin nodes and the cache invariants *)

Module SpinNode.

(** [void SpinNode::calc_payoff () const]: the new value of [payoff_];
    each branch holds its weight and what [payoff ()] of its node returns. *)
Definition calc_payoff (branches : list (Q * Payoff.t)) (payoff_ : Payoff.t)
    : Payoff.t :=
  fold_left
    (fun payoff_ branch =>
       Payoff.plus payoff_ (Payoff.scale (snd branch) (fst branch)))
    branches (Payoff.clear payoff_).

End SpinNode.

(** The sum of the weights of a list of branches, and the sum of the
    weights each multiplied with a number of its branch. *)
Fixpoint total_weight {A : Type} (branches : list (Q * A)) : Q :=
  match branches with
  | [] => 0%Q
  | branch :: rest => (fst branch + total_weight rest)%Q
  end.

Fixpoint weighted_sum {A : Type} (f : A -> Q) (branches : list (Q * A)) : Q :=
  match branches with
  | [] => 0%Q
  | branch :: rest => (fst branch * f (snd branch) + weighted_sum f rest)%Q
  end.

(** Weights that are probabilities of disjoint events. *)
Definition weights_ok {A : Type} (branches : list (Q * A)) : Prop :=
  Forall (fun branch => (0 <= fst branch)%Q) branches
  /\ (total_weight branches <= 1)%Q.

(** A node whose payoff is null or valid and whose branches, if it is a
    spin node, have such weights; a cache of such nodes. *)
Definition node_ok (n : Node) : Prop :=
  (Payoff.is_null (payoff_ n) = true \/ Payoff.valid (payoff_ n)) /\
  match body n with
  | SpinBody branches => weights_ok branches
  | _ => True
  end.

Definition cache_ok (c : NodeCache.t) : Prop :=
  forall r n, NodeCache.find r c = Some n -> node_ok n.

(** An operator whose weights are not negative and total at most 1, and a
    search whose operators are such and whose [order] only changes the
    order of the entries. *)
Definition op_ok (expr : SpinOperator.t) : Prop :=
  Forall (fun term => (0 <= snd term)%Q) expr
  /\ (WeightedSet.weight expr <= 1)%Q.

Definition search_ok (search : Search) : Prop :=
  Forall op_ok (spin_op search)
  /\ forall t, Permutation (order search t) t.

(** [stays c c']: every node with a visited mark in [c] is the same node
    in [c']. *)
Definition stays (c c' : NodeCache.t) : Prop :=
  forall r n,
    NodeCache.find r c = Some n -> visited_ n = true ->
    NodeCache.find r c' = Some n.

(** What [decision ()] returns for the payoff of the node and the payoffs
    of its two branches. *)
Definition decision_of (payoff_ play pass : Payoff.t) : SearchNode.Decision :=
  if Payoff.eqb payoff_ play then SearchNode.PLAY
  else if Payoff.eqb payoff_ pass then SearchNode.PASS
  else SearchNode.UNDECIDED.

(** Every entry of [a] is at most the entry of [b]. *)
Definition Payoff_le (a b : Payoff.t) : bool :=
  Qle_bool (Payoff.prob0 a) (Payoff.prob0 b)
  && Qle_bool (Payoff.prob1 a) (Payoff.prob1 b)
  && Qle_bool (Payoff.prob2 a) (Payoff.prob2 b).
(** * Properties *)

(** ** Bit-fields *)

Lemma bits_range w x : 0 <= w -> in_bits w (bits w x).
Proof.
  intros Hw. unfold in_bits, bits.
  apply Z.mod_pos_bound, Z.pow_pos_nonneg; lia.
Qed.

Lemma bits_small w x : in_bits w x -> bits w x = x.
Proof. intros H. unfold bits. now apply Z.mod_small. Qed.

Lemma u32_small x : 0 <= x < UINT_MOD -> u32 x = x.
Proof. intros H. unfold u32. now apply Z.mod_small. Qed.

(** ** SpinValue: construction *)

Lemma SpinValue_eqb_eq a b : SpinValue.eqb a b = true <-> a = b.
Proof.
  unfold SpinValue.eqb. destruct a, b; simpl.
  rewrite !andb_true_iff, !Z.eqb_eq. split.
  - intros [[-> ->] ->]. reflexivity.
  - intros H. injection H as -> -> ->. auto.
Qed.

Lemma wf_SpinValue3 s e k : SpinValue.wf (SpinValue.SpinValue3 s e k).
Proof. unfold SpinValue.wf; simpl; repeat split; apply bits_range; lia. Qed.

Lemma wf_SpinValue4 s1 s2 e k : SpinValue.wf (SpinValue.SpinValue4 s1 s2 e k).
Proof. unfold SpinValue.wf; simpl; repeat split; apply bits_range; lia. Qed.

Lemma wf_mul a b :
  SpinValue.wf a -> SpinValue.wf b -> SpinValue.wf (SpinValue.mul a b).
Proof.
  intros Ha Hb. unfold SpinValue.mul.
  destruct (SpinValue.whammy b); [assumption|].
  destruct (SpinValue.whammy a); [apply wf_SpinValue3 | apply wf_SpinValue4].
Qed.

(** The score the three-argument constructor stores, for a raw score that
    is not negative: rounding to the unit, then the cap. *)
Lemma SpinValue3_score s e k :
  0 <= s ->
  SpinValue.score (SpinValue.SpinValue3 s e k)
  = Z.min 20000 ((s + 125) / 250 * 250).
Proof.
  intros Hs. unfold SpinValue.SpinValue3, SpinValue.MaxScore,
    SpinValue.MinScoreUnit. simpl SpinValue.score.
  change (Z.quot 250 2) with 125.
  rewrite Z.quot_div_nonneg by lia.
  apply bits_small. unfold in_bits.
  assert (0 <= (s + 125) / 250) by (apply Z.div_pos; lia).
  change (2 ^ 16) with 65536. lia.
Qed.

Lemma SpinValue4_score s1 s2 e k :
  0 <= s1 + s2 ->
  SpinValue.score (SpinValue.SpinValue4 s1 s2 e k) = Z.min 20000 (s1 + s2).
Proof.
  intros H. unfold SpinValue.SpinValue4, SpinValue.MaxScore. simpl.
  apply bits_small. unfold in_bits. change (2 ^ 16) with 65536. lia.
Qed.

Lemma round_quantized s :
  0 <= s -> SpinValue.quantized s (Z.min 20000 ((s + 125) / 250 * 250)).
Proof.
  intros Hs. unfold SpinValue.quantized, SpinValue.MinScoreUnit,
    SpinValue.MaxScore.
  pose proof (Z.div_mod (s + 125) 250 ltac:(lia)) as Hdm.
  pose proof (Z.mod_pos_bound (s + 125) 250 ltac:(lia)) as Hmb.
  set (r := (s + 125) / 250) in *.
  assert (Hq : (Z.min 20000 (r * 250)) mod 250 = 0).
  { destruct (Z.min_spec 20000 (r * 250)) as [[_ ->] | [_ ->]].
    - reflexivity.
    - apply Z.mod_mul; lia. }
  split; [exact Hq|]. split; [lia|].
  intros m Hm Hle.
  apply Z.mod_divide in Hm; [|lia]. destruct Hm as [j ->].
  split; [|intros Heq]; lia.
Qed.

(** C7, the claim as it stands, fails for a negative raw score: the
    constructor's division truncates towards zero and the negative result
    is then stored into the unsigned 16-bit field. *)
Lemma SpinValue_quantization_negative_score :
  SpinValue.score (SpinValue.SpinValue3 (-1000) 0 1) = 64786 /\
  ~ SpinValue.quantized (-1000)
      (SpinValue.score (SpinValue.SpinValue3 (-1000) 0 1)).
Proof.
  split; [reflexivity|].
  intros (Hmod & _ & _). vm_compute in Hmod. discriminate.
Qed.

(** C7 (amended): for every raw score [s] that is not negative (and for
    which [s + 125] is still an [int]) the score stored by the constructor
    is a multiple of [MinScoreUnit], lies between 0 and [MaxScore], and is
    the nearest such multiple of [s], the larger one on a tie; the two-score
    constructor keeps the invariant [0 <= score <= MaxScore], [score] a
    multiple of the unit, when both of its inputs satisfy it. *)
Theorem SpinValue_quantization (s e k s1 s2 e' k' : Z) :
  0 <= s <= INT_MAX - 125 ->
  SpinValue.quantized s (SpinValue.score (SpinValue.SpinValue3 s e k)) /\
  SpinValue.score_inv (SpinValue.score (SpinValue.SpinValue3 s e k)) /\
  (SpinValue.score_inv s1 -> SpinValue.score_inv s2 ->
   SpinValue.score_inv (SpinValue.score (SpinValue.SpinValue4 s1 s2 e' k'))).
Proof.
  intros [Hs _].
  rewrite SpinValue3_score by exact Hs.
  pose proof (round_quantized s Hs) as Hq.
  split; [exact Hq|]. split.
  - destruct Hq as (Hmod & Hmax & _).
    unfold SpinValue.score_inv, SpinValue.MaxScore in *.
    assert (0 <= (s + 125) / 250) by (apply Z.div_pos; lia).
    split; [lia | exact Hmod].
  - unfold SpinValue.score_inv, SpinValue.MaxScore, SpinValue.MinScoreUnit.
    intros [H1 M1] [H2 M2].
    rewrite SpinValue4_score by lia.
    split; [lia|].
    destruct (Z.min_spec 20000 (s1 + s2)) as [[_ ->] | [_ ->]].
    + reflexivity.
    + rewrite Z.add_mod, M1, M2 by lia. reflexivity.
Qed.

Lemma SpinValue_quantization_witness :
  0 <= 1400 <= INT_MAX - 125 /\
  SpinValue.score (SpinValue.SpinValue3 1400 0 1) = 1500 /\
  SpinValue.quantized 1400 1500 /\
  SpinValue.score_inv (SpinValue.score (SpinValue.SpinValue4 19750 500 0 2)).
Proof.
  assert (H : 0 <= 1400 <= INT_MAX - 125) by (unfold INT_MAX; lia).
  destruct (SpinValue_quantization 1400 0 1 19750 500 0 2 H) as (Hq & _ & H4).
  split; [exact H|]. split; [reflexivity|]. split; [exact Hq|].
  apply H4; split; solve [reflexivity | unfold SpinValue.MaxScore; lia].
Defined.

(** ** SpinValue: composition *)

Lemma whammy_true sv : SpinValue.whammy sv = true <-> SpinValue.score sv = 0.
Proof. unfold SpinValue.whammy. apply Z.eqb_eq. Qed.

Lemma whammy_false sv : SpinValue.whammy sv = false <-> SpinValue.score sv <> 0.
Proof. unfold SpinValue.whammy. apply Z.eqb_neq. Qed.

Lemma mul_whammy_second sv1 sv2 :
  SpinValue.whammy sv2 = true -> SpinValue.mul sv1 sv2 = sv2.
Proof. intros H. unfold SpinValue.mul. now rewrite H. Qed.

Lemma mul_whammy_first sv1 sv2 :
  SpinValue.whammy sv2 = false -> SpinValue.whammy sv1 = true ->
  SpinValue.mul sv1 sv2
  = SpinValue.mk 0 (bits 8 (SpinValue.earned sv2))
      (bits 8 (1 + SpinValue.taken sv2)).
Proof. intros H2 H1. unfold SpinValue.mul. now rewrite H2, H1. Qed.

Lemma mul_no_whammy sv1 sv2 :
  SpinValue.wf sv1 -> SpinValue.wf sv2 ->
  SpinValue.whammy sv2 = false -> SpinValue.whammy sv1 = false ->
  SpinValue.mul sv1 sv2
  = SpinValue.mk
      (Z.min SpinValue.MaxScore (SpinValue.score sv1 + SpinValue.score sv2))
      (bits 8 (SpinValue.earned sv1 + SpinValue.earned sv2))
      (bits 8 (SpinValue.taken sv1 + SpinValue.taken sv2)).
Proof.
  intros (S1 & _) (S2 & _) H2 H1. unfold SpinValue.mul. rewrite H2, H1.
  unfold SpinValue.SpinValue4. f_equal.
  apply bits_small. unfold in_bits, SpinValue.MaxScore in *.
  change (2 ^ 16) with 65536 in *. lia.
Qed.

(** C2, the claim as it stands, fails where an 8-bit field is full: an
    elimination followed by an outcome that has consumed 255 turns gives an
    outcome that has consumed 0 turns, not 256. *)
Lemma mul_whammy_first_taken_wraps :
  let sv1 := SpinValue.SpinValue3 0 0 1 in
  let sv2 := SpinValue.SpinValue3 1000 0 255 in
  SpinValue.whammy sv1 = true /\ SpinValue.whammy sv2 = false /\
  SpinValue.taken sv2 = 255 /\
  SpinValue.taken (SpinValue.mul sv1 sv2) = 0 /\
  SpinValue.taken (SpinValue.mul sv1 sv2) <> SpinValue.taken sv2 + 1.
Proof. vm_compute. repeat split; discriminate. Qed.

(** C2 (amended): for outcome values [sv1], [sv2] (fields within their
    widths): if [sv2] is an elimination the composition is [sv2] itself;
    if [sv1] is an elimination and [sv2] is not, the composition has score
    0, the earned turns of [sv2], and one more consumed turn than [sv2],
    counted modulo 256; if neither is an elimination the scores add and
    saturate at [MaxScore], and earned and consumed turns add modulo 256.
    Where the sums stay below 256 they are the exact sums. *)
Theorem SpinValue_mul_cases (sv1 sv2 : SpinValue.t) :
  SpinValue.wf sv1 -> SpinValue.wf sv2 ->
  let r := SpinValue.mul sv1 sv2 in
  (SpinValue.whammy sv2 = true -> r = sv2) /\
  (SpinValue.whammy sv1 = true -> SpinValue.whammy sv2 = false ->
   SpinValue.score r = 0 /\
   SpinValue.earned r = SpinValue.earned sv2 /\
   SpinValue.taken r = (SpinValue.taken sv2 + 1) mod 256 /\
   (SpinValue.taken sv2 < 255 ->
    SpinValue.taken r = SpinValue.taken sv2 + 1)) /\
  (SpinValue.whammy sv1 = false -> SpinValue.whammy sv2 = false ->
   SpinValue.score r
   = Z.min SpinValue.MaxScore (SpinValue.score sv1 + SpinValue.score sv2) /\
   SpinValue.earned r
   = (SpinValue.earned sv1 + SpinValue.earned sv2) mod 256 /\
   SpinValue.taken r
   = (SpinValue.taken sv1 + SpinValue.taken sv2) mod 256 /\
   (SpinValue.earned sv1 + SpinValue.earned sv2 < 256 ->
    SpinValue.earned r = SpinValue.earned sv1 + SpinValue.earned sv2) /\
   (SpinValue.taken sv1 + SpinValue.taken sv2 < 256 ->
    SpinValue.taken r = SpinValue.taken sv1 + SpinValue.taken sv2)).
Proof.
  intros W1 W2 r. subst r.
  pose proof W1 as (S1 & E1 & T1). pose proof W2 as (S2 & E2 & T2).
  unfold in_bits in *. change (2 ^ 8) with 256 in *.
  split; [apply mul_whammy_second|]. split.
  - intros H1 H2. rewrite (mul_whammy_first _ _ H2 H1).
    cbn [SpinValue.score SpinValue.earned SpinValue.taken].
    unfold bits. change (2 ^ 8) with 256.
    rewrite (Z.add_comm 1).
    repeat split.
    + apply Z.mod_small; lia.
    + intros Hlt. apply Z.mod_small; lia.
  - intros H1 H2. rewrite (mul_no_whammy _ _ W1 W2 H2 H1).
    cbn [SpinValue.score SpinValue.earned SpinValue.taken].
    unfold bits. change (2 ^ 8) with 256.
    repeat split; intros Hlt; apply Z.mod_small; lia.
Qed.

Lemma SpinValue_mul_cases_witness :
  let sv1 := SpinValue.SpinValue3 0 0 1 in
  let sv2 := SpinValue.SpinValue3 1000 1 1 in
  SpinValue.wf sv1 /\ SpinValue.wf sv2 /\
  SpinValue.mul sv2 sv1 = sv1 /\
  SpinValue.taken (SpinValue.mul sv1 sv2) = 2 /\
  SpinValue.score (SpinValue.mul sv2 sv2) = 2000.
Proof.
  intros sv1 sv2.
  pose proof (wf_SpinValue3 0 0 1) as W1.
  pose proof (wf_SpinValue3 1000 1 1) as W2.
  split; [exact W1|]. split; [exact W2|].
  split; [|split].
  - apply (SpinValue_mul_cases sv2 sv1 W2 W1). reflexivity.
  - destruct (SpinValue_mul_cases sv1 sv2 W1 W2) as (_ & H & _).
    destruct (H eq_refl eq_refl) as (_ & _ & Ht & _). exact Ht.
  - destruct (SpinValue_mul_cases sv2 sv2 W2 W2) as (_ & _ & H).
    destruct (H eq_refl eq_refl) as (Hs & _). exact Hs.
Defined.

(** ** SpinOperator: composition *)

Section AddKeys.

Variable T : Type.
Variable T_eqb : T -> T -> bool.
Hypothesis T_eqb_eq : forall a b, T_eqb a b = true <-> a = b.

Lemma add_keys p x (m : WeightedSet.Container T) k :
  In k (WeightedSet.keys (WeightedSet.add T_eqb p x m))
  <-> In k (WeightedSet.keys m) \/ k = x.
Proof.
  induction m as [|[k0 w0] m IH]; simpl.
  - intuition congruence.
  - destruct (T_eqb k0 x) eqn:E; simpl.
    + apply T_eqb_eq in E. subst k0. intuition congruence.
    + rewrite IH. tauto.
Qed.

Lemma has_key_In x (m : WeightedSet.Container T) :
  WeightedSet.has_key T_eqb x m = true <-> In x (WeightedSet.keys m).
Proof.
  unfold WeightedSet.has_key. rewrite existsb_exists. split.
  - intros (k & Hin & E). apply T_eqb_eq in E. now subst.
  - intros Hin. exists x. split; [exact Hin | now apply T_eqb_eq].
Qed.

End AddKeys.

Lemma compose_inner_keys (this : SpinOperator.t) t0 res k :
  In k (WeightedSet.keys
          (fold_left
             (fun res u =>
                SpinOperator.add (snd u * snd t0)%Q
                  (SpinValue.mul (fst u) (fst t0)) res)
             this res))
  <-> In k (WeightedSet.keys res)
      \/ exists u, In u (WeightedSet.keys this)
                   /\ k = SpinValue.mul u (fst t0).
Proof.
  revert res. induction this as [|[u0 w0] this IH]; intros res; simpl.
  - split; [tauto | intros [H | (u & [] & _)]; exact H].
  - rewrite IH. unfold SpinOperator.add.
    rewrite (add_keys _ _ SpinValue_eqb_eq). split.
    + intros [[H | H] | (u & Hu & H)]; eauto.
    + intros [H | (u & [Hu | Hu] & H)]; subst; eauto.
Qed.

(** The outcomes of a composed operator are the compositions of an outcome
    of [this] with an outcome of [sop], whatever the order of iteration. *)
Lemma compose_keys (this sop : SpinOperator.t) k :
  In k (WeightedSet.keys (SpinOperator.compose this sop))
  <-> exists u t0, In u (WeightedSet.keys this)
                   /\ In t0 (WeightedSet.keys sop)
                   /\ k = SpinValue.mul u t0.
Proof.
  unfold SpinOperator.compose.
  assert (G : forall res,
    In k (WeightedSet.keys
            (fold_left
               (fun res t0 =>
                  fold_left
                    (fun res u =>
                       SpinOperator.add (snd u * snd t0)%Q
                         (SpinValue.mul (fst u) (fst t0)) res)
                    this res)
               sop res))
    <-> In k (WeightedSet.keys res)
        \/ exists u t0, In u (WeightedSet.keys this)
                        /\ In t0 (WeightedSet.keys sop)
                        /\ k = SpinValue.mul u t0).
  { induction sop as [|[t1 w1] sop IH]; intros res; cbn [fold_left].
    - split; [tauto | intros [H | (u & t0 & _ & [] & _)]; exact H].
    - rewrite IH, compose_inner_keys. simpl. split.
      + intros [[H | (u & Hu & H)] | (u & t0 & Hu & Ht & H)]; eauto 8.
      + intros [H | (u & t0 & Hu & [Ht | Ht] & H)]; subst; eauto 8. }
  rewrite G. simpl. tauto.
Qed.

(** Composition of outcome values is associative except when the left
    operand is a whammy and the other two are not. *)
Lemma mul_assoc_unless_leading_whammy a b c :
  SpinValue.wf a -> SpinValue.wf b -> SpinValue.wf c ->
  ~ (SpinValue.whammy a = true /\ SpinValue.whammy b = false
     /\ SpinValue.whammy c = false) ->
  SpinValue.mul a (SpinValue.mul b c) = SpinValue.mul (SpinValue.mul a b) c.
Proof.
  intros Wa Wb Wc Hex.
  destruct (SpinValue.whammy c) eqn:Ec.
  { now rewrite !(mul_whammy_second _ c Ec). }
  destruct (SpinValue.whammy b) eqn:Eb.
  { rewrite (mul_whammy_second a b Eb).
    rewrite (mul_whammy_first b c Ec Eb).
    now rewrite mul_whammy_second by reflexivity. }
  destruct (SpinValue.whammy a) eqn:Ea; [exfalso; apply Hex; auto|].
  pose proof Wa as (Sa & _). pose proof Wb as (Sb & _). pose proof Wc as (Sc & _).
  apply whammy_false in Ea, Eb, Ec.
  unfold in_bits in *. change (2 ^ 16) with 65536 in *.
  rewrite (mul_no_whammy b c Wb Wc) by (apply whammy_false; assumption).
  rewrite (mul_no_whammy a b Wa Wb) by (apply whammy_false; assumption).
  unfold SpinValue.mul, SpinValue.whammy, SpinValue.MaxScore.
  cbn [SpinValue.score SpinValue.earned SpinValue.taken].
  destruct (Z.eqb_spec (Z.min 20000 (SpinValue.score b + SpinValue.score c)) 0);
    [lia|].
  destruct (Z.eqb_spec (SpinValue.score a) 0); [lia|].
  destruct (Z.eqb_spec (SpinValue.score c) 0); [lia|].
  destruct (Z.eqb_spec (Z.min 20000 (SpinValue.score a + SpinValue.score b)) 0);
    [lia|].
  unfold SpinValue.SpinValue4, SpinValue.MaxScore, bits. f_equal.
  - f_equal. lia.
  - rewrite Z.add_mod_idemp_r, Z.add_mod_idemp_l by (change (2 ^ 8) with 256; lia).
    f_equal. lia.
  - rewrite Z.add_mod_idemp_r, Z.add_mod_idemp_l by (change (2 ^ 8) with 256; lia).
    f_equal. lia.
Qed.

(** C1: composition is not associative.  With the three outcomes of the
    [SpinTest] board (whammy, 1000 plus a spin, 2000) the two groupings
    give different outcome values, and the operator composed as
    [A (A A)] has an outcome that [(A A) A] does not have. *)
Theorem SpinOperator_compose_not_associative :
  let W := SpinValue.SpinValue3 0 0 1 in
  let B := SpinValue.SpinValue3 1000 1 1 in
  let C := SpinValue.SpinValue3 2000 0 1 in
  let A := SpinOperator.SpinTest in
  WeightedSet.keys A = [W; B; C] /\
  SpinValue.mul W (SpinValue.mul B C) = SpinValue.mk 0 1 3 /\
  SpinValue.mul (SpinValue.mul W B) C = SpinValue.mk 0 0 2 /\
  In (SpinValue.mk 0 1 3)
     (WeightedSet.keys (SpinOperator.compose A (SpinOperator.compose A A))) /\
  ~ In (SpinValue.mk 0 1 3)
       (WeightedSet.keys (SpinOperator.compose (SpinOperator.compose A A) A)).
Proof.
  intros W B C A.
  split; [reflexivity|]. split; [reflexivity|]. split; [reflexivity|].
  rewrite <- !(has_key_In _ _ SpinValue_eqb_eq).
  split; [vm_compute; reflexivity | vm_compute; discriminate].
Qed.

(** ** Player: taking spins *)

Ltac field_ranges :=
  unfold Player.wf, in_bits in *;
  change (2 ^ 16) with 65536 in *; change (2 ^ 4) with 16 in *;
  change (2 ^ 2) with 4 in *.

Lemma bits4_small x : 0 <= x < 16 -> bits 4 x = x.
Proof. intros H. apply bits_small. unfold in_bits. change (2 ^ 4) with 16. lia. Qed.

Lemma spins_sum p : Player.wf p -> Player.spins p = Player.earned p + Player.passed p.
Proof.
  intros W. field_ranges. unfold Player.spins.
  apply u32_small. unfold UINT_MOD. change (2 ^ 32) with 4294967296. lia.
Qed.

(** C10: for a player [p] and a [count] with [count <= passed + earned],
    [take_spins] lowers [spins ()] by exactly [count]; it takes from the
    passed turns first and from the earned turns only what is left of
    [count]; both fields hold the exact differences, so neither [passed]
    nor [earned] wraps, and the other fields are as before. *)
Theorem take_spins_exact (p : Player.t) (count : Z) :
  Player.wf p ->
  0 <= count < UINT_MOD ->
  count <= Player.passed p + Player.earned p ->
  let p' := Player.take_spins p count in
  Player.spins p' = Player.spins p - count /\
  Player.passed p' = Player.passed p - Z.min count (Player.passed p) /\
  Player.earned p'
  = Player.earned p - (count - Z.min count (Player.passed p)) /\
  0 <= Player.passed p - Z.min count (Player.passed p) /\
  0 <= Player.earned p - (count - Z.min count (Player.passed p)) /\
  Player.score p' = Player.score p /\
  Player.whammies p' = Player.whammies p /\
  Player.up p' = Player.up p /\
  Player.reserved p' = Player.reserved p /\
  Player.wf p'.
Proof.
  intros W Hc Hle p'.
  assert (Hfields :
    Player.passed p' = Player.passed p - Z.min count (Player.passed p) /\
    Player.earned p'
    = Player.earned p - (count - Z.min count (Player.passed p)) /\
    Player.score p' = Player.score p /\
    Player.whammies p' = Player.whammies p /\
    Player.up p' = Player.up p /\
    Player.reserved p' = Player.reserved p).
  { subst p'. unfold Player.take_spins. pose proof W as W'.
    field_ranges. unfold UINT_MOD in Hc. change (2 ^ 32) with 4294967296 in Hc.
    destruct (Z.eqb_spec (Player.passed p) count) as [E | NE].
    - cbn. repeat split; lia.
    - rewrite Z.gtb_ltb.
      destruct (Z.ltb_spec count (Player.passed p)) as [L | G].
      + cbn. rewrite u32_small, bits4_small
          by (unfold UINT_MOD; change (2 ^ 32) with 4294967296; lia).
        repeat split; lia.
      + destruct (Z.ltb_spec (Player.passed p) count) as [L' | G']; [|lia].
        cbn. rewrite (u32_small (count - Player.passed p))
          by (unfold UINT_MOD; change (2 ^ 32) with 4294967296; lia).
        rewrite u32_small, bits4_small
          by (unfold UINT_MOD; change (2 ^ 32) with 4294967296; lia).
        repeat split; lia. }
  destruct Hfields as (Hp & He & Hs & Hw & Hu & Hr).
  assert (W' : Player.wf p').
  { pose proof W as W0. field_ranges. rewrite Hp, He, Hs, Hw, Hu, Hr. lia. }
  split.
  - rewrite (spins_sum p' W'), (spins_sum p W), Hp, He. lia.
  - pose proof W as W0. field_ranges. repeat split; try assumption; lia.
Qed.

Lemma take_spins_exact_witness :
  let p := Player.mk 3000 2 3 1 0 0 in
  Player.wf p /\ 0 <= 4 < UINT_MOD /\ 4 <= Player.passed p + Player.earned p /\
  Player.passed (Player.take_spins p 4) = 0 /\
  Player.earned (Player.take_spins p 4) = 1 /\
  Player.spins (Player.take_spins p 4) = 1.
Proof.
  intros p.
  assert (W : Player.wf p) by (unfold Player.wf, in_bits; simpl; lia).
  assert (C : 0 <= 4 < UINT_MOD) by (unfold UINT_MOD; simpl; lia).
  assert (L : 4 <= Player.passed p + Player.earned p) by (simpl; lia).
  destruct (take_spins_exact p 4 W C L) as (Hs & Hp & He & _).
  repeat split; solve [assumption | apply W | simpl; lia
                       | exact Hs | exact Hp | exact He].
Defined.

(** ** Equality and hashing *)

Lemma Player_eqb_hash p0 p1 :
  Player.eqb p0 p1 = true <-> Player.hash p0 = Player.hash p1.
Proof. unfold Player.eqb. apply Z.eqb_eq. Qed.

Lemma State_eqb_players ds0 ds1 :
  State.eqb ds0 ds1 = true <->
  Player.hash (State.player ds0 0) = Player.hash (State.player ds1 0) /\
  Player.hash (State.player ds0 1) = Player.hash (State.player ds1 1) /\
  Player.hash (State.player ds0 2) = Player.hash (State.player ds1 2).
Proof.
  unfold State.eqb. cbn [forallb].
  rewrite !andb_true_iff, !Player_eqb_hash. tauto.
Qed.

(** The word of a player is the sum of its fields at their offsets, so
    players with fields within their widths are equal exactly when their
    words are. *)
Lemma lor_shiftl_add a b n :
  0 <= n -> 0 <= a < 2 ^ n -> Z.lor a (Z.shiftl b n) = a + b * 2 ^ n.
Proof.
  intros Hn Ha.
  assert (L : Z.land a (Z.shiftl b n) = 0).
  { apply Z.bits_inj'. intros i Hi. rewrite Z.land_spec, Z.bits_0.
    destruct (Z.lt_ge_cases i n) as [Lt | Ge].
    - rewrite Z.shiftl_spec_low by exact Lt. apply andb_false_r.
    - destruct (Z.eq_dec a 0) as [-> | Na].
      + now rewrite Z.bits_0.
      + rewrite (Z.bits_above_log2 a i); [reflexivity | lia |].
        apply Z.log2_lt_pow2; [lia|].
        apply Z.lt_le_trans with (2 ^ n); [lia|].
        apply Z.pow_le_mono_r; lia. }
  rewrite <- Z.lxor_lor by exact L.
  rewrite <- Z.add_nocarry_lxor by exact L.
  now rewrite Z.shiftl_mul_pow2.
Qed.

Lemma lor_mul_add a c n :
  0 <= n -> 0 <= a < 2 ^ n -> Z.lor a (c * 2 ^ n) = a + c * 2 ^ n.
Proof.
  intros Hn Ha. rewrite <- (Z.shiftl_mul_pow2 c n) by exact Hn.
  rewrite lor_shiftl_add by assumption. now rewrite Z.shiftl_mul_pow2.
Qed.

Lemma Player_hash_sum p :
  Player.wf p ->
  Player.hash p
  = Player.score p + 65536 * Player.earned p + 1048576 * Player.passed p
    + 16777216 * Player.whammies p + 268435456 * Player.up p
    + 1073741824 * Player.reserved p.
Proof.
  intros W. unfold Player.hash. field_ranges.
  destruct p as [s e pa w u r].
  cbn [Player.score Player.earned Player.passed Player.whammies Player.up
       Player.reserved] in *.
  rewrite !Z.shiftl_mul_pow2 by lia.
  change (2 ^ 16) with 65536. change (2 ^ 20) with 1048576.
  change (2 ^ 24) with 16777216. change (2 ^ 28) with 268435456.
  change (2 ^ 30) with 1073741824.
  pose proof (lor_mul_add (u * 268435456) r 30) as H5.
  change (2 ^ 30) with 1073741824 in H5. rewrite H5 by lia. clear H5.
  pose proof (lor_mul_add (w * 16777216) (u + 4 * r) 28) as H4.
  change (2 ^ 28) with 268435456 in H4.
  replace (u * 268435456 + r * 1073741824) with ((u + 4 * r) * 268435456) by lia.
  rewrite H4 by lia. clear H4.
  pose proof (lor_mul_add (pa * 1048576) (w + 16 * (u + 4 * r)) 24) as H3.
  change (2 ^ 24) with 16777216 in H3.
  replace (w * 16777216 + (u + 4 * r) * 268435456)
    with ((w + 16 * (u + 4 * r)) * 16777216) by lia.
  rewrite H3 by lia. clear H3.
  pose proof (lor_mul_add (e * 65536) (pa + 16 * (w + 16 * (u + 4 * r))) 20) as H2.
  change (2 ^ 20) with 1048576 in H2.
  replace (pa * 1048576 + (w + 16 * (u + 4 * r)) * 16777216)
    with ((pa + 16 * (w + 16 * (u + 4 * r))) * 1048576) by lia.
  rewrite H2 by lia. clear H2.
  pose proof (lor_mul_add s (e + 16 * (pa + 16 * (w + 16 * (u + 4 * r)))) 16) as H1.
  change (2 ^ 16) with 65536 in H1.
  replace (e * 65536 + (pa + 16 * (w + 16 * (u + 4 * r))) * 1048576)
    with ((e + 16 * (pa + 16 * (w + 16 * (u + 4 * r)))) * 65536) by lia.
  rewrite H1 by lia. lia.
Qed.

Lemma Player_eqb_eq p q :
  Player.wf p -> Player.wf q -> (Player.eqb p q = true <-> p = q).
Proof.
  intros Wp Wq. rewrite Player_eqb_hash. split; [|now intros ->].
  rewrite (Player_hash_sum p Wp), (Player_hash_sum q Wq).
  destruct p as [s e pa w u r], q as [s' e' pa' w' u' r'].
  field_ranges.
  cbn [Player.score Player.earned Player.passed Player.whammies Player.up
       Player.reserved] in *.
  intros H.
  assert (r = r') by lia. subst r'.
  assert (u = u') by lia. subst u'.
  assert (w = w') by lia. subst w'.
  assert (pa = pa') by lia. subst pa'.
  assert (e = e') by lia. subst e'.
  assert (s = s') by lia. subst s'.
  reflexivity.
Qed.

Lemma State_eqb_eq s1 s2 :
  State.wf s1 -> State.wf s2 -> (State.eqb s1 s2 = true <-> s1 = s2).
Proof.
  intros (A0 & A1 & A2 & _) (B0 & B1 & B2 & _).
  rewrite State_eqb_players, <- !Player_eqb_hash.
  destruct s1 as [a0 a1 a2], s2 as [b0 b1 b2].
  change (State.player (State.mk ?a ?b ?c) 0) with a.
  change (State.player (State.mk ?a ?b ?c) 1) with b.
  change (State.player (State.mk ?a ?b ?c) 2) with c.
  cbn in A0, A1, A2, B0, B1, B2.
  rewrite (Player_eqb_eq _ _ A0 B0), (Player_eqb_eq _ _ A1 B1),
    (Player_eqb_eq _ _ A2 B2).
  split; [intros (-> & -> & ->); reflexivity | intros H; injection H; auto].
Qed.

(** C9: equal states have equal hashes, and equal players have equal
    [hash ()] values, for any [std::hash<unsigned int>]. *)
Theorem State_eqb_hash_compat (std_hash : Z -> Z) (s1 s2 : State.t)
    (p0 p1 : Player.t) :
  (State.eqb s1 s2 = true -> State.hash std_hash s1 = State.hash std_hash s2) /\
  (Player.eqb p0 p1 = true -> Player.hash p0 = Player.hash p1).
Proof.
  split.
  - intros H. apply State_eqb_players in H. destruct H as (H0 & H1 & H2).
    unfold State.hash. now rewrite H0, H1, H2.
  - apply Player_eqb_hash.
Qed.

Lemma State_eqb_hash_compat_witness :
  let s :=
    State.mk (Player.mk 0 0 0 0 1 0) (Player.mk 8000 3 0 0 0 0)
             (Player.mk 3000 0 0 0 0 0) in
  State.eqb s s = true /\
  State.hash (fun x => x) s = State.hash (fun x => x) s /\
  Player.hash (State.players1 s) = Player.hash (State.players1 s).
Proof.
  intros s.
  destruct (State_eqb_hash_compat (fun x => x) s s
              (State.players1 s) (State.players1 s)) as [Hs Hp].
  split; [reflexivity|]. split; [apply Hs | apply Hp]; reflexivity.
Defined.

(** ** Passing *)

(** C5, the claim as it stands, fails where the 4-bit [passed] field of the
    receiving player is too small for the sum: 10 passed turns and 10 more
    are stored as 4. *)
Lemma pass_transfer_passed_wraps :
  let s :=
    State.mk (Player.mk 1000 10 0 0 0 0) (Player.mk 5000 0 10 0 0 0)
             (Player.mk 2000 0 0 0 0 0) in
  State.wf s /\ State.up_num s = 0 /\ State.passee_num s = 1 /\
  Player.earned (State.up s) = 10 /\
  Player.passed (State.player s 1) = 10 /\
  Player.passed (State.player (State.pass_transfer s) 1) = 4 /\
  Player.passed (State.player (State.pass_transfer s) 1)
  <> Player.passed (State.player s 1) + Player.earned (State.up s).
Proof.
  cbv zeta. unfold State.wf, Player.wf, in_bits, State.num_players.
  vm_compute. repeat split; discriminate.
Qed.

Lemma opponent_num_cases s :
  State.wf s ->
  (State.up_num s = 0 /\ State.opponent_num s 0 = 1 /\ State.opponent_num s 1 = 2)
  \/ (State.up_num s = 1 /\ State.opponent_num s 0 = 2 /\ State.opponent_num s 1 = 0)
  \/ (State.up_num s = 2 /\ State.opponent_num s 0 = 0 /\ State.opponent_num s 1 = 1).
Proof.
  intros (W0 & _ & _ & Hup). unfold State.opponent_num.
  destruct W0 as (_ & _ & _ & _ & Hu & _). unfold in_bits in Hu.
  unfold State.num_players in *.
  assert (C : State.up_num s = 0 \/ State.up_num s = 1 \/ State.up_num s = 2)
    by (unfold State.up_num in *; lia).
  destruct C as [E | [E | E]]; rewrite E; vm_compute; tauto.
Qed.

Lemma wf_player s k : State.wf s -> Player.wf (State.player s k).
Proof.
  intros (W0 & W1 & W2 & _). unfold State.player.
  destruct (k =? 0); [assumption|]. destruct (k =? 1); assumption.
Qed.

Lemma player_set_player_same s i p :
  0 <= i < 3 -> State.player (State.set_player s i p) i = p.
Proof.
  intros R. assert (C : i = 0 \/ i = 1 \/ i = 2) by lia.
  destruct C as [-> | [-> | ->]]; reflexivity.
Qed.

Lemma player_set_player_other s i k p :
  0 <= i < 3 -> 0 <= k < 3 -> k <> i ->
  State.player (State.set_player s i p) k = State.player s k.
Proof.
  intros R R' N.
  assert (C : i = 0 \/ i = 1 \/ i = 2) by lia.
  assert (C' : k = 0 \/ k = 1 \/ k = 2) by lia.
  destruct C as [-> | [-> | ->]], C' as [-> | [-> | ->]];
    solve [reflexivity | lia].
Qed.

Lemma up_num_set_player s i p :
  Player.up p = Player.up (State.player s i) ->
  State.up_num (State.set_player s i p) = State.up_num s.
Proof.
  unfold State.up_num, State.set_player, State.player.
  destruct (i =? 0); [intros H; exact H|].
  destruct (i =? 1); reflexivity.
Qed.

(** C5 (amended): for every state (fields within their widths, turn index
    below 3) the transfer of the pass operator, before turn control
    advances, hands the earned turns of the player up to the opponent with
    the higher score, the first opponent in turn order on a tie: that
    opponent's passed turns become the old value plus the amount, modulo 16
    (the exact sum when it is below 16); the earned turns of the player up
    become 0; every other field of every player is as before. *)
Theorem pass_transfer_frame (s : State.t) :
  State.wf s ->
  let u := State.up_num s in
  let i := State.passee_num s in
  let s' := State.pass_transfer s in
  let amount := Player.earned (State.player s u) in
  (i = State.opponent_num s 0 \/ i = State.opponent_num s 1) /\
  i <> u /\ 0 <= i < 3 /\
  Player.score (State.player s i)
  = Z.max (Player.score (State.opponent s 0)) (Player.score (State.opponent s 1)) /\
  (Player.score (State.opponent s 0) = Player.score (State.opponent s 1) ->
   i = State.opponent_num s 0) /\
  Player.passed (State.player s' i)
  = (Player.passed (State.player s i) + amount) mod 16 /\
  (Player.passed (State.player s i) + amount < 16 ->
   Player.passed (State.player s' i)
   = Player.passed (State.player s i) + amount) /\
  Player.earned (State.player s' u) = 0 /\
  State.player s' i
  = Player.set_passed (State.player s i)
      (Player.passed (State.player s i) + amount) /\
  State.player s' u = Player.set_earned (State.player s u) 0 /\
  (forall k, 0 <= k < 3 -> k <> i -> k <> u ->
             State.player s' k = State.player s k) /\
  (forall k, Player.score (State.player s' k) = Player.score (State.player s k)
             /\ Player.whammies (State.player s' k)
                = Player.whammies (State.player s k)
             /\ Player.up (State.player s' k) = Player.up (State.player s k)
             /\ Player.reserved (State.player s' k)
                = Player.reserved (State.player s k)) /\
  Player.passed (State.player s' u) = Player.passed (State.player s u) /\
  Player.earned (State.player s' i) = Player.earned (State.player s i).
Proof.
  intros W u i s' amount.
  pose proof (opponent_num_cases s W) as C.
  pose proof (wf_player s i W) as Wi.
  assert (Hmod : forall x, bits 4 x = x mod 16) by reflexivity.
  assert (Hi : i = State.opponent_num s
                     (if Player.score (State.opponent s 0)
                         >=? Player.score (State.opponent s 1) then 0 else 1)).
  { subst i. unfold State.passee_num.
    destruct (_ >=? _); reflexivity. }
  assert (Ru : 0 <= u < 3).
  { subst u. destruct C as [(E & _) | [(E & _) | (E & _)]]; rewrite E; lia. }
  assert (Ri : 0 <= i < 3 /\ i <> u).
  { rewrite Hi. subst u.
    destruct C as [(Eu & E0 & E1) | [(Eu & E0 & E1) | (Eu & E0 & E1)]];
      destruct (_ >=? _); rewrite ?E0, ?E1, Eu; lia. }
  destruct Ri as (Ri & Niu).
  assert (Hfr :
    State.player s' i
    = Player.set_passed (State.player s i)
        (Player.passed (State.player s i) + amount) /\
    State.player s' u = Player.set_earned (State.player s u) 0 /\
    (forall k, 0 <= k < 3 -> k <> i -> k <> u ->
               State.player s' k = State.player s k)).
  { subst s' amount. unfold State.pass_transfer. fold i. unfold State.up.
    rewrite up_num_set_player by reflexivity. fold u.
    rewrite (player_set_player_other _ i u) by (try assumption; congruence).
    split; [|split].
    - rewrite player_set_player_other, player_set_player_same by assumption.
      reflexivity.
    - now rewrite player_set_player_same.
    - intros k Rk Nki Nku.
      now rewrite !player_set_player_other by assumption. }
  destruct Hfr as (Fi & Fu & Fk).
  assert (Hmax :
    Player.score (State.player s i)
    = Z.max (Player.score (State.opponent s 0))
            (Player.score (State.opponent s 1)) /\
    (Player.score (State.opponent s 0) = Player.score (State.opponent s 1) ->
     i = State.opponent_num s 0)).
  { rewrite Hi. fold (State.opponent s
      (if Player.score (State.opponent s 0)
          >=? Player.score (State.opponent s 1) then 0 else 1)).
    rewrite Z.geb_leb.
    destruct (Z.leb_spec (Player.score (State.opponent s 1))
                         (Player.score (State.opponent s 0))); split; lia. }
  destruct Hmax as (Hmax & Htie).
  split. { rewrite Hi. destruct (_ >=? _); tauto. }
  split; [exact Niu|]. split; [exact Ri|]. split; [exact Hmax|].
  split; [exact Htie|].
  split. { rewrite Fi. cbn. apply Hmod. }
  split. { intros Hlt. rewrite Fi. cbn. apply bits4_small.
           pose proof (wf_player s u W) as Wu. field_ranges.
           fold amount in Wu. lia. }
  split. { rewrite Fu. reflexivity. }
  split; [exact Fi|]. split; [exact Fu|]. split; [exact Fk|].
  split.
  - intros k.
    assert (Ek : State.player s' k = State.player s' 0
                 \/ State.player s' k = State.player s' 1
                 \/ State.player s' k = State.player s' 2).
    { unfold State.player. destruct (k =? 0); [tauto|].
      destruct (k =? 1); tauto. }
    assert (Ek' : forall n, State.player s' k = State.player s' n ->
                            0 <= n < 3 ->
                            State.player s k = State.player s n ->
      Player.score (State.player s' k) = Player.score (State.player s k)
      /\ Player.whammies (State.player s' k)
         = Player.whammies (State.player s k)
      /\ Player.up (State.player s' k) = Player.up (State.player s k)
      /\ Player.reserved (State.player s' k)
         = Player.reserved (State.player s k)).
    { intros n En Rn En'. rewrite En, En'.
      destruct (Z.eq_dec n i) as [-> | Ni].
      - rewrite Fi. cbn. tauto.
      - destruct (Z.eq_dec n u) as [-> | Nu].
        + rewrite Fu. cbn. tauto.
        + rewrite (Fk n Rn Ni Nu). tauto. }
    unfold State.player in *.
    destruct (k =? 0); [apply (Ek' 0); [reflexivity | lia | reflexivity]|].
    destruct (k =? 1); [apply (Ek' 1); [reflexivity | lia | reflexivity]|].
    apply (Ek' 2); [reflexivity | lia | reflexivity].
  - split; [rewrite Fu | rewrite Fi]; reflexivity.
Qed.

Lemma pass_transfer_frame_witness :
  let s :=
    State.mk (Player.mk 0 0 0 0 1 0) (Player.mk 8000 3 0 0 0 0)
             (Player.mk 3000 0 2 0 0 0) in
  State.wf s /\
  State.passee_num s = 2 /\
  Player.passed (State.player (State.pass_transfer s) 2) = 5 /\
  Player.earned (State.player (State.pass_transfer s) 1) = 0 /\
  State.player (State.pass_transfer s) 0 = State.player s 0.
Proof.
  intros s.
  assert (W : State.wf s).
  { unfold State.wf, Player.wf, in_bits, State.num_players. cbn. lia. }
  destruct (pass_transfer_frame s W)
    as (_ & _ & _ & _ & _ & _ & Hp & He & _ & _ & Hk & _).
  split; [exact W|]. split; [reflexivity|].
  split; [|split].
  - apply Hp. cbn. lia.
  - exact He.
  - apply Hk; [lia | discriminate | discriminate].
Defined.

(** ** Terminal nodes *)

Ltac break_cmp :=
  repeat match goal with
  | |- context [?a =? ?b] => destruct (Z.eqb_spec a b); try lia
  | |- context [?a <=? ?b] => destruct (Z.leb_spec a b); try lia
  | |- context [?a >? ?b] =>
      rewrite (Z.gtb_ltb a b); destruct (Z.ltb_spec b a); try lia
  end.

(** C3: for a state with at least one player who is not out, the terminal
    payoff gives [1/count] to every player who is not out and whose score
    is the largest among the players who are not out, [count] being the
    number of these players, and 0 to every other player; the
    probabilities sum to 1 and the uncertainty is 0. *)
Theorem TerminalNode_calc_payoff_leaders (state : State.t) (payoff_ : Payoff.t) :
  State.wf state ->
  (exists i, 0 <= i < 3 /\ Player.out (State.player state i) = false) ->
  let payoff := TerminalNode.calc_payoff state payoff_ in
  1 <= TerminalNode.leaders state <= 3 /\
  (forall i, 0 <= i < 3 ->
     Payoff.get payoff i
     = if TerminalNode.leader state i
       then (1 / inject_Z (TerminalNode.leaders state))%Q else 0%Q) /\
  (Payoff.sum payoff == 1)%Q /\
  (Payoff.uncertainty payoff == 0)%Q.
Proof.
  intros W (i & Ri & Hi) payoff. subst payoff.
  destruct state as [[s0 e0 p0 w0 u0 r0] [s1 e1 p1 w1 u1 r1] [s2 e2 p2 w2 u2 r2]].
  unfold State.wf, Player.wf, in_bits in W. cbn in W.
  assert (S0 : 0 <= s0) by lia. assert (S1 : 0 <= s1) by lia.
  assert (S2 : 0 <= s2) by lia. clear W.
  assert (Hout : (w0 >=? Player.MaxWhammies) = false
                 \/ (w1 >=? Player.MaxWhammies) = false
                 \/ (w2 >=? Player.MaxWhammies) = false).
  { assert (Ci : i = 0 \/ i = 1 \/ i = 2) by lia.
    destruct Ci as [-> | [-> | ->]]; cbn in Hi; tauto. }
  clear Hi Ri i.
  match goal with |- context [TerminalNode.calc_payoff ?st _] => set (state := st) end.
  enough (G :
    1 <= TerminalNode.leaders state <= 3 /\
    (Payoff.get (TerminalNode.calc_payoff state payoff_) 0
     = (if TerminalNode.leader state 0
        then (1 / inject_Z (TerminalNode.leaders state))%Q else 0%Q) /\
     Payoff.get (TerminalNode.calc_payoff state payoff_) 1
     = (if TerminalNode.leader state 1
        then (1 / inject_Z (TerminalNode.leaders state))%Q else 0%Q) /\
     Payoff.get (TerminalNode.calc_payoff state payoff_) 2
     = (if TerminalNode.leader state 2
        then (1 / inject_Z (TerminalNode.leaders state))%Q else 0%Q)) /\
    (Payoff.sum (TerminalNode.calc_payoff state payoff_) == 1)%Q /\
    (Payoff.uncertainty (TerminalNode.calc_payoff state payoff_) == 0)%Q).
  { destruct G as (G1 & (G20 & G21 & G22) & G3 & G4).
    repeat split; try assumption; try lia.
    intros i Ri. assert (Ci : i = 0 \/ i = 1 \/ i = 2) by lia.
    destruct Ci as [-> | [-> | ->]]; assumption. }
  subst state.
  unfold TerminalNode.calc_payoff, TerminalNode.leaders, TerminalNode.leader,
    TerminalNode.tally.
  cbn [map fold_left forallb filter].
  change (State.player (State.mk ?a ?b ?c) 0) with a.
  change (State.player (State.mk ?a ?b ?c) 1) with b.
  change (State.player (State.mk ?a ?b ?c) 2) with c.
  unfold Player.out. cbn [Player.whammies Player.score].
  destruct (w0 >=? Player.MaxWhammies), (w1 >=? Player.MaxWhammies),
    (w2 >=? Player.MaxWhammies);
    try (exfalso; clear - Hout; intuition discriminate);
    cbn [negb andb orb]; clear Hout.
  all: break_cmp.
  all: cbn.
  all: (split; [lia|]); (split; [|split; reflexivity]).
  all: repeat split.
Qed.

Lemma TerminalNode_calc_payoff_leaders_witness :
  let state :=
    State.mk (Player.mk 5000 0 0 1 0 0) (Player.mk 5000 0 0 0 0 0)
             (Player.mk 9000 0 0 4 0 0) in
  State.wf state /\
  (exists i, 0 <= i < 3 /\ Player.out (State.player state i) = false) /\
  TerminalNode.leaders state = 2 /\
  Payoff.get (TerminalNode.calc_payoff state Payoff.null) 0 = (1 # 2)%Q /\
  Payoff.get (TerminalNode.calc_payoff state Payoff.null) 2 = 0%Q /\
  (Payoff.uncertainty (TerminalNode.calc_payoff state Payoff.null) == 0)%Q.
Proof.
  intros state.
  assert (W : State.wf state).
  { unfold State.wf, Player.wf, in_bits, State.num_players. cbn. lia. }
  assert (E : exists i, 0 <= i < 3 /\ Player.out (State.player state i) = false).
  { exists 0. split; [lia | reflexivity]. }
  destruct (TerminalNode_calc_payoff_leaders state Payoff.null W E)
    as (_ & Hget & _ & Hunc).
  split; [exact W|]. split; [exact E|]. split; [reflexivity|].
  split; [|split].
  - rewrite (Hget 0) by lia. reflexivity.
  - rewrite (Hget 2) by lia. reflexivity.
  - exact Hunc.
Defined.

(** The same sums in the arithmetic of the source: whichever of the three
    players lead, their shares [1.0/count], stored as [float] and added up
    in [float], give exactly 1, and the uncertainty is exactly 0. *)
Lemma terminal_shares_binary32 (l0 l1 l2 : bool) :
  l0 || l1 || l2 = true ->
  let count := Z.of_nat (length (filter (fun b => b) [l0; l1; l2])) in
  let prob := map (Float32.share count) [l0; l1; l2] in
  Float32.accumulate prob = SFone 24 128 /\
  Float32.uncertainty prob = S754_zero false.
Proof.
  destruct l0, l1, l2; try discriminate; intros _; vm_compute; split; reflexivity.
Qed.

(** ** Decision nodes *)

Lemma Payoff_gt_lt a b : Payoff.gt a b = true <-> (b < a)%Q.
Proof.
  unfold Payoff.gt. rewrite (Qgt_alt a b).
  destruct (a ?= b)%Q; split; congruence.
Qed.

Lemma Payoff_gt_false a b : Payoff.gt a b = false <-> (a <= b)%Q.
Proof.
  rewrite <- Bool.not_true_iff_false, Payoff_gt_lt. split.
  - apply Qnot_lt_le.
  - apply Qle_not_lt.
Qed.

Lemma Payoff_min_spec a b :
  (Payoff.min a b <= a)%Q /\ (Payoff.min a b <= b)%Q /\
  (Payoff.min a b = a \/ Payoff.min a b = b).
Proof.
  unfold Payoff.min. destruct (Payoff.gt a b) eqn:E.
  - apply Payoff_gt_lt in E. repeat split;
      [apply Qlt_le_weak, E | apply Qle_refl | now right].
  - apply Payoff_gt_false in E. repeat split;
      [apply Qle_refl | exact E | now left].
Qed.

Lemma merge_get first second n :
  0 <= n < 3 ->
  Payoff.get (DecideNode.merge first second) n
  = Payoff.min (Payoff.get first n) (Payoff.get second n).
Proof.
  intros R. assert (C : n = 0 \/ n = 1 \/ n = 2) by lia.
  destruct C as [-> | [-> | ->]]; reflexivity.
Qed.

(** C4: with one branch only the payoff of a decision node is the payoff
    of that branch; with both branches the branch whose win probability for
    the player up is strictly higher hands on its whole payoff; when these
    two probabilities are equal the payoff is, for each player, the smaller
    of the two branch probabilities; without branches it is all zeros. *)
Theorem DecideNode_calc_payoff_cases (state : State.t)
    (play pass payoff_ : Payoff.t) :
  let up := State.up_num state in
  DecideNode.calc_payoff state (Some play) None payoff_ = play /\
  DecideNode.calc_payoff state None (Some pass) payoff_ = pass /\
  DecideNode.calc_payoff state None None payoff_ = Payoff.mk 0 0 0 /\
  ((Payoff.get pass up < Payoff.get play up)%Q ->
   DecideNode.calc_payoff state (Some play) (Some pass) payoff_ = play) /\
  ((Payoff.get play up < Payoff.get pass up)%Q ->
   DecideNode.calc_payoff state (Some play) (Some pass) payoff_ = pass) /\
  ((Payoff.get play up == Payoff.get pass up)%Q ->
   forall n, 0 <= n < 3 ->
     let m :=
       Payoff.get (DecideNode.calc_payoff state (Some play) (Some pass) payoff_) n
     in
     (m <= Payoff.get play n)%Q /\ (m <= Payoff.get pass n)%Q /\
     (m = Payoff.get play n \/ m = Payoff.get pass n)).
Proof.
  intros up.
  split; [reflexivity|]. split; [reflexivity|]. split; [reflexivity|].
  unfold DecideNode.calc_payoff. fold up.
  split; [|split].
  - intros H. apply Payoff_gt_lt in H. now rewrite H.
  - intros H. pose proof (Qlt_le_weak _ _ H) as H'.
    apply Payoff_gt_false in H'. apply Payoff_gt_lt in H. now rewrite H', H.
  - intros H n R. cbv zeta.
    assert (H1 : Payoff.gt (Payoff.get play up) (Payoff.get pass up) = false).
    { apply Payoff_gt_false. rewrite H. apply Qle_refl. }
    assert (H2 : Payoff.gt (Payoff.get pass up) (Payoff.get play up) = false).
    { apply Payoff_gt_false. rewrite H. apply Qle_refl. }
    rewrite H1, H2, merge_get by exact R.
    destruct (Payoff_min_spec (Payoff.get pass n) (Payoff.get play n))
      as (A & B & C).
    tauto.
Qed.

Lemma DecideNode_calc_payoff_cases_witness :
  let state :=
    State.mk (Player.mk 0 0 0 0 1 0) (Player.mk 8000 3 0 0 0 0)
             (Player.mk 3000 0 0 0 0 0) in
  let play := Payoff.mk (1 # 10) (6 # 10) (1 # 10) in
  let pass := Payoff.mk (2 # 10) (5 # 10) (0 # 10) in
  let tied := Payoff.mk (3 # 10) (6 # 10) (0 # 10) in
  DecideNode.calc_payoff state (Some play) (Some pass) Payoff.null = play /\
  DecideNode.calc_payoff state (Some pass) (Some play) Payoff.null = play /\
  (Payoff.get
     (DecideNode.calc_payoff state (Some play) (Some tied) Payoff.null) 0
   <= 1 # 10)%Q.
Proof.
  intros state play pass tied.
  split; [|split].
  - apply (DecideNode_calc_payoff_cases state play pass Payoff.null).
    reflexivity.
  - apply (DecideNode_calc_payoff_cases state pass play Payoff.null).
    reflexivity.
  - apply (DecideNode_calc_payoff_cases state play tied Payoff.null);
      [reflexivity | lia].
Defined.

Lemma passee_score s :
  Player.score (State.passee s)
  = Z.max (Player.score (State.opponent s 0)) (Player.score (State.opponent s 1)).
Proof.
  unfold State.passee, State.passee_num. rewrite Z.geb_leb.
  destruct (Z.leb_spec (Player.score (State.opponent s 1))
                       (Player.score (State.opponent s 0)));
    fold (State.opponent s 0); fold (State.opponent s 1); lia.
Qed.

(** C8: when a decision node creates its branches, the play branch stays
    null exactly when [max_lead] is not 0 and the score of the player up
    exceeds the higher of the two opponents' scores by more than
    [max_lead]; the pass branch stays null exactly when
    [always_spin_third_place] is set and the score of the player up is
    strictly below both opponents' scores; a branch that does not stay null
    is created: the spin node of the state, and the node of the state after
    passing. *)
Theorem DecideNode_materialize_branches (options : SearchOptions)
    (state : State.t) :
  let if_play := fst (DecideNode.materialize options state None None) in
  let if_pass := snd (DecideNode.materialize options state None None) in
  let up := Player.score (State.up state) in
  let opp0 := Player.score (State.opponent state 0) in
  let opp1 := Player.score (State.opponent state 1) in
  (if_play = None <->
   max_lead options <> 0 /\ up - Z.max opp0 opp1 > max_lead options) /\
  (if_pass = None <->
   always_spin_third_place options = true /\ up < opp0 /\ up < opp1) /\
  (if_play <> None -> if_play = Some (Spin, state)) /\
  (if_pass <> None -> if_pass = Some (create_node (State.pass state))).
Proof.
  intros if_play if_pass up opp0 opp1.
  subst if_play if_pass. unfold DecideNode.materialize.
  cbn [fst snd]. unfold State.lead, State.third_place.
  rewrite passee_score. fold up opp0 opp1. unfold create_spin_node.
  repeat split.
  - destruct (Z.eqb_spec (max_lead options) 0); cbn [negb andb] in *;
      [discriminate | assumption].
  - revert H. destruct (Z.eqb_spec (max_lead options) 0); cbn [negb andb];
      [discriminate|].
    rewrite Z.gtb_ltb. destruct (Z.ltb_spec (max_lead options)
                                   (up - Z.max opp0 opp1)); [lia | discriminate].
  - intros (N & G). destruct (Z.eqb_spec (max_lead options) 0); [lia|].
    cbn [negb andb]. rewrite Z.gtb_ltb.
    destruct (Z.ltb_spec (max_lead options) (up - Z.max opp0 opp1));
      [reflexivity | lia].
  - revert H. destruct (always_spin_third_place options);
      [reflexivity | discriminate].
  - revert H. destruct (always_spin_third_place options); cbn [andb];
      [|discriminate].
    destruct (Z.ltb_spec up opp0); [lia | discriminate].
  - revert H. destruct (always_spin_third_place options); cbn [andb];
      [|discriminate].
    destruct (Z.ltb_spec up opp0); cbn [andb]; [|discriminate].
    destruct (Z.ltb_spec up opp1); [lia | discriminate].
  - intros (A & L0 & L1). rewrite A. cbn [andb].
    destruct (Z.ltb_spec up opp0); [|lia]. cbn [andb].
    destruct (Z.ltb_spec up opp1); [reflexivity | lia].
  - destruct (_ && _); [congruence | reflexivity].
  - destruct (_ && _); [congruence | reflexivity].
Qed.

(** ** The search: uncertainty of the root payoff from round to round *)

(** C6, the claim as it stands, fails.  On [tie_board] and [tie_state],
    with the default options, [run] makes two rounds: the root payoff is
    (1/16, 3/8, 3/8) after the first (depth 4) and (13/64, 0, 3/8) after
    the second (depth 12), in which both branches are fully resolved and
    tie for the player up; the uncertainty rises from 3/16 to 27/64.  The
    result is the same when the outcomes of a spin are visited in the
    opposite order. *)
Lemma run_uncertainty_increases :
  (WeightedSet.weight tie_board == 1)%Q /\
  rounds 64 (new_Search tie_board default_options (fun t => t)) tie_state
  = Some [(Payoff.mk (1 # 16) (3 # 8) (3 # 8), 3 # 16);
          (Payoff.mk (13 # 64) 0 (3 # 8), 27 # 64)] /\
  rounds 64 (new_Search tie_board default_options (@rev _)) tie_state
  = Some [(Payoff.mk (1 # 16) (3 # 8) (3 # 8), 3 # 16);
          (Payoff.mk (13 # 64) 0 (3 # 8), 27 # 64)] /\
  ~ (27 # 64 <= 3 # 16)%Q.
Proof.
  split; [reflexivity|].
  split; [vm_compute; reflexivity|].
  split; [vm_compute; reflexivity|].
  intros H. apply H. reflexivity.
Qed.

(** Where the rise comes from: after the second round the play branch
    holds (5/8, 0, 3/8) and the pass branch (13/64, 27/64, 3/8), both without
    uncertainty; the player up (index 2) wins with 3/8 either way, and the
    decision node keeps the smaller probability for each player. *)
Lemma tie_branches :
  let play := Payoff.mk (5 # 8) 0 (3 # 8) in
  let pass := Payoff.mk (13 # 64) (27 # 64) (3 # 8) in
  root_branches 64 (new_Search tie_board default_options (fun t => t)) tie_state
  = Some (Some play, Some pass) /\
  (Payoff.uncertainty play == 0)%Q /\ (Payoff.uncertainty pass == 0)%Q /\
  DecideNode.calc_payoff (State.change_player tie_state) (Some play) (Some pass)
    Payoff.null
  = Payoff.mk (13 # 64) 0 (3 # 8).
Proof.
  cbv zeta. split; [vm_compute; reflexivity|].
  split; [reflexivity|]. split; reflexivity.
Qed.

(** *** The cache as a map *)

Lemma State_eqb_refl a : State.eqb a a = true.
Proof. apply State_eqb_players. repeat split. Qed.

Lemma State_eqb_sym a b : State.eqb a b = State.eqb b a.
Proof.
  apply Bool.eq_true_iff_eq. rewrite !State_eqb_players.
  intuition congruence.
Qed.

Lemma State_eqb_trans a b c :
  State.eqb a b = true -> State.eqb b c = true -> State.eqb a c = true.
Proof. rewrite !State_eqb_players. intuition congruence. Qed.

Lemma table_find_eqb a b m :
  State.eqb a b = true ->
  NodeCache.table_find a m = NodeCache.table_find b m.
Proof.
  intros E. induction m as [|[k n] m IH]; [reflexivity|]. simpl.
  assert (Ek : State.eqb k a = State.eqb k b).
  { apply Bool.eq_true_iff_eq. split; intros H.
    - eapply State_eqb_trans; eassumption.
    - eapply State_eqb_trans; [eassumption|]. now rewrite State_eqb_sym. }
  rewrite Ek, IH. reflexivity.
Qed.

Lemma table_find_set a b n m :
  NodeCache.table_find b (NodeCache.table_set a n m)
  = if State.eqb a b then Some n else NodeCache.table_find b m.
Proof.
  induction m as [|[k n0] m IH]; simpl.
  - reflexivity.
  - destruct (State.eqb k a) eqn:Eka; simpl.
    + destruct (State.eqb k b) eqn:Ekb.
      * assert (Eab : State.eqb a b = true).
        { eapply State_eqb_trans; [|exact Ekb]. now rewrite State_eqb_sym. }
        now rewrite Eab.
      * destruct (State.eqb a b) eqn:Eab; [|reflexivity].
        assert (State.eqb k b = true)
          by (eapply State_eqb_trans; eassumption).
        congruence.
    + destruct (State.eqb k b) eqn:Ekb.
      * destruct (State.eqb a b) eqn:Eab; [|reflexivity].
        assert (State.eqb k a = true).
        { eapply State_eqb_trans; [exact Ekb|]. now rewrite State_eqb_sym. }
        congruence.
      * exact IH.
Qed.

Lemma find_set r r' n c :
  NodeCache.find r' (NodeCache.set r n c)
  = if same_node r r' then Some n else NodeCache.find r' c.
Proof.
  destruct r as [k s], r' as [k' s'], c as [sp de te fi].
  unfold NodeCache.find, NodeCache.set, same_node.
  destruct k, k'; cbn; try reflexivity; apply table_find_set.
Qed.

Lemma find_same_node r r' c :
  same_node r r' = true -> NodeCache.find r c = NodeCache.find r' c.
Proof.
  destruct r as [k s], r' as [k' s']. unfold same_node, NodeCache.find.
  destruct k, k'; cbn; try discriminate; apply table_find_eqb.
Qed.

Lemma find_apply f r c :
  NodeCache.find r (NodeCache.apply f c)
  = option_map f (NodeCache.find r c).
Proof.
  assert (T : forall ds m,
    NodeCache.table_find ds (map (fun e : State.t * Node => (fst e, f (snd e))) m)
    = option_map f (NodeCache.table_find ds m)).
  { intros ds m. induction m as [|[k n] m IH]; [reflexivity|]. simpl.
    destruct (State.eqb k ds); [reflexivity | exact IH]. }
  destruct r as [k s], c as [sp de te fi]. unfold NodeCache.find, NodeCache.apply.
  destruct k; cbn; apply T.
Qed.

(** *** Computed payoffs are kept *)

Lemma keeps_refl c : keeps c c.
Proof. intros r n H _. exact H. Qed.

Lemma keeps_trans c1 c2 c3 : keeps c1 c2 -> keeps c2 c3 -> keeps c1 c3.
Proof. intros H12 H23 r n F N. apply H23; [apply H12|]; assumption. Qed.

(** Writing the node of [r] keeps what was computed in [c0] when the node
    of [r] had no payoff in [c0]. *)
Lemma keeps_set c0 c r n0 n :
  NodeCache.find r c0 = Some n0 -> Payoff.is_null (payoff_ n0) = true ->
  keeps c0 c -> keeps c0 (NodeCache.set r n c).
Proof.
  intros F0 N0 K r' n' F' N'. rewrite find_set.
  destruct (same_node r r') eqn:E.
  - rewrite (find_same_node _ _ _ E) in F0. congruence.
  - now apply K.
Qed.

Lemma bind_Some {A B} (m : M A) (f : A -> M B) c b c' :
  bind m f c = Some (b, c') ->
  exists a c1, m c = Some (a, c1) /\ f a c1 = Some (b, c').
Proof.
  unfold bind. destruct (m c) as [[a c1]|]; [|discriminate]. eauto.
Qed.

Lemma get_Some r c n c' :
  get r c = Some (n, c') -> NodeCache.find r c = Some n /\ c' = c.
Proof.
  unfold get. destruct (NodeCache.find r c); [|discriminate].
  intros H. injection H as -> ->. auto.
Qed.

Lemma set_payoff_Some r p c u c' :
  set_payoff r p c = Some (u, c') ->
  exists n, NodeCache.find r c = Some n
            /\ c' = NodeCache.set r (set_payoff_ n p) c.
Proof.
  unfold set_payoff. intros H.
  apply bind_Some in H. destruct H as (n & c1 & G & P).
  apply get_Some in G. destruct G as (F & ->).
  unfold put in P. injection P as _ <-. eauto.
Qed.

Lemma keeps_set_payoff c0 c r n0 p u c' :
  NodeCache.find r c0 = Some n0 -> Payoff.is_null (payoff_ n0) = true ->
  keeps c0 c -> set_payoff r p c = Some (u, c') -> keeps c0 c'.
Proof.
  intros F0 N0 K H. apply set_payoff_Some in H. destruct H as (n & _ & ->).
  eapply keeps_set; eassumption.
Qed.

Section CalcPayoffKeeps.

Variable payoff_rec : NodeRef -> M Payoff.t.
Hypothesis payoff_rec_keeps :
  forall r c v c', payoff_rec r c = Some (v, c') -> keeps c c'.

Variables (c0 : NodeCache.t) (r : NodeRef) (n0 : Node).
Hypothesis find_r : NodeCache.find r c0 = Some n0.
Hypothesis null_r : Payoff.is_null (payoff_ n0) = true.

Lemma call_then_set_keeps (child : NodeRef) (g : Payoff.t -> Payoff.t) c u c' :
  keeps c0 c ->
  (p <- payoff_rec child ;; set_payoff r (g p))%search c = Some (u, c') ->
  keeps c0 c'.
Proof.
  intros K H. apply bind_Some in H. destruct H as (p & c1 & P & S).
  eapply keeps_set_payoff; [exact find_r | exact null_r | | exact S].
  eapply keeps_trans; [exact K | eapply payoff_rec_keeps; exact P].
Qed.

Lemma spin_loop_keeps (branches : list (Q * NodeRef)) c u c' :
  keeps c0 c ->
  for_each branches
    (fun branch =>
       p <- payoff_rec (snd branch) ;;
       node <- get r ;;
       set_payoff r (Payoff.plus (payoff_ node) (Payoff.scale p (fst branch))))%search
    c = Some (u, c') ->
  keeps c0 c'.
Proof.
  revert c. induction branches as [|b branches IH]; intros c K H.
  - injection H as _ <-. exact K.
  - cbn [for_each] in H. apply bind_Some in H. destruct H as (u1 & c1 & B & R).
    apply (IH c1); [|exact R].
    apply bind_Some in B. destruct B as (p & c2 & P & B).
    apply bind_Some in B. destruct B as (node & c3 & G & S).
    apply get_Some in G. destruct G as (_ & ->).
    eapply keeps_set_payoff; [exact find_r | exact null_r | | exact S].
    eapply keeps_trans; [exact K | eapply payoff_rec_keeps; exact P].
Qed.

Lemma calc_payoff_keeps u c' :
  SearchNode.calc_payoff payoff_rec r c0 = Some (u, c') -> keeps c0 c'.
Proof.
  unfold SearchNode.calc_payoff. intros H.
  apply bind_Some in H. destruct H as (node & c1 & G & H).
  apply get_Some in G. destruct G as (_ & ->).
  assert (K0 : keeps c0 c0) by apply keeps_refl.
  destruct (body node) as [|if_play if_pass|branches].
  - eapply keeps_set_payoff; eauto.
  - destruct if_play as [if_play|], if_pass as [if_pass|].
    + apply bind_Some in H. destruct H as (p1 & c1 & P1 & H).
      apply bind_Some in H. destruct H as (p2 & c2 & P2 & H).
      assert (K2 : keeps c0 c2).
      { eapply keeps_trans; [eapply payoff_rec_keeps; exact P1|].
        eapply payoff_rec_keeps; exact P2. }
      destruct (Payoff.gt _ _).
      * eapply (call_then_set_keeps _ (fun p => p)); eassumption.
      * destruct (Payoff.gt _ _).
        -- eapply (call_then_set_keeps _ (fun p => p)); eassumption.
        -- apply bind_Some in H. destruct H as (first & c3 & P3 & H).
           eapply (call_then_set_keeps _ (fun p => DecideNode.merge first p));
             [|exact H].
           eapply keeps_trans; [exact K2 | eapply payoff_rec_keeps; exact P3].
    + eapply (call_then_set_keeps _ (fun p => p)); eassumption.
    + eapply (call_then_set_keeps _ (fun p => p)); eassumption.
    + eapply keeps_set_payoff; eauto.
  - apply bind_Some in H. destruct H as (u1 & c1 & S & L).
    eapply spin_loop_keeps; [|exact L].
    eapply keeps_set_payoff; eauto.
Qed.

End CalcPayoffKeeps.

(** [payoff ()] computes payoffs that are missing and never touches a node
    whose payoff is there. *)
Lemma payoff_keeps fuel : forall r c v c',
  SearchNode.payoff fuel r c = Some (v, c') -> keeps c c'.
Proof.
  induction fuel as [|fuel IH]; intros r c v c' H; [discriminate|].
  cbn [SearchNode.payoff] in H.
  apply bind_Some in H. destruct H as (node & c1 & G & H).
  apply get_Some in G. destruct G as (F & ->).
  destruct (Payoff.is_null (payoff_ node)) eqn:N.
  - apply bind_Some in H. destruct H as (u & c1 & C & H).
    apply bind_Some in H. destruct H as (node' & c2 & G & H).
    apply get_Some in G. destruct G as (_ & ->).
    injection H as _ <-.
    eapply calc_payoff_keeps; eassumption.
  - injection H as _ <-. apply keeps_refl.
Qed.

(** A payoff that is there is what [payoff ()] returns. *)
Lemma payoff_cached fuel r c n :
  NodeCache.find r c = Some n -> Payoff.is_null (payoff_ n) = false ->
  SearchNode.payoff (S fuel) r c = Some (payoff_ n, c).
Proof.
  intros F N. cbn [SearchNode.payoff]. unfold bind, get. rewrite F, N.
  reflexivity.
Qed.

Lemma solved_keeps fuel search r result c x c' :
  SearchNode.solved fuel search r result c = Some (x, c') -> keeps c c'.
Proof.
  unfold SearchNode.solved. intros H.
  apply bind_Some in H. destruct H as (node & c1 & G & H).
  apply get_Some in G. destruct G as (_ & ->).
  destruct (body node) as [|if_play if_pass|branches]; try discriminate.
  destruct (_ || _).
  { injection H as _ <-. apply keeps_refl. }
  apply bind_Some in H. destruct H as (res1 & c1 & H1 & H).
  apply bind_Some in H. destruct H as (res2 & c2 & H2 & H).
  assert (K1 : keeps c c1).
  { destruct if_play as [n|].
    - apply bind_Some in H1. destruct H1 as (p & c3 & P & R).
      injection R as _ <-. eapply payoff_keeps; exact P.
    - injection H1 as _ <-. apply keeps_refl. }
  assert (K2 : keeps c1 c2).
  { destruct if_pass as [n|].
    - apply bind_Some in H2. destruct H2 as (p & c3 & P & R).
      injection R as _ <-. eapply payoff_keeps; exact P.
    - injection H2 as _ <-. apply keeps_refl. }
  assert (K : keeps c c2) by (eapply keeps_trans; eassumption).
  destruct if_pass as [pa|], if_play as [pl|];
    try (injection H as _ <-; exact K).
  destruct (negb _).
  { injection H as _ <-. exact K. }
  apply bind_Some in H. destruct H as (a & c3 & P3 & H).
  apply bind_Some in H. destruct H as (b & c4 & P4 & H).
  assert (K4 : keeps c c4).
  { eapply keeps_trans; [exact K|].
    eapply keeps_trans; eapply payoff_keeps; eassumption. }
  destruct (_ && _); injection H as _ <-; exact K4.
Qed.

Lemma chosen_keeps fuel r branch c x c' :
  SearchNode.chosen fuel r branch c = Some (x, c') -> keeps c c'.
Proof.
  unfold SearchNode.chosen. destruct branch as [n|]; intros H.
  - apply bind_Some in H. destruct H as (p & c1 & P & H).
    apply bind_Some in H. destruct H as (node & c2 & G & H).
    apply get_Some in G. destruct G as (_ & ->). injection H as _ <-.
    eapply payoff_keeps; exact P.
  - injection H as _ <-. apply keeps_refl.
Qed.

Lemma decision_keeps fuel r c x c' :
  SearchNode.decision fuel r c = Some (x, c') -> keeps c c'.
Proof.
  unfold SearchNode.decision. intros H.
  apply bind_Some in H. destruct H as (node & c1 & G & H).
  apply get_Some in G. destruct G as (_ & ->).
  destruct (body node) as [|if_play if_pass|branches]; try discriminate.
  apply bind_Some in H. destruct H as (play & c1 & P1 & H).
  apply chosen_keeps in P1.
  destruct play; [injection H as _ <-; exact P1|].
  apply bind_Some in H. destruct H as (pass & c2 & P2 & H).
  apply chosen_keeps in P2.
  assert (K : keeps c c2) by (eapply keeps_trans; eassumption).
  destruct pass; injection H as _ <-; exact K.
Qed.

Lemma log_round_keeps fuel r solved c x c' :
  SearchNode.log_round fuel r solved c = Some (x, c') -> keeps c c'.
Proof.
  unfold SearchNode.log_round. intros H.
  apply bind_Some in H. destruct H as (node & c1 & G & H).
  apply get_Some in G. destruct G as (_ & ->).
  destruct (body node) as [|if_play if_pass|branches]; try discriminate.
  apply bind_Some in H. destruct H as (u1 & c1 & H1 & H).
  apply bind_Some in H. destruct H as (u2 & c2 & H2 & H).
  assert (K1 : keeps c c1).
  { destruct if_play as [n|].
    - apply bind_Some in H1. destruct H1 as (p & c3 & P & R).
      injection R as _ <-. eapply payoff_keeps; exact P.
    - injection H1 as _ <-. apply keeps_refl. }
  assert (K2 : keeps c1 c2).
  { destruct if_pass as [n|].
    - apply bind_Some in H2. destruct H2 as (p & c3 & P & R).
      injection R as _ <-. eapply payoff_keeps; exact P.
    - injection H2 as _ <-. apply keeps_refl. }
  assert (K : keeps c c2) by (eapply keeps_trans; eassumption).
  destruct solved.
  - apply bind_Some in H. destruct H as (dcs & c3 & D & R).
    injection R as _ <-.
    eapply keeps_trans; [exact K | eapply decision_keeps; exact D].
  - injection H as _ <-. exact K.
Qed.

(** [scan] on a node whose payoff is there and within [max_uncertainty]
    marks the node and returns. *)
Lemma scan_settled search depth r c n :
  NodeCache.find r c = Some n ->
  (Payoff.uncertainty (payoff_ n) <= max_uncertainty (options search))%Q ->
  SearchNode.scan search depth r c
  = Some (tt, if visited_ n then c
              else NodeCache.set r (set_visited_ n true) c).
Proof.
  intros F U. apply Qle_bool_iff in U.
  destruct depth; cbn [SearchNode.scan]; unfold bind, get; rewrite F;
    destruct (visited_ n); try reflexivity; unfold put.
  rewrite U. reflexivity.
Qed.

Lemma same_node_refl r : same_node r r = true.
Proof. destruct r as [[] s]; apply State_eqb_refl. Qed.

(** A round that starts with the root payoff within [max_uncertainty]
    does not compute it again. *)
Lemma run_pass_settled fuel search node depth result c n :
  NodeCache.find node c = Some n ->
  Payoff.is_null (payoff_ n) = false ->
  (Payoff.uncertainty (payoff_ n) <= max_uncertainty (options search))%Q ->
  (exists c1,
     (SearchNode.scan search (Z.to_nat depth) node ;;;
      SearchNode.payoff (S fuel) node)%search c
     = Some (payoff_ n, c1)) /\
  (forall payoff solved result' c',
     run_pass (S fuel) search node depth result c
     = Some (payoff, solved, result', c') ->
     payoff = payoff_ n /\
     NodeCache.find node c' = Some (set_visited_ n false)).
Proof.
  intros F N U.
  set (c1 := if visited_ n then c
             else NodeCache.set node (set_visited_ n true) c).
  set (n1 := if visited_ n then n else set_visited_ n true).
  assert (F1 : NodeCache.find node c1 = Some n1).
  { subst c1 n1. destruct (visited_ n); [exact F|].
    now rewrite find_set, same_node_refl. }
  assert (P1 : payoff_ n1 = payoff_ n) by (subst n1; now destruct (visited_ n)).
  assert (V1 : set_visited_ n1 false = set_visited_ n false)
    by (subst n1; now destruct (visited_ n)).
  assert (N1 : Payoff.is_null (payoff_ n1) = false) by now rewrite P1.
  pose proof (scan_settled search (Z.to_nat depth) node c n F U) as Sc.
  fold c1 in Sc.
  pose proof (payoff_cached fuel node c1 n1 F1 N1) as Pc. rewrite P1 in Pc.
  split.
  - exists c1. unfold bind. rewrite Sc. exact Pc.
  - intros payoff solved result' c' H. unfold run_pass in H.
    unfold bind at 1 in H. rewrite Sc in H.
    unfold bind at 1 in H. rewrite Pc in H.
    apply bind_Some in H. destruct H as (res & c2 & So & H).
    apply solved_keeps in So.
    apply bind_Some in H. destruct H as (u & c3 & Lo & H).
    apply log_round_keeps in Lo.
    unfold bind in H. injection H as <- _ _ <-.
    split; [reflexivity|].
    rewrite find_apply, (Lo node n1 (So node n1 F1 N1) N1). cbn. now rewrite V1.
Qed.

(** *** The payoff functions on the cache *)

Lemma calc_payoff_terminal payoff_rec r c node :
  NodeCache.find r c = Some node -> body node = TerminalBody ->
  SearchNode.calc_payoff payoff_rec r c
  = Some (tt, NodeCache.set r
                (set_payoff_ node
                   (TerminalNode.calc_payoff (state node) (payoff_ node))) c).
Proof.
  intros F B. unfold SearchNode.calc_payoff, bind, get. rewrite F, B.
  unfold set_payoff, bind, get, put. now rewrite F.
Qed.

(** With the payoffs of the branches computed, [calc_payoff] of a decision
    node stores what [DecideNode.calc_payoff] gives for them. *)
Lemma calc_payoff_decide fuel r c node if_play if_pass p_play p_pass :
  NodeCache.find r c = Some node ->
  body node = DecideBody if_play if_pass ->
  branch_payoff c if_play p_play -> branch_payoff c if_pass p_pass ->
  SearchNode.calc_payoff (SearchNode.payoff (S fuel)) r c
  = Some (tt, NodeCache.set r
                (set_payoff_ node
                   (DecideNode.calc_payoff (state node) p_play p_pass
                      (payoff_ node))) c).
Proof.
  intros F B Hpl Hpa. unfold SearchNode.calc_payoff.
  unfold bind at 1. unfold get at 1. rewrite F, B.
  assert (S : forall p, set_payoff r p c
                        = Some (tt, NodeCache.set r (set_payoff_ node p) c)).
  { intros p. unfold set_payoff, bind, get, put. now rewrite F. }
  destruct if_play as [pl|], p_play as [vpl|]; try contradiction;
    destruct if_pass as [pa|], p_pass as [vpa|]; try contradiction;
    cbn [branch_payoff] in Hpl, Hpa.
  - destruct Hpl as (npl & Fpl & <- & Npl), Hpa as (npa & Fpa & <- & Npa).
    pose proof (payoff_cached fuel pl c npl Fpl Npl) as Cpl.
    pose proof (payoff_cached fuel pa c npa Fpa Npa) as Cpa.
    unfold bind. rewrite Cpl, Cpa. unfold DecideNode.calc_payoff.
    destruct (Payoff.gt _ _); [rewrite Cpl; apply S|].
    destruct (Payoff.gt _ _); [rewrite Cpa; apply S|].
    rewrite Cpa, Cpl. apply S.
  - destruct Hpl as (npl & Fpl & <- & Npl).
    unfold bind. rewrite (payoff_cached fuel pl c npl Fpl Npl). apply S.
  - destruct Hpa as (npa & Fpa & <- & Npa).
    unfold bind. rewrite (payoff_cached fuel pa c npa Fpa Npa). apply S.
  - apply S.
Qed.

(** *** Uncertainty of a decision node *)

Lemma not_null_gt p : Payoff.is_null p = false -> (-1 < Payoff.prob0 p)%Q.
Proof.
  unfold Payoff.is_null, Payoff.null_value. intros H.
  apply Qnot_le_lt. intros L. apply Qle_bool_iff in L. congruence.
Qed.

Lemma merge_fields first second :
  DecideNode.merge first second
  = Payoff.mk (Payoff.min (Payoff.prob0 first) (Payoff.prob0 second))
              (Payoff.min (Payoff.prob1 first) (Payoff.prob1 second))
              (Payoff.min (Payoff.prob2 first) (Payoff.prob2 second)).
Proof. reflexivity. Qed.

(** The merged payoff is no more certain than either of its arguments. *)
Lemma merge_uncertainty first second :
  Payoff.is_null first = false -> Payoff.is_null second = false ->
  Payoff.is_null (DecideNode.merge first second) = false /\
  (Payoff.uncertainty first <= Payoff.uncertainty (DecideNode.merge first second))%Q /\
  (Payoff.uncertainty second <= Payoff.uncertainty (DecideNode.merge first second))%Q.
Proof.
  intros N1 N2.
  pose proof (not_null_gt _ N1) as G1. pose proof (not_null_gt _ N2) as G2.
  rewrite merge_fields.
  destruct (Payoff_min_spec (Payoff.prob0 first) (Payoff.prob0 second))
    as (A0 & B0 & C0).
  destruct (Payoff_min_spec (Payoff.prob1 first) (Payoff.prob1 second))
    as (A1 & B1 & _).
  destruct (Payoff_min_spec (Payoff.prob2 first) (Payoff.prob2 second))
    as (A2 & B2 & _).
  set (m0 := Payoff.min (Payoff.prob0 first) (Payoff.prob0 second)) in *.
  set (m1 := Payoff.min (Payoff.prob1 first) (Payoff.prob1 second)) in *.
  set (m2 := Payoff.min (Payoff.prob2 first) (Payoff.prob2 second)) in *.
  assert (N : Payoff.is_null (Payoff.mk m0 m1 m2) = false).
  { unfold Payoff.is_null, Payoff.null_value. cbn [Payoff.prob0].
    apply Bool.not_true_iff_false. intros L. apply Qle_bool_iff in L.
    destruct C0 as [E | E]; rewrite E in L; lra. }
  split; [exact N|].
  unfold Payoff.uncertainty. rewrite N, N1, N2. unfold Payoff.sum.
  cbn [Payoff.prob0 Payoff.prob1 Payoff.prob2]. split; lra.
Qed.

(** C6 (amended): the uncertainty of the root payoff is not monotone from
    round to round.  What holds: (1) a round that starts with the root
    payoff computed and its uncertainty at most [max_uncertainty] returns
    that payoff (for every depth and every positive fuel) and leaves it in
    the root node, so the uncertainty stays as it was; (2) when a decision
    node computes its payoff from two branch payoffs, the uncertainty is
    that of the branch that is strictly better for the player up, and on a
    tie it is at least the uncertainty of either branch. *)
Theorem root_uncertainty_rounds (fuel : nat) (search : Search)
    (node : NodeRef) (depth : Z) (result : SearchResult) (c : NodeCache.t)
    (n : Node) (st : State.t) (play pass old : Payoff.t) :
  (NodeCache.find node c = Some n ->
   Payoff.is_null (payoff_ n) = false ->
   (Payoff.uncertainty (payoff_ n) <= max_uncertainty (options search))%Q ->
   (exists c1,
      (SearchNode.scan search (Z.to_nat depth) node ;;;
       SearchNode.payoff (S fuel) node)%search c
      = Some (payoff_ n, c1)) /\
   (forall payoff solved result' c',
      run_pass (S fuel) search node depth result c
      = Some (payoff, solved, result', c') ->
      payoff = payoff_ n /\
      exists n', NodeCache.find node c' = Some n' /\ payoff_ n' = payoff_ n)) /\
  (Payoff.is_null play = false -> Payoff.is_null pass = false ->
   let up := State.up_num st in
   let p := DecideNode.calc_payoff st (Some play) (Some pass) old in
   ((Payoff.get pass up < Payoff.get play up)%Q ->
    Payoff.uncertainty p = Payoff.uncertainty play) /\
   ((Payoff.get play up < Payoff.get pass up)%Q ->
    Payoff.uncertainty p = Payoff.uncertainty pass) /\
   ((Payoff.get play up == Payoff.get pass up)%Q ->
    (Payoff.uncertainty play <= Payoff.uncertainty p)%Q /\
    (Payoff.uncertainty pass <= Payoff.uncertainty p)%Q)).
Proof.
  split.
  - intros F N U.
    destruct (run_pass_settled fuel search node depth result c n F N U)
      as (T & R).
    split; [exact T|].
    intros payoff solved result' c' H.
    destruct (R payoff solved result' c' H) as (E & F').
    split; [exact E|]. exists (set_visited_ n false). split; [exact F' | reflexivity].
  - intros Npl Npa up p. subst p. unfold DecideNode.calc_payoff. fold up.
    split; [|split].
    + intros H. apply Payoff_gt_lt in H. now rewrite H.
    + intros H. pose proof (Qlt_le_weak _ _ H) as H'.
      apply Payoff_gt_false in H'. apply Payoff_gt_lt in H. now rewrite H', H.
    + intros H.
      assert (H1 : Payoff.gt (Payoff.get play up) (Payoff.get pass up) = false).
      { apply Payoff_gt_false. rewrite H. apply Qle_refl. }
      assert (H2 : Payoff.gt (Payoff.get pass up) (Payoff.get play up) = false).
      { apply Payoff_gt_false. rewrite H. apply Qle_refl. }
      rewrite H1, H2.
      destruct (merge_uncertainty pass play Npa Npl) as (_ & A & B).
      split; assumption.
Qed.

Lemma root_uncertainty_rounds_witness :
  let root : NodeRef := (Decide, settled_state) in
  let play := Payoff.mk (5 # 8) 0 (3 # 8) in
  let pass := Payoff.mk (13 # 64) (27 # 64) (3 # 8) in
  (exists n payoff solved result' c',
     NodeCache.find root settled_cache = Some n /\
     Payoff.is_null (payoff_ n) = false /\
     (Payoff.uncertainty (payoff_ n) <= max_uncertainty default_options)%Q /\
     run_pass 64 settled_search root 12 new_result settled_cache
     = Some (payoff, solved, result', c') /\
     payoff = payoff_ n) /\
  (Payoff.uncertainty play
   <= Payoff.uncertainty
        (DecideNode.calc_payoff (State.change_player tie_state)
           (Some play) (Some pass) Payoff.null))%Q.
Proof.
  intros root play pass.
  destruct (NodeCache.find root settled_cache) as [n|] eqn:F;
    [|vm_compute in F; discriminate].
  destruct (run_pass 64 settled_search root 12 new_result settled_cache)
    as [[[[payoff solved] result'] c']|] eqn:R;
    [|vm_compute in R; discriminate].
  assert (N : Payoff.is_null (payoff_ n) = false).
  { vm_compute in F. injection F as <-. reflexivity. }
  assert (U : (Payoff.uncertainty (payoff_ n)
               <= max_uncertainty (options settled_search))%Q).
  { vm_compute in F. injection F as <-. vm_compute. discriminate. }
  pose proof (root_uncertainty_rounds 63 settled_search root 12 new_result
                settled_cache n (State.change_player tie_state) play pass
                Payoff.null) as (A & B).
  split.
  - exists n, payoff, solved, result', c'.
    split; [reflexivity|]. split; [exact N|]. split; [exact U|].
    split; [reflexivity|].
    destruct (A F N U) as (_ & H). apply (H _ _ _ _ R).
  - apply (B eq_refl eq_refl). reflexivity.
Defined.

(** * Further properties *)

(** ** WeightedSet: the table *)

Lemma fold_weight_acc {T : Type} (m : WeightedSet.Container T) (a : Q) :
  (fold_left (fun res e => res + snd e) m a == a + WeightedSet.weight m)%Q.
Proof.
  unfold WeightedSet.weight. revert a.
  induction m as [|[k w] m IH]; intros a; cbn [fold_left snd].
  - ring.
  - rewrite IH, (IH (0 + w)%Q). ring.
Qed.

Lemma weight_cons {T : Type} (e : T * Q) (m : WeightedSet.Container T) :
  (WeightedSet.weight (e :: m) == snd e + WeightedSet.weight m)%Q.
Proof.
  unfold WeightedSet.weight at 1. cbn [fold_left]. rewrite fold_weight_acc. ring.
Qed.

Lemma weight_nil {T : Type} : WeightedSet.weight (@nil (T * Q)) = 0%Q.
Proof. reflexivity. Qed.

Lemma weight_app {T : Type} (m1 m2 : WeightedSet.Container T) :
  (WeightedSet.weight (m1 ++ m2)
   == WeightedSet.weight m1 + WeightedSet.weight m2)%Q.
Proof.
  induction m1 as [|e m1 IH]; cbn [app].
  - unfold WeightedSet.weight at 2. cbn [fold_left]. ring.
  - rewrite !weight_cons, IH. ring.
Qed.

Lemma weight_add {T : Type} (T_eqb : T -> T -> bool) p x
    (m : WeightedSet.Container T) :
  (WeightedSet.weight (WeightedSet.add T_eqb p x m)
   == WeightedSet.weight m + p)%Q.
Proof.
  induction m as [|[k w] m IH]; cbn [WeightedSet.add].
  - unfold WeightedSet.weight. cbn [fold_left snd]. ring.
  - destruct (T_eqb k x).
    + rewrite !weight_cons. cbn [snd]. ring.
    + rewrite !weight_cons, IH. cbn [snd]. ring.
Qed.

Section TableFacts.

Variable T : Type.
Variable T_eqb : T -> T -> bool.

Local Abbreviation Container := (WeightedSet.Container T).
Local Abbreviation at_ := (WeightedSet.at_ T_eqb).
Local Abbreviation add := (WeightedSet.add T_eqb).
Local Abbreviation subscript := (WeightedSet.subscript T_eqb).
Local Abbreviation erase := (WeightedSet.erase T_eqb).
Local Abbreviation distinct := (WeightedSet.distinct T_eqb).

Lemma subscript_cons_other k w x (m : Container) :
  T_eqb k x = false ->
  subscript x ((k, w) :: m)
  = (fst (subscript x m), (k, w) :: snd (subscript x m)).
Proof.
  intros E. cbn [WeightedSet.subscript]. rewrite E.
  now destruct (subscript x m).
Qed.

Lemma subscript_weight x (m : Container) :
  (WeightedSet.weight (snd (subscript x m)) == WeightedSet.weight m)%Q.
Proof.
  induction m as [|[k w] m IH].
  - cbn. reflexivity.
  - destruct (T_eqb k x) eqn:E.
    + cbn [WeightedSet.subscript]. rewrite E. reflexivity.
    + rewrite (subscript_cons_other _ _ _ _ E). cbn [snd].
      rewrite !weight_cons, IH. reflexivity.
Qed.

Lemma subscript_fst x (m : Container) :
  fst (subscript x m) = match at_ x m with Some w => w | None => 0%Q end.
Proof.
  induction m as [|[k w] m IH]; [reflexivity|].
  destruct (T_eqb k x) eqn:E.
  - cbn [WeightedSet.subscript WeightedSet.at_]. now rewrite E.
  - rewrite (subscript_cons_other _ _ _ _ E). cbn [fst WeightedSet.at_].
    now rewrite E.
Qed.

Lemma existsb_add (g : T -> bool) p x (m : Container) :
  existsb (fun e : T * Q => g (fst e)) (add p x m) = true ->
  existsb (fun e : T * Q => g (fst e)) m = true \/ g x = true.
Proof.
  induction m as [|[k w] m IH]; cbn [WeightedSet.add].
  - cbn. rewrite orb_false_r. auto.
  - destruct (T_eqb k x); cbn [existsb fst].
    + auto.
    + rewrite !orb_true_iff. intros [H | H]; [auto|].
      destruct (IH H); auto.
Qed.

Lemma distinct_add p x (m : Container) :
  distinct m = true -> distinct (add p x m) = true.
Proof.
  induction m as [|[k w] m IH]; cbn [WeightedSet.add WeightedSet.distinct].
  - reflexivity.
  - rewrite andb_true_iff, negb_true_iff. intros (N & D).
    destruct (T_eqb k x) eqn:E; cbn [WeightedSet.distinct].
    + now rewrite N, D.
    + rewrite (IH D), andb_true_r, negb_true_iff.
      destruct (existsb _ (add p x m)) eqn:X; [|reflexivity].
      apply (existsb_add (T_eqb k)) in X. destruct X; congruence.
Qed.

Lemma existsb_subscript (g : T -> bool) x (m : Container) :
  existsb (fun e : T * Q => g (fst e)) (snd (subscript x m)) = true ->
  existsb (fun e : T * Q => g (fst e)) m = true \/ g x = true.
Proof.
  induction m as [|[k w] m IH].
  - cbn. rewrite orb_false_r. auto.
  - destruct (T_eqb k x) eqn:E.
    + cbn [WeightedSet.subscript]. rewrite E. auto.
    + rewrite (subscript_cons_other _ _ _ _ E). cbn [snd existsb fst].
      rewrite !orb_true_iff. intros [H | H]; [auto|].
      destruct (IH H); auto.
Qed.

Lemma distinct_subscript x (m : Container) :
  distinct m = true -> distinct (snd (subscript x m)) = true.
Proof.
  induction m as [|[k w] m IH]; [reflexivity|].
  cbn [WeightedSet.distinct]. rewrite andb_true_iff, negb_true_iff.
  intros (N & D). destruct (T_eqb k x) eqn:E.
  - cbn [WeightedSet.subscript]. rewrite E. cbn [snd WeightedSet.distinct].
    now rewrite N, D.
  - rewrite (subscript_cons_other _ _ _ _ E). cbn [snd WeightedSet.distinct].
    rewrite (IH D), andb_true_r, negb_true_iff.
    destruct (existsb _ (snd (subscript x m))) eqn:X; [|reflexivity].
    apply (existsb_subscript (T_eqb k)) in X. destruct X; congruence.
Qed.

Lemma existsb_erase (g : T -> bool) x (m : Container) :
  existsb (fun e : T * Q => g (fst e)) (erase x m) = true ->
  existsb (fun e : T * Q => g (fst e)) m = true.
Proof.
  induction m as [|[k w] m IH]; cbn [WeightedSet.erase]; [auto|].
  destruct (T_eqb k x); cbn [existsb fst]; rewrite ?orb_true_iff.
  - auto.
  - intros [H | H]; auto.
Qed.

Lemma distinct_erase x (m : Container) :
  distinct m = true -> distinct (erase x m) = true.
Proof.
  induction m as [|[k w] m IH]; cbn [WeightedSet.erase WeightedSet.distinct];
    [reflexivity|].
  rewrite andb_true_iff, negb_true_iff. intros (N & D).
  destruct (T_eqb k x); [exact D|]. cbn [WeightedSet.distinct].
  rewrite (IH D), andb_true_r, negb_true_iff.
  destruct (existsb _ (erase x m)) eqn:X; [|reflexivity].
  apply (existsb_erase (T_eqb k)) in X. congruence.
Qed.

Lemma weight_erase x (m : Container) :
  (WeightedSet.weight (erase x m)
   == WeightedSet.weight m - fst (subscript x m))%Q.
Proof.
  induction m as [|[k w] m IH].
  - cbn. reflexivity.
  - destruct (T_eqb k x) eqn:E.
    + cbn [WeightedSet.erase WeightedSet.subscript]. rewrite E. cbn [fst].
      rewrite weight_cons. cbn [snd]. ring.
    + rewrite (subscript_cons_other _ _ _ _ E).
      cbn [WeightedSet.erase fst]. rewrite E, !weight_cons, IH. cbn [snd]. ring.
Qed.

Lemma size_add p x (m : Container) :
  WeightedSet.size (add p x m)
  = (WeightedSet.size m + match at_ x m with Some _ => 0 | None => 1 end)%nat.
Proof.
  unfold WeightedSet.size.
  induction m as [|[k w] m IH]; cbn [WeightedSet.add WeightedSet.at_].
  - reflexivity.
  - destruct (T_eqb k x); cbn [length].
    + now rewrite Nat.add_0_r.
    + now rewrite IH.
Qed.

Hypothesis T_eqb_sym : forall a b, T_eqb a b = T_eqb b a.
Hypothesis T_eqb_trans :
  forall a b c, T_eqb a b = true -> T_eqb b c = true -> T_eqb a c = true.

Lemma T_eqb_right x y k : T_eqb x y = true -> T_eqb k x = T_eqb k y.
Proof.
  intros E. apply Bool.eq_true_iff_eq. split; intros H.
  - eapply T_eqb_trans; eassumption.
  - eapply T_eqb_trans; [exact H|]. now rewrite T_eqb_sym.
Qed.

Lemma T_eqb_apart k x y :
  T_eqb k x = true -> T_eqb x y = false -> T_eqb k y = false.
Proof.
  intros Ekx Exy. destruct (T_eqb k y) eqn:Eky; [|reflexivity].
  rewrite <- Exy. symmetry. eapply T_eqb_trans; [|exact Eky].
  now rewrite T_eqb_sym.
Qed.

Lemma at_add p x (m : Container) y :
  at_ y (add p x m)
  = if T_eqb x y then Some (fst (subscript x m) + p)%Q else at_ y m.
Proof.
  induction m as [|[k w] m IH].
  - reflexivity.
  - destruct (T_eqb k x) eqn:Ekx.
    + cbn [WeightedSet.add WeightedSet.subscript]. rewrite Ekx.
      cbn [WeightedSet.at_ fst].
      destruct (T_eqb x y) eqn:Exy.
      * now rewrite <- (T_eqb_right _ _ k Exy), Ekx.
      * now rewrite (T_eqb_apart _ _ _ Ekx Exy).
    + rewrite (subscript_cons_other _ _ _ _ Ekx).
      cbn [WeightedSet.add WeightedSet.at_ fst]. rewrite Ekx.
      cbn [WeightedSet.at_]. rewrite IH.
      destruct (T_eqb x y) eqn:Exy; [|reflexivity].
      now rewrite <- (T_eqb_right _ _ k Exy), Ekx.
Qed.

Lemma at_subscript x (m : Container) y :
  T_eqb x y = false -> at_ y (snd (subscript x m)) = at_ y m.
Proof.
  intros Exy. induction m as [|[k w] m IH].
  - cbn. now rewrite Exy.
  - destruct (T_eqb k x) eqn:Ekx.
    + cbn [WeightedSet.subscript]. now rewrite Ekx.
    + rewrite (subscript_cons_other _ _ _ _ Ekx). cbn [snd WeightedSet.at_].
      now rewrite IH.
Qed.

Lemma subscript_at_same x (m : Container) :
  at_ x (snd (subscript x m)) = Some (fst (subscript x m))
  \/ T_eqb x x = false.
Proof.
  induction m as [|[k w] m IH].
  - cbn. destruct (T_eqb x x); auto.
  - destruct (T_eqb k x) eqn:Ekx.
    + cbn [WeightedSet.subscript]. rewrite Ekx. cbn [snd fst WeightedSet.at_].
      rewrite Ekx. auto.
    + rewrite (subscript_cons_other _ _ _ _ Ekx). cbn [snd fst WeightedSet.at_].
      rewrite Ekx. exact IH.
Qed.

Lemma at_none_existsb x (m : Container) :
  at_ x m = None <-> existsb (fun e : T * Q => T_eqb (fst e) x) m = false.
Proof.
  induction m as [|[k w] m IH]; cbn [WeightedSet.at_ existsb fst].
  - tauto.
  - destruct (T_eqb k x); cbn [orb]; [split; discriminate | exact IH].
Qed.

Lemma at_erase_same x (m : Container) :
  distinct m = true -> at_ x (erase x m) = None.
Proof.
  induction m as [|[k w] m IH]; cbn [WeightedSet.erase WeightedSet.distinct];
    [reflexivity|].
  rewrite andb_true_iff, negb_true_iff. intros (N & D).
  destruct (T_eqb k x) eqn:Ekx.
  - apply at_none_existsb. rewrite <- N. clear IH D N.
    induction m as [|[k' w'] m IH]; [reflexivity|]. cbn [existsb fst].
    rewrite IH. f_equal. rewrite (T_eqb_sym k k').
    symmetry. now apply T_eqb_right.
  - cbn [WeightedSet.at_]. rewrite Ekx. exact (IH D).
Qed.

Lemma at_erase_other x (m : Container) y :
  T_eqb x y = false -> at_ y (erase x m) = at_ y m.
Proof.
  intros Exy. induction m as [|[k w] m IH]; cbn [WeightedSet.erase];
    [reflexivity|].
  destruct (T_eqb k x) eqn:Ekx; cbn [WeightedSet.at_].
  - now rewrite (T_eqb_apart _ _ _ Ekx Exy).
  - now rewrite IH.
Qed.

End TableFacts.

Lemma SpinValue_eqb_sym a b : SpinValue.eqb a b = SpinValue.eqb b a.
Proof.
  apply Bool.eq_true_iff_eq. rewrite !SpinValue_eqb_eq. split; congruence.
Qed.

Lemma SpinValue_eqb_trans a b c :
  SpinValue.eqb a b = true -> SpinValue.eqb b c = true ->
  SpinValue.eqb a c = true.
Proof. rewrite !SpinValue_eqb_eq. congruence. Qed.

Lemma SpinValue_eqb_refl a : SpinValue.eqb a a = true.
Proof. now apply SpinValue_eqb_eq. Qed.

(** X1: [add] and a later lookup.  With a key equality that is symmetric
    and transitive, [terms[term] += scalar] makes every key equal to [term]
    read the old weight of [term] (0 when it was missing) plus [scalar],
    leaves the weight of every other key as it was, stores no key twice if
    none was, and makes the table one entry longer exactly when [term] was
    missing. *)
Theorem WeightedSet_add_lookup (T : Type) (T_eqb : T -> T -> bool)
    (scalar : Q) (term : T) (terms : WeightedSet.Container T) :
  (forall a b, T_eqb a b = T_eqb b a) ->
  (forall a b c, T_eqb a b = true -> T_eqb b c = true -> T_eqb a c = true) ->
  let old := match WeightedSet.at_ T_eqb term terms with
             | Some w => w
             | None => 0%Q
             end in
  let terms' := WeightedSet.add T_eqb scalar term terms in
  (forall y, T_eqb term y = true ->
     WeightedSet.at_ T_eqb y terms' = Some (old + scalar)%Q) /\
  (forall y, T_eqb term y = false ->
     WeightedSet.at_ T_eqb y terms' = WeightedSet.at_ T_eqb y terms) /\
  (WeightedSet.distinct T_eqb terms = true ->
   WeightedSet.distinct T_eqb terms' = true) /\
  WeightedSet.size terms'
  = (WeightedSet.size terms
     + match WeightedSet.at_ T_eqb term terms with
       | Some _ => 0
       | None => 1
       end)%nat.
Proof.
  intros Hsym Htrans old terms'. subst old terms'.
  rewrite <- subscript_fst. repeat split.
  - intros y E. now rewrite (at_add _ _ Hsym Htrans), E.
  - intros y E. now rewrite (at_add _ _ Hsym Htrans), E.
  - apply distinct_add.
  - apply size_add.
Qed.

Lemma WeightedSet_add_lookup_witness :
  let B := SpinValue.SpinValue3 1000 1 1 in
  WeightedSet.at_ SpinValue.eqb B
    (WeightedSet.add SpinValue.eqb (1 # 10) B SpinOperator.SpinTest)
  = Some ((3 # 10) + (1 # 10))%Q.
Proof.
  intros B.
  apply (WeightedSet_add_lookup _ SpinValue.eqb (1 # 10) B SpinOperator.SpinTest
           SpinValue_eqb_sym SpinValue_eqb_trans).
  reflexivity.
Defined.

Lemma weight_Permutation {T : Type} (m m' : WeightedSet.Container T) :
  Permutation m m' -> (WeightedSet.weight m == WeightedSet.weight m')%Q.
Proof.
  induction 1 as [|e m m' _ IH|e1 e2 m|m1 m2 m3 _ IH1 _ IH2].
  - reflexivity.
  - now rewrite !weight_cons, IH.
  - rewrite !weight_cons. ring.
  - now rewrite IH1.
Qed.

(** X2: the total weight.  [weight ()] of a table does not depend on the
    order in which the entries are visited (in exact arithmetic), every
    [add] raises it by the scalar added, and the table of the one-argument
    constructor, [add (1.0, v)] on the empty table, has weight 1. *)
Theorem WeightedSet_weight_total (T : Type) (T_eqb : T -> T -> bool)
    (scalar : Q) (term : T) (terms : WeightedSet.Container T) :
  (forall terms', Permutation terms terms' ->
     WeightedSet.weight terms == WeightedSet.weight terms')%Q /\
  (WeightedSet.weight (WeightedSet.add T_eqb scalar term terms)
   == WeightedSet.weight terms + scalar)%Q /\
  (WeightedSet.weight (WeightedSet.add T_eqb 1 term []) == 1)%Q.
Proof.
  split; [|split].
  - intros terms'. apply weight_Permutation.
  - apply weight_add.
  - rewrite weight_add. unfold WeightedSet.weight. cbn [fold_left]. ring.
Qed.

Lemma weight_map_div {T : Type} (m : WeightedSet.Container T) (w : Q) :
  (WeightedSet.weight (map (fun e : T * Q => (fst e, snd e / w)) m)
   == WeightedSet.weight m / w)%Q.
Proof.
  induction m as [|e m IH]; cbn [map].
  - unfold WeightedSet.weight. cbn [fold_left]. unfold Qdiv. ring.
  - rewrite !weight_cons, IH. cbn [snd]. unfold Qdiv. ring.
Qed.

Lemma at_map_div {T : Type} (T_eqb : T -> T -> bool)
    (m : WeightedSet.Container T) (w : Q) x :
  WeightedSet.at_ T_eqb x (map (fun e : T * Q => (fst e, snd e / w)%Q) m)
  = option_map (fun v => (v / w)%Q) (WeightedSet.at_ T_eqb x m).
Proof.
  induction m as [|[k v] m IH]; [reflexivity|].
  cbn [map fst snd WeightedSet.at_]. now destruct (T_eqb k x).
Qed.

(** X3: [normalize].  On a table whose total weight is not 0, [normalize]
    makes the total 1 (in exact arithmetic), keeps the keys and their order,
    and divides the weight of every key by the old total. *)
Theorem WeightedSet_normalize_total (T : Type) (T_eqb : T -> T -> bool)
    (terms : WeightedSet.Container T) :
  ~ (WeightedSet.weight terms == 0)%Q ->
  (WeightedSet.weight (WeightedSet.normalize terms) == 1)%Q /\
  WeightedSet.keys (WeightedSet.normalize terms) = WeightedSet.keys terms /\
  forall x,
    WeightedSet.at_ T_eqb x (WeightedSet.normalize terms)
    = option_map (fun v => (v / WeightedSet.weight terms)%Q)
        (WeightedSet.at_ T_eqb x terms).
Proof.
  intros H. unfold WeightedSet.normalize. split; [|split].
  - rewrite weight_map_div. now field.
  - unfold WeightedSet.keys. rewrite map_map. reflexivity.
  - intros x. apply at_map_div.
Qed.

Lemma WeightedSet_normalize_total_witness :
  let terms : SpinOperator.t :=
    [(SpinValue.SpinValue3 0 0 1, 1%Q); (SpinValue.SpinValue3 2500 0 1, 3%Q)] in
  (WeightedSet.weight (WeightedSet.normalize terms) == 1)%Q /\
  WeightedSet.at_ SpinValue.eqb (SpinValue.SpinValue3 2500 0 1)
    (WeightedSet.normalize terms)
  = Some (3 / (0 + 1 + 3))%Q.
Proof.
  intros terms.
  destruct (WeightedSet_normalize_total _ SpinValue.eqb terms) as (A & _ & B).
  - vm_compute. discriminate.
  - split; [exact A|]. rewrite B. reflexivity.
Defined.

(** What [spread] does to a table without double keys. *)
Lemma spread_core (T : Type) (T_eqb : T -> T -> bool)
    (value min max : T) (terms : WeightedSet.Container T) :
  (forall a, T_eqb a a = true) ->
  (forall a b, T_eqb a b = T_eqb b a) ->
  (forall a b c, T_eqb a b = true -> T_eqb b c = true -> T_eqb a c = true) ->
  WeightedSet.distinct T_eqb terms = true ->
  T_eqb value min = false -> T_eqb value max = false ->
  let weight := match WeightedSet.at_ T_eqb value terms with
                | Some w => w
                | None => 0%Q
                end in
  let res := WeightedSet.spread T_eqb value min max terms in
  (WeightedSet.weight res == WeightedSet.weight terms)%Q /\
  WeightedSet.at_ T_eqb value res = None /\
  WeightedSet.distinct T_eqb res = true /\
  forall y, T_eqb value y = false ->
    WeightedSet.at_ T_eqb y res
    = WeightedSet.at_ T_eqb y
        (WeightedSet.add T_eqb (weight / 2) max
           (WeightedSet.add T_eqb (weight / 2) min terms)).
Proof.
  intros Hrefl Hsym Htrans D Emin Emax weight res. subst weight res.
  rewrite <- subscript_fst. unfold WeightedSet.spread.
  destruct (WeightedSet.subscript T_eqb value terms) as [w terms1] eqn:S.
  assert (Sw : w = fst (WeightedSet.subscript T_eqb value terms))
    by now rewrite S.
  assert (St : terms1 = snd (WeightedSet.subscript T_eqb value terms))
    by now rewrite S.
  cbn [fst].
  set (M := WeightedSet.add T_eqb (w / 2) max
              (WeightedSet.add T_eqb (w / 2) min terms1)).
  assert (Emin' : T_eqb min value = false) by now rewrite Hsym.
  assert (Emax' : T_eqb max value = false) by now rewrite Hsym.
  assert (AtM : WeightedSet.at_ T_eqb value M = Some w).
  { unfold M. rewrite !(at_add _ _ Hsym Htrans), Emax', Emin', St, Sw.
    destruct (subscript_at_same _ T_eqb value terms) as [H | H];
      [exact H | now rewrite Hrefl in H]. }
  assert (DM : WeightedSet.distinct T_eqb M = true).
  { unfold M. apply distinct_add, distinct_add. rewrite St.
    now apply distinct_subscript. }
  repeat split.
  - rewrite weight_erase, subscript_fst, AtM. unfold M.
    rewrite !weight_add, St, subscript_weight. field.
  - now apply at_erase_same.
  - now apply distinct_erase.
  - intros y Ey. rewrite (at_erase_other _ _ Hsym Htrans) by exact Ey.
    assert (O : forall z, T_eqb value z = false ->
              WeightedSet.at_ T_eqb z terms1 = WeightedSet.at_ T_eqb z terms).
    { intros z Ez. rewrite St. now apply at_subscript. }
    unfold M. rewrite !(at_add _ _ Hsym Htrans), !subscript_fst.
    rewrite !(at_add _ _ Hsym Htrans), !subscript_fst.
    rewrite (O min Emin), (O max Emax), (O y Ey). reflexivity.
Qed.

(** X4: [spread].  On a table that stores no key twice, with a key equality
    that is an equivalence, spreading [value] over two keys [min] and [max]
    that both differ from it keeps the total weight (in exact arithmetic),
    removes [value] from the table, stores no key twice, and gives every
    other key the weight it has after adding half of the weight of [value]
    (0 when it was missing) to [min] and to [max]. *)
Theorem WeightedSet_spread_total (T : Type) (T_eqb : T -> T -> bool)
    (value min max : T) (terms : WeightedSet.Container T) :
  (forall a, T_eqb a a = true) ->
  (forall a b, T_eqb a b = T_eqb b a) ->
  (forall a b c, T_eqb a b = true -> T_eqb b c = true -> T_eqb a c = true) ->
  WeightedSet.distinct T_eqb terms = true ->
  T_eqb value min = false -> T_eqb value max = false ->
  let weight := match WeightedSet.at_ T_eqb value terms with
                | Some w => w
                | None => 0%Q
                end in
  let res := WeightedSet.spread T_eqb value min max terms in
  (WeightedSet.weight res == WeightedSet.weight terms)%Q /\
  WeightedSet.at_ T_eqb value res = None /\
  WeightedSet.distinct T_eqb res = true /\
  forall y, T_eqb value y = false ->
    WeightedSet.at_ T_eqb y res
    = WeightedSet.at_ T_eqb y
        (WeightedSet.add T_eqb (weight / 2) max
           (WeightedSet.add T_eqb (weight / 2) min terms)).
Proof.
  intros Hrefl Hsym Htrans D Emin Emax weight res.
  pose proof (spread_core T T_eqb value min max terms Hrefl Hsym Htrans D
                Emin Emax) as X.
  cbv zeta in X. destruct X as (W & A & Dr & O).
  split; [exact W|]. split; [exact A|]. split; [exact Dr|]. exact O.
Qed.

Lemma WeightedSet_spread_total_witness :
  let terms : SpinOperator.t :=
    [(SpinValue.SpinValue3 0 0 1, 1 # 2); (SpinValue.SpinValue3 1750 0 1, 1 # 2)]
  in
  let res :=
    WeightedSet.spread SpinValue.eqb (SpinValue.SpinValue3 1750 0 1)
      (SpinValue.SpinValue3 1500 0 1) (SpinValue.SpinValue3 2000 0 1) terms in
  (WeightedSet.weight res == WeightedSet.weight terms)%Q /\
  WeightedSet.at_ SpinValue.eqb (SpinValue.SpinValue3 1750 0 1) res = None.
Proof.
  intros terms res.
  destruct (WeightedSet_spread_total _ SpinValue.eqb
              (SpinValue.SpinValue3 1750 0 1) (SpinValue.SpinValue3 1500 0 1)
              (SpinValue.SpinValue3 2000 0 1) terms
              SpinValue_eqb_refl SpinValue_eqb_sym SpinValue_eqb_trans
              eq_refl eq_refl eq_refl) as (A & B & _).
  split; [exact A | exact B].
Defined.

Lemma at_add_other (p : Q) (x y : SpinValue.t) (m : SpinOperator.t) :
  SpinValue.eqb x y = false ->
  WeightedSet.at_ SpinValue.eqb y (WeightedSet.add SpinValue.eqb p x m)
  = WeightedSet.at_ SpinValue.eqb y m.
Proof.
  intros E. now rewrite (at_add _ _ SpinValue_eqb_sym SpinValue_eqb_trans), E.
Qed.

(** X30: [SpinOperator::spread].  On an operator that stores no outcome
    twice, [spread ()] keeps the total weight (in exact arithmetic), stores
    no outcome twice, removes the three outcomes 4000 + spin, 1750 and 2250
    (a later step does not bring back an outcome that an earlier step
    removed), and leaves the weight of every outcome other than these three
    and the five they are spread over (3000 + spin, 5000 + spin, 1500, 2000,
    2500) as it was. *)
Theorem SpinOperator_spread_spec (this : SpinOperator.t) :
  WeightedSet.distinct SpinValue.eqb this = true ->
  (WeightedSet.weight (SpinOperator.spread this) == WeightedSet.weight this)%Q
  /\ WeightedSet.distinct SpinValue.eqb (SpinOperator.spread this) = true
  /\ (forall value,
        In value [SpinValue.SpinValue3 4000 1 1; SpinValue.SpinValue3 1750 0 1;
                  SpinValue.SpinValue3 2250 0 1] ->
        WeightedSet.at_ SpinValue.eqb value (SpinOperator.spread this) = None)
  /\ forall y,
       (forall value,
          In value [SpinValue.SpinValue3 4000 1 1; SpinValue.SpinValue3 3000 1 1;
                    SpinValue.SpinValue3 5000 1 1; SpinValue.SpinValue3 1750 0 1;
                    SpinValue.SpinValue3 1500 0 1; SpinValue.SpinValue3 2000 0 1;
                    SpinValue.SpinValue3 2250 0 1; SpinValue.SpinValue3 2500 0 1] ->
          SpinValue.eqb value y = false) ->
       WeightedSet.at_ SpinValue.eqb y (SpinOperator.spread this)
       = WeightedSet.at_ SpinValue.eqb y this.
Proof.
  intros D. unfold SpinOperator.spread.
  set (v1 := SpinValue.SpinValue3 4000 1 1).
  set (a1 := SpinValue.SpinValue3 3000 1 1).
  set (b1 := SpinValue.SpinValue3 5000 1 1).
  set (v2 := SpinValue.SpinValue3 1750 0 1).
  set (a2 := SpinValue.SpinValue3 1500 0 1).
  set (b2 := SpinValue.SpinValue3 2000 0 1).
  set (v3 := SpinValue.SpinValue3 2250 0 1).
  set (b3 := SpinValue.SpinValue3 2500 0 1).
  pose proof (spread_core _ SpinValue.eqb v1 a1 b1 this SpinValue_eqb_refl
                SpinValue_eqb_sym SpinValue_eqb_trans D eq_refl eq_refl) as X1.
  cbv zeta in X1. destruct X1 as (W1 & A1 & D1 & O1).
  set (res1 := WeightedSet.spread SpinValue.eqb v1 a1 b1 this) in *.
  pose proof (spread_core _ SpinValue.eqb v2 a2 b2 res1 SpinValue_eqb_refl
                SpinValue_eqb_sym SpinValue_eqb_trans D1 eq_refl eq_refl) as X2.
  cbv zeta in X2. destruct X2 as (W2 & A2 & D2 & O2).
  set (res2 := WeightedSet.spread SpinValue.eqb v2 a2 b2 res1) in *.
  pose proof (spread_core _ SpinValue.eqb v3 b2 b3 res2 SpinValue_eqb_refl
                SpinValue_eqb_sym SpinValue_eqb_trans D2 eq_refl eq_refl) as X3.
  cbv zeta in X3. destruct X3 as (W3 & A3 & D3 & O3).
  set (res3 := WeightedSet.spread SpinValue.eqb v3 b2 b3 res2) in *.
  assert (K2 : WeightedSet.at_ SpinValue.eqb v2 res3 = None).
  { rewrite (O3 v2 eq_refl), !at_add_other by reflexivity. exact A2. }
  assert (K1 : WeightedSet.at_ SpinValue.eqb v1 res3 = None).
  { rewrite (O3 v1 eq_refl), !at_add_other by reflexivity.
    rewrite (O2 v1 eq_refl), !at_add_other by reflexivity. exact A1. }
  split; [now rewrite W3, W2, W1|]. split; [exact D3|]. split.
  - intros value [<- | [<- | [<- | []]]]; assumption.
  - intros y Hy.
    assert (E : forall value,
      In value [v1; a1; b1; v2; a2; b2; v3; b3] -> SpinValue.eqb value y = false)
      by exact Hy.
    rewrite (O3 y), !at_add_other by (apply E; cbn [In]; tauto).
    rewrite (O2 y), !at_add_other by (apply E; cbn [In]; tauto).
    rewrite (O1 y), !at_add_other by (apply E; cbn [In]; tauto).
    reflexivity.
Qed.

Lemma SpinOperator_spread_spec_witness :
  let this : SpinOperator.t :=
    [(SpinValue.SpinValue3 0 0 1, 1 # 4); (SpinValue.SpinValue3 1750 0 1, 1 # 4);
     (SpinValue.SpinValue3 2000 0 1, 1 # 4); (SpinValue.SpinValue3 4000 1 1, 1 # 4)]
  in
  (WeightedSet.weight (SpinOperator.spread this) == 1)%Q
  /\ WeightedSet.at_ SpinValue.eqb (SpinValue.SpinValue3 1750 0 1)
       (SpinOperator.spread this) = None
  /\ WeightedSet.at_ SpinValue.eqb (SpinValue.SpinValue3 0 0 1)
       (SpinOperator.spread this) = Some (1 # 4).
Proof.
  intros this.
  destruct (SpinOperator_spread_spec this eq_refl) as (W & _ & A & O).
  split; [rewrite W; vm_compute; reflexivity|]. split.
  - apply A. cbn [In]. tauto.
  - rewrite O; [reflexivity|].
    intros value H. cbn [In] in H.
    repeat (destruct H as [<- | H]; [reflexivity|]). destruct H.
Defined.

(** ** SpinOperator: weights and comparison *)

Lemma compose_inner_weight (this : SpinOperator.t) (t0 : SpinValue.t * Q)
    (res : SpinOperator.t) :
  (WeightedSet.weight
     (fold_left
        (fun res u =>
           SpinOperator.add (snd u * snd t0)%Q
             (SpinValue.mul (fst u) (fst t0)) res)
        this res)
   == WeightedSet.weight res + WeightedSet.weight this * snd t0)%Q.
Proof.
  revert res. induction this as [|u this IH]; intros res; cbn [fold_left].
  - unfold WeightedSet.weight at 3. cbn [fold_left]. ring.
  - rewrite IH. unfold SpinOperator.add. rewrite weight_add, weight_cons. ring.
Qed.

Lemma compose_weight (this sop : SpinOperator.t) :
  (WeightedSet.weight (SpinOperator.compose this sop)
   == WeightedSet.weight this * WeightedSet.weight sop)%Q.
Proof.
  unfold SpinOperator.compose.
  assert (G : forall res : SpinOperator.t,
    (WeightedSet.weight
       (fold_left
          (fun res t0 =>
             fold_left
               (fun res u =>
                  SpinOperator.add (snd u * snd t0)%Q
                    (SpinValue.mul (fst u) (fst t0)) res)
               this res)
          sop res)
     == WeightedSet.weight res
        + WeightedSet.weight this * WeightedSet.weight sop)%Q).
  { induction sop as [|t0 sop IH]; intros res; cbn [fold_left].
    - unfold WeightedSet.weight at 4. cbn [fold_left]. ring.
    - rewrite IH, compose_inner_weight, weight_cons. ring. }
  rewrite G. unfold WeightedSet.weight at 1. cbn [fold_left]. ring.
Qed.

Lemma apply_weight_acc (expr : SpinOperator.t) (ds : State.t) (res : ProbState) :
  (WeightedSet.weight
     (fold_left
        (fun res term =>
           WeightedSet.add State.eqb (snd term) (State.spin (fst term) ds) res)
        expr res)
   == WeightedSet.weight res + WeightedSet.weight expr)%Q.
Proof.
  revert res. induction expr as [|term expr IH]; intros res; cbn [fold_left].
  - unfold WeightedSet.weight at 3. cbn [fold_left]. ring.
  - rewrite IH, weight_add, weight_cons. ring.
Qed.

Lemma apply_weight (expr : SpinOperator.t) (ds : State.t) :
  (WeightedSet.weight (SpinOperator_apply expr ds) == WeightedSet.weight expr)%Q.
Proof.
  unfold SpinOperator_apply. rewrite apply_weight_acc.
  unfold WeightedSet.weight at 1. cbn [fold_left]. ring.
Qed.

(** X5: composition multiplies total weights.  The total weight of
    [this(sop)] is the product of the totals of [this] and [sop] (in exact
    arithmetic), so the operators [Search::Search] precomputes from a board
    of total weight 1, [spin_op[0]] to [spin_op[6]], all have total
    weight 1. *)
Theorem SpinOperator_compose_weight (this sop spin : SpinOperator.t)
    (opts : SearchOptions) (ord : ProbState -> ProbState) :
  (WeightedSet.weight (SpinOperator.compose this sop)
   == WeightedSet.weight this * WeightedSet.weight sop)%Q /\
  ((WeightedSet.weight spin == 1)%Q ->
   Forall (fun op => (WeightedSet.weight op == 1)%Q)
     (spin_op (new_Search spin opts ord))).
Proof.
  split; [apply compose_weight|].
  intros H. unfold new_Search. cbn [spin_op].
  assert (C : forall op : SpinOperator.t,
            (WeightedSet.weight op == 1)%Q ->
            (WeightedSet.weight (SpinOperator.compose spin op) == 1)%Q).
  { intros op Hop. rewrite compose_weight, H, Hop. ring. }
  repeat (apply Forall_cons; [auto 10|]). apply Forall_nil.
Qed.

(** X6: applying an operator to a state keeps the total weight.  The
    weighted set of states [SpinOperator::operator*] returns has the total
    weight of the operator (in exact arithmetic), whatever states the
    outcomes lead to and however many of them coincide. *)
Theorem SpinOperator_apply_weight (expr : SpinOperator.t) (ds : State.t) :
  (WeightedSet.weight (SpinOperator_apply expr ds) == WeightedSet.weight expr)%Q
  /\ (WeightedSet.size (SpinOperator_apply expr ds) <= WeightedSet.size expr)%nat.
Proof.
  split; [apply apply_weight|].
  unfold SpinOperator_apply.
  assert (G : forall res : ProbState,
    (WeightedSet.size
       (fold_left
          (fun res term =>
             WeightedSet.add State.eqb (snd term) (State.spin (fst term) ds) res)
          expr res)
     <= WeightedSet.size res + WeightedSet.size expr)%nat).
  { induction expr as [|term expr IH]; intros res; cbn [fold_left].
    - unfold WeightedSet.size. cbn [length]. lia.
    - eapply Nat.le_trans; [apply IH|]. rewrite size_add.
      unfold WeightedSet.size. cbn [length].
      destruct (WeightedSet.at_ _ _ _); lia. }
  apply (G []).
Qed.

Lemma at_distinct_entry {T : Type} (T_eqb : T -> T -> bool)
    (m : WeightedSet.Container T) :
  (forall a, T_eqb a a = true) ->
  WeightedSet.distinct T_eqb m = true ->
  forall e, In e m -> WeightedSet.at_ T_eqb (fst e) m = Some (snd e).
Proof.
  intros Hrefl. induction m as [|[k w] m IH]; intros D e Hin; [destruct Hin|].
  cbn [WeightedSet.distinct] in D. apply andb_true_iff in D.
  destruct D as (N & D). apply negb_true_iff in N.
  cbn [WeightedSet.at_]. destruct Hin as [<- | Hin].
  - cbn [fst snd]. now rewrite Hrefl.
  - assert (E : T_eqb k (fst e) = false).
    { destruct (T_eqb k (fst e)) eqn:E; [|reflexivity].
      rewrite <- N. symmetry. apply existsb_exists. exists e. auto. }
    rewrite E. now apply IH.
Qed.

Lemma SpinOperator_eqb_true (expr other : SpinOperator.t) :
  SpinOperator.eqb expr other = Some true <->
  Forall
    (fun term =>
       exists w, WeightedSet.at_ SpinValue.eqb (fst term) other = Some w
                 /\ (snd term == w)%Q)
    expr.
Proof.
  induction expr as [|term expr IH]; cbn [SpinOperator.eqb].
  - split; [constructor | reflexivity].
  - destruct (WeightedSet.at_ SpinValue.eqb (fst term) other) as [w|] eqn:A.
    + destruct (Qeq_bool (snd term) w) eqn:E; cbn [negb].
      * rewrite IH. split.
        -- intros H. constructor; [|exact H].
           exists w. split; [exact A | now apply Qeq_bool_iff].
        -- intros H. now inversion H.
      * split; [discriminate|]. intros H. inversion H as [|? ? (w' & A' & E') _].
        rewrite A in A'. injection A' as <-.
        apply Qeq_bool_iff in E'. congruence.
    + split; [discriminate|]. intros H. inversion H as [|? ? (w' & A' & _) _].
      congruence.
Qed.

(** X7: [SpinOperator::operator==] is one-sided.  It returns true exactly
    when every outcome of the left operand is an outcome of the right
    operand with an equal weight; outcomes that only the right operand has
    are not looked at, so the empty operator equals every operator, while
    comparing an operator that has an outcome with the empty operator
    throws [std::out_of_range].  An operator that stores no outcome twice
    equals itself. *)
Theorem SpinOperator_eqb_one_sided (expr other : SpinOperator.t)
    (term : SpinValue.t * Q) :
  (SpinOperator.eqb expr other = Some true <->
   Forall
     (fun term =>
        exists w, WeightedSet.at_ SpinValue.eqb (fst term) other = Some w
                  /\ (snd term == w)%Q)
     expr) /\
  SpinOperator.eqb [] other = Some true /\
  SpinOperator.eqb (term :: expr) [] = None /\
  (WeightedSet.distinct SpinValue.eqb expr = true ->
   SpinOperator.eqb expr expr = Some true).
Proof.
  split; [apply SpinOperator_eqb_true|].
  split; [reflexivity|]. split; [reflexivity|].
  intros D. apply SpinOperator_eqb_true, Forall_forall. intros e Hin.
  exists (snd e). split; [|reflexivity].
  now apply at_distinct_entry; [apply SpinValue_eqb_refl | |].
Qed.

(** ** SpinValue: the packed word and the product *)

Lemma SpinValue_intval_sum sv :
  SpinValue.wf sv ->
  SpinValue.intval sv
  = SpinValue.score sv + 65536 * SpinValue.earned sv
    + 16777216 * SpinValue.taken sv.
Proof.
  intros (Hs & He & Ht). unfold SpinValue.intval, in_bits in *.
  destruct sv as [s e t]. cbn [SpinValue.score SpinValue.earned SpinValue.taken] in *.
  change (2 ^ 16) with 65536 in *. change (2 ^ 8) with 256 in *.
  rewrite !Z.shiftl_mul_pow2 by lia.
  change (2 ^ 16) with 65536. change (2 ^ 24) with 16777216.
  pose proof (lor_mul_add (e * 65536) t 24) as H2.
  change (2 ^ 24) with 16777216 in H2. rewrite H2 by lia. clear H2.
  pose proof (lor_mul_add s (e + 256 * t) 16) as H1.
  change (2 ^ 16) with 65536 in H1.
  replace (e * 65536 + t * 16777216) with ((e + 256 * t) * 65536) by lia.
  rewrite H1 by lia. lia.
Qed.

(** X8: the packed word of a [SpinValue].  For values whose fields are
    within their widths, [intval ()] fits 32 bits, each field is read back
    from it by a shift and a mask, and [operator==], the comparison of the
    two words, holds exactly when score, earned and taken all agree. *)
Theorem SpinValue_intval_fields (a b : SpinValue.t) :
  SpinValue.wf a -> SpinValue.wf b ->
  0 <= SpinValue.intval a < 2 ^ 32 /\
  SpinValue.score a = bits 16 (SpinValue.intval a) /\
  SpinValue.earned a = bits 8 (Z.shiftr (SpinValue.intval a) 16) /\
  SpinValue.taken a = bits 8 (Z.shiftr (SpinValue.intval a) 24) /\
  ((SpinValue.intval a =? SpinValue.intval b) = SpinValue.eqb a b) /\
  (SpinValue.intval a = SpinValue.intval b <-> a = b).
Proof.
  intros Wa Wb.
  rewrite !Z.shiftr_div_pow2 by lia.
  rewrite (SpinValue_intval_sum a Wa), (SpinValue_intval_sum b Wb).
  destruct Wa as (Hs & He & Ht), Wb as (Hs' & He' & Ht').
  destruct a as [s e t], b as [s' e' t']. unfold in_bits, bits in *.
  cbn [SpinValue.score SpinValue.earned SpinValue.taken] in *.
  change (2 ^ 16) with 65536 in *. change (2 ^ 8) with 256 in *.
  change (2 ^ 24) with 16777216. change (2 ^ 32) with 4294967296.
  assert (I : s + 65536 * e + 16777216 * t = s' + 65536 * e' + 16777216 * t'
              <-> SpinValue.mk s e t = SpinValue.mk s' e' t').
  { split.
    - intros H. assert (t = t') by lia. assert (e = e') by lia.
      assert (s = s') by lia. congruence.
    - intros H. injection H as -> -> ->. reflexivity. }
  split; [lia|].
  split; [apply Z.mod_unique with (q := e + 256 * t); lia|].
  split.
  { replace ((s + 65536 * e + 16777216 * t) / 65536) with (e + 256 * t)
      by (apply Z.div_unique with (r := s); lia).
    apply Z.mod_unique with (q := t); lia. }
  split.
  { replace ((s + 65536 * e + 16777216 * t) / 16777216) with t
      by (apply Z.div_unique with (r := s + 65536 * e); lia).
    symmetry. apply Z.mod_small. lia. }
  split; [|exact I].
  apply Bool.eq_true_iff_eq. rewrite Z.eqb_eq, I. symmetry.
  apply SpinValue_eqb_eq.
Qed.

Lemma SpinValue_intval_fields_witness :
  let a := SpinValue.SpinValue3 4000 1 1 in
  SpinValue.intval a = 4000 + 65536 + 16777216 /\
  SpinValue.earned a = bits 8 (Z.shiftr (SpinValue.intval a) 16).
Proof.
  intros a. split; [reflexivity|].
  apply (SpinValue_intval_fields a a); apply wf_SpinValue3.
Defined.

(** X9: outcomes that are not whammies form a commutative semigroup under
    [operator*].  For values whose fields are within their widths and whose
    scores are not 0, the product is again not a whammy, does not depend on
    the order of the two factors, and is associative. *)
Theorem SpinValue_mul_comm_no_whammy (a b c : SpinValue.t) :
  SpinValue.wf a -> SpinValue.wf b -> SpinValue.wf c ->
  SpinValue.whammy a = false -> SpinValue.whammy b = false ->
  SpinValue.whammy c = false ->
  SpinValue.whammy (SpinValue.mul a b) = false /\
  SpinValue.mul a b = SpinValue.mul b a /\
  SpinValue.mul a (SpinValue.mul b c) = SpinValue.mul (SpinValue.mul a b) c.
Proof.
  intros Wa Wb Wc Na Nb Nc. split; [|split].
  - rewrite (mul_no_whammy a b Wa Wb Nb Na). apply whammy_false.
    apply whammy_false in Na, Nb. destruct Wa as (Sa & _), Wb as (Sb & _).
    unfold in_bits, SpinValue.MaxScore in *. cbn [SpinValue.score]. lia.
  - rewrite (mul_no_whammy a b Wa Wb Nb Na), (mul_no_whammy b a Wb Wa Na Nb).
    f_equal; f_equal; apply Z.add_comm.
  - apply mul_assoc_unless_leading_whammy; try assumption.
    intros (H & _). congruence.
Qed.

Lemma SpinValue_mul_comm_no_whammy_witness :
  let B := SpinValue.SpinValue3 1000 1 1 in
  let C := SpinValue.SpinValue3 2000 0 1 in
  SpinValue.mul B C = SpinValue.mul C B /\
  SpinValue.mul B C = SpinValue.mk 3000 1 2.
Proof.
  intros B C. split; [|reflexivity].
  apply (SpinValue_mul_comm_no_whammy B C C);
    solve [apply wf_SpinValue3 | reflexivity].
Defined.

(** ** Players and states *)

(** X10: [operator==] on players and on states compares every field.  A
    player whose fields are within their widths is read back from the word
    [hash ()] returns, field by field; so two such players compare equal
    exactly when all six fields agree, and two states of such players
    compare equal exactly when they are the same state: the node cache
    never merges two different states. *)
Theorem State_eqb_structural (p q : Player.t) (s1 s2 : State.t) :
  Player.wf p -> Player.wf q -> State.wf s1 -> State.wf s2 ->
  0 <= Player.hash p < 2 ^ 32 /\
  Player.score p = bits 16 (Player.hash p) /\
  Player.earned p = bits 4 (Z.shiftr (Player.hash p) 16) /\
  Player.passed p = bits 4 (Z.shiftr (Player.hash p) 20) /\
  Player.whammies p = bits 4 (Z.shiftr (Player.hash p) 24) /\
  Player.up p = bits 2 (Z.shiftr (Player.hash p) 28) /\
  Player.reserved p = Z.shiftr (Player.hash p) 30 /\
  (Player.eqb p q = true <-> p = q) /\
  (State.eqb s1 s2 = true <-> s1 = s2).
Proof.
  intros Wp Wq W1 W2.
  rewrite !Z.shiftr_div_pow2 by lia. rewrite (Player_hash_sum p Wp).
  pose proof (Player_eqb_eq p q Wp Wq) as Ep.
  pose proof (State_eqb_eq s1 s2 W1 W2) as Es.
  destruct p as [s e pa w u r]. field_ranges. unfold bits.
  cbn [Player.score Player.earned Player.passed Player.whammies Player.up
       Player.reserved] in *.
  change (2 ^ 16) with 65536. change (2 ^ 20) with 1048576.
  change (2 ^ 24) with 16777216. change (2 ^ 28) with 268435456.
  change (2 ^ 30) with 1073741824. change (2 ^ 32) with 4294967296.
  change (2 ^ 4) with 16. change (2 ^ 2) with 4.
  set (h := s + 65536 * e + 1048576 * pa + 16777216 * w + 268435456 * u
            + 1073741824 * r).
  assert (D16 : h / 65536 = e + 16 * pa + 256 * w + 4096 * u + 16384 * r)
    by (symmetry; apply Z.div_unique with (r := s); subst h; lia).
  assert (D20 : h / 1048576 = pa + 16 * w + 256 * u + 1024 * r)
    by (symmetry; apply Z.div_unique with (r := s + 65536 * e); subst h; lia).
  assert (D24 : h / 16777216 = w + 16 * u + 64 * r)
    by (symmetry;
        apply Z.div_unique with (r := s + 65536 * e + 1048576 * pa);
        subst h; lia).
  assert (D28 : h / 268435456 = u + 4 * r)
    by (symmetry;
        apply Z.div_unique
          with (r := s + 65536 * e + 1048576 * pa + 16777216 * w);
        subst h; lia).
  assert (D30 : h / 1073741824 = r)
    by (symmetry;
        apply Z.div_unique
          with (r := s + 65536 * e + 1048576 * pa + 16777216 * w
                     + 268435456 * u);
        subst h; lia).
  rewrite D16, D20, D24, D28, D30.
  split; [subst h; lia|].
  split.
  { apply Z.mod_unique
      with (q := e + 16 * pa + 256 * w + 4096 * u + 16384 * r);
      subst h; lia. }
  split.
  { apply Z.mod_unique with (q := pa + 16 * w + 256 * u + 1024 * r); lia. }
  split; [apply Z.mod_unique with (q := w + 16 * u + 64 * r); lia|].
  split; [apply Z.mod_unique with (q := u + 4 * r); lia|].
  split; [apply Z.mod_unique with (q := r); lia|].
  split; [reflexivity|]. split; [exact Ep | exact Es].
Qed.

Lemma State_eqb_structural_witness :
  let p := Player.mk 8000 3 0 1 0 0 in
  let q := Player.mk 8000 3 0 0 0 0 in
  let s := State.mk (Player.mk 0 0 0 0 1 0) p q in
  Player.whammies p = bits 4 (Z.shiftr (Player.hash p) 24) /\
  Player.eqb p q = false /\ (State.eqb s s = true <-> s = s).
Proof.
  intros p q s.
  assert (Wp : Player.wf p) by (unfold Player.wf, in_bits; cbn; lia).
  assert (Wq : Player.wf q) by (unfold Player.wf, in_bits; cbn; lia).
  assert (Ws : State.wf s).
  { repeat split; try (cbn; lia). }
  destruct (State_eqb_structural p q s s Wp Wq Ws Ws)
    as (_ & _ & _ & _ & H & _ & _ & _ & E).
  split; [exact H|]. split; [reflexivity | exact E].
Defined.

Lemma find_012 (f : Z -> bool) :
  match find f [0; 1; 2] with
  | Some i => 0 <= i < 3 /\ f i = true /\ forall k, 0 <= k < i -> f k = false
  | None => forall k, 0 <= k < 3 -> f k = false
  end.
Proof.
  cbn [find]. destruct (f 0) eqn:F0.
  { split; [lia|]. split; [exact F0|]. intros k Hk. lia. }
  destruct (f 1) eqn:F1.
  { split; [lia|]. split; [exact F1|]. intros k Hk.
    assert (k = 0) by lia. now subst. }
  destruct (f 2) eqn:F2.
  { split; [lia|]. split; [exact F2|]. intros k Hk.
    assert (C : k = 0 \/ k = 1) by lia. destruct C; now subst. }
  intros k Hk. assert (C : k = 0 \/ k = 1 \/ k = 2) by lia.
  destruct C as [-> | [-> | ->]]; assumption.
Qed.

Lemma bits2_small x : 0 <= x < 3 -> bits 2 x = x.
Proof. intros H. apply bits_small. unfold in_bits. change (2 ^ 2) with 4. lia. Qed.

Lemma spins_nonneg p : 0 <= Player.spins p.
Proof.
  unfold Player.spins, u32, UINT_MOD. apply Z.mod_pos_bound. reflexivity.
Qed.

Lemma player_set_up_other s u k :
  k <> 0 -> State.player (State.set_up s u) k = State.player s k.
Proof.
  intros N. unfold State.set_up, State.set_player, State.player. cbn [Z.eqb].
  destruct (k =? 0) eqn:E; [apply Z.eqb_eq in E; contradiction|].
  destruct (k =? 1); reflexivity.
Qed.

Lemma player_set_up_0 s u :
  State.player (State.set_up s u) 0 = Player.set_up (State.players0 s) u.
Proof. reflexivity. Qed.

Lemma spins_set_up p u : Player.spins (Player.set_up p u) = Player.spins p.
Proof. reflexivity. Qed.

Lemma spins_player_set_up s u k :
  Player.spins (State.player (State.set_up s u) k)
  = Player.spins (State.player s k).
Proof.
  destruct (Z.eq_dec k 0) as [-> | N].
  - rewrite player_set_up_0. reflexivity.
  - now rewrite player_set_up_other.
Qed.

Lemma up_num_set_up s u : 0 <= u < 3 -> State.up_num (State.set_up s u) = u.
Proof. intros H. unfold State.up_num. cbn. now apply bits2_small. Qed.

(** The three ways [change_player] goes. *)
Lemma change_player_cases s :
  (Player.spins (State.up s) <> 0 /\ State.change_player s = s) \/
  (Player.spins (State.up s) = 0 /\
   (forall k, 0 <= k < 3 -> Player.spins (State.player s k) = 0) /\
   State.change_player s = s) \/
  (Player.spins (State.up s) = 0 /\
   exists i, 0 <= i < 3 /\ 0 < Player.spins (State.player s i) /\
     (forall k, 0 <= k < i -> Player.spins (State.player s k) = 0) /\
     State.change_player s = State.set_up s i).
Proof.
  unfold State.change_player.
  destruct (Z.eqb_spec (Player.spins (State.up s)) 0) as [E | N]; [|auto].
  right.
  pose proof (find_012 (fun i => Player.spins (State.player s i) >? 0)) as F.
  destruct (find _ _) as [i|].
  - right. split; [exact E|]. destruct F as (R & P & L). exists i.
    split; [exact R|]. split; [apply Z.gtb_lt in P; lia|].
    split; [|reflexivity]. intros k Hk. specialize (L k Hk). cbv beta in L.
    pose proof (spins_nonneg (State.player s k)).
    destruct (Z.gtb_spec (Player.spins (State.player s k)) 0); [discriminate|lia].
  - left. split; [exact E|]. split; [|reflexivity]. intros k Hk.
    specialize (F k Hk). cbv beta in F.
    pose proof (spins_nonneg (State.player s k)).
    destruct (Z.gtb_spec (Player.spins (State.player s k)) 0); [discriminate|lia].
Qed.

Lemma wf_set_up s u : State.wf s -> 0 <= u < 3 -> State.wf (State.set_up s u).
Proof.
  intros (W0 & W1 & W2 & _) Hu. unfold State.wf.
  rewrite (up_num_set_up s u Hu). unfold State.num_players.
  destruct s as [p0 p1 p2]. unfold State.set_up, State.set_player.
  cbn [Z.eqb State.players0 State.players1 State.players2] in *.
  split; [|split; [exact W1 | split; [exact W2 | lia]]].
  destruct W0 as (A & B & C & D & E & F). unfold Player.wf, Player.set_up.
  cbn [Player.score Player.earned Player.passed Player.whammies Player.up
       Player.reserved].
  rewrite (bits2_small u Hu).
  split; [exact A|]. split; [exact B|]. split; [exact C|]. split; [exact D|].
  split; [|exact F]. unfold in_bits. change (2 ^ 2) with 4. lia.
Qed.

Lemma wf_up_num s : State.wf s -> 0 <= State.up_num s < 3.
Proof.
  intros (W0 & _ & _ & H). destruct W0 as (_ & _ & _ & _ & (L & _) & _).
  unfold State.up_num, State.num_players in *. lia.
Qed.

(** X11: who is who.  In a state with a turn index below 3, the player up
    and the two opponents are the three players; [passee ()] and
    [standby ()] are the two opponents, the passee the one with the higher
    score and the first opponent in turn order on a tie; so [lead ()] is
    the score of the player up minus the highest opposing score, and
    [third_place ()] says that the player up has less than the standby. *)
Theorem State_roles (s : State.t) :
  State.wf s ->
  let u := State.up_num s in
  let a := State.opponent_num s 0 in
  let b := State.opponent_num s 1 in
  Permutation [u; a; b] [0; 1; 2] /\
  a = (u + 1) mod 3 /\ b = (u + 2) mod 3 /\
  ((State.passee_num s = a /\ State.standby_num s = b) \/
   (State.passee_num s = b /\ State.standby_num s = a)) /\
  Player.score (State.standby s) <= Player.score (State.passee s) /\
  (Player.score (State.opponent s 0) = Player.score (State.opponent s 1) ->
   State.passee_num s = a) /\
  State.lead s
  = Player.score (State.up s)
    - Z.max (Player.score (State.opponent s 0)) (Player.score (State.opponent s 1)) /\
  State.third_place s
  = (Player.score (State.up s) <? Player.score (State.standby s)).
Proof.
  intros W u a b. subst u a b.
  assert (P : Permutation [State.up_num s; State.opponent_num s 0;
                           State.opponent_num s 1] [0; 1; 2]).
  { destruct (opponent_num_cases s W) as [(-> & -> & ->) | [(-> & -> & ->) | (-> & -> & ->)]].
    - apply Permutation_refl.
    - apply Permutation_sym.
      apply (Permutation_cons_app [1; 2] [] 0). apply Permutation_refl.
    - apply Permutation_sym.
      apply (Permutation_cons_app [2] [1] 0).
      apply (Permutation_cons_app [2] [] 1). apply Permutation_refl. }
  split; [exact P|].
  split.
  { destruct (opponent_num_cases s W) as [(-> & -> & _) | [(-> & -> & _) | (-> & -> & _)]];
      reflexivity. }
  split.
  { destruct (opponent_num_cases s W) as [(-> & _ & ->) | [(-> & _ & ->) | (-> & _ & ->)]];
      reflexivity. }
  unfold State.passee, State.standby, State.passee_num, State.standby_num,
    State.lead, State.third_place.
  fold (State.opponent s 0). fold (State.opponent s 1).
  rewrite Z.geb_leb.
  destruct (Z.leb_spec (Player.score (State.opponent s 1))
                       (Player.score (State.opponent s 0))) as [L | L];
    fold (State.opponent s 0); fold (State.opponent s 1).
  - split; [auto|]. split; [exact L|]. split; [reflexivity|].
    split; [now rewrite passee_score|].
    destruct (Z.ltb_spec (Player.score (State.up s)) (Player.score (State.opponent s 0)));
      destruct (Z.ltb_spec (Player.score (State.up s)) (Player.score (State.opponent s 1)));
      cbn [andb]; solve [reflexivity | lia].
  - split; [auto|]. split; [lia|]. split; [lia|].
    split; [now rewrite passee_score|].
    destruct (Z.ltb_spec (Player.score (State.up s)) (Player.score (State.opponent s 0)));
      destruct (Z.ltb_spec (Player.score (State.up s)) (Player.score (State.opponent s 1)));
      cbn [andb]; solve [reflexivity | lia].
Qed.

Lemma State_roles_witness :
  let s := State.mk (Player.mk 0 0 0 0 1 0) (Player.mk 2000 3 0 0 0 0)
                    (Player.mk 3500 2 0 0 0 0) in
  State.passee_num s = 2 /\ State.standby_num s = 0 /\ State.lead s = -1500.
Proof.
  intros s.
  assert (W : State.wf s).
  { unfold State.wf, Player.wf, in_bits, State.num_players. cbn. lia. }
  destruct (State_roles s W) as (_ & _ & _ & _ & _ & _ & L & _).
  split; [reflexivity|]. split; [reflexivity|]. rewrite L. reflexivity.
Defined.

Lemma change_player_first s i :
  Player.spins (State.up s) = 0 -> 0 <= i < 3 ->
  0 < Player.spins (State.player s i) ->
  (forall k, 0 <= k < i -> Player.spins (State.player s k) = 0) ->
  State.change_player s = State.set_up s i.
Proof.
  intros E R P L.
  destruct (change_player_cases s)
    as [(N & _) | [(_ & Z0 & _) | (_ & j & Rj & Pj & Lj & ->)]].
  - contradiction.
  - rewrite (Z0 i R) in P. lia.
  - f_equal. destruct (Z.lt_trichotomy i j) as [Lt | [Eq | Gt]]; [|now symmetry|].
    + rewrite (Lj i) in P by lia. lia.
    + rewrite (L j) in Pj by lia. lia.
Qed.

Lemma total_spins_pos s :
  0 < State.total_spins s ->
  exists k, 0 <= k < 3 /\ 0 < Player.spins (State.player s k).
Proof.
  unfold State.total_spins, State.spins. intros H.
  pose proof (spins_nonneg (State.players0 s)).
  pose proof (spins_nonneg (State.players1 s)).
  pose proof (spins_nonneg (State.players2 s)).
  destruct (Z.eq_dec (Player.spins (State.players0 s)) 0) as [E0 | N0];
    [|exists 0; split; [lia | change (State.player s 0) with (State.players0 s); lia]].
  destruct (Z.eq_dec (Player.spins (State.players1 s)) 0) as [E1 | N1];
    [|exists 1; split; [lia | change (State.player s 1) with (State.players1 s); lia]].
  destruct (Z.eq_dec (Player.spins (State.players2 s)) 0) as [E2 | N2];
    [|exists 2; split; [lia | change (State.player s 2) with (State.players2 s); lia]].
  rewrite E0, E1, E2 in H. vm_compute in H. discriminate.
Qed.

Lemma change_player_up_has_spin s :
  0 < State.total_spins s -> 0 < Player.spins (State.up (State.change_player s)).
Proof.
  intros H. destruct (total_spins_pos s H) as (k & Rk & Pk).
  destruct (change_player_cases s)
    as [(N & ->) | [(_ & Z0 & _) | (_ & i & R & P & _ & ->)]].
  - pose proof (spins_nonneg (State.up s)). lia.
  - rewrite (Z0 k Rk) in Pk. lia.
  - unfold State.up. now rewrite (up_num_set_up s i R), spins_player_set_up.
Qed.

(** X12: [change_player].  On a state with a turn index below 3: the
    result has a turn index below 3 and differs from the state at most in
    the turn index; the state is unchanged when the player up has a spin
    and when no player has one; otherwise the turn goes to the player with
    the lowest index who has a spin.  Afterwards the player up has a spin
    whenever any player has one, and a second [change_player] changes
    nothing. *)
Theorem State_change_player_spec (s : State.t) :
  State.wf s ->
  let s' := State.change_player s in
  State.wf s' /\
  s' = State.set_up s (State.up_num s') /\
  (0 < Player.spins (State.up s) -> s' = s) /\
  ((forall k, 0 <= k < 3 -> Player.spins (State.player s k) = 0) -> s' = s) /\
  (Player.spins (State.up s) = 0 ->
   forall i, 0 <= i < 3 -> 0 < Player.spins (State.player s i) ->
     (forall k, 0 <= k < i -> Player.spins (State.player s k) = 0) ->
     State.up_num s' = i) /\
  (0 < State.total_spins s -> 0 < Player.spins (State.up s')) /\
  State.change_player s' = s'.
Proof.
  intros W s'. subst s'.
  pose proof (wf_up_num s W) as Hu.
  assert (Same : State.set_up s (State.up_num s) = s).
  { destruct s as [[s0 e0 p0 w0 u0 r0] p1 p2].
    unfold State.set_up, State.set_player, Player.set_up, State.up_num in *.
    cbn [Z.eqb State.players0 State.players1 State.players2 Player.score
         Player.earned Player.passed Player.whammies Player.up
         Player.reserved] in *.
    now rewrite (bits2_small u0 Hu). }
  pose proof (total_spins_pos s) as Tot.
  destruct (change_player_cases s) as [(N & ->) | [(E & Z0 & ->) | (E & i & R & P & L & ->)]].
  - (* the player up has a spin *)
    split; [exact W|]. split; [now rewrite Same|].
    split; [reflexivity|]. split; [reflexivity|].
    split; [intros E; contradiction|].
    split.
    { intros _. pose proof (spins_nonneg (State.up s)). lia. }
    destruct (change_player_cases s) as [(_ & H) | [(_ & _ & H) | (E & _)]];
      [exact H | exact H | contradiction].
  - (* nobody has a spin *)
    split; [exact W|]. split; [now rewrite Same|].
    split; [reflexivity|]. split; [reflexivity|].
    split.
    { intros _ i R P. rewrite (Z0 i R) in P. lia. }
    split.
    { intros H. destruct (Tot H) as (k & R & P). rewrite (Z0 k R) in P. lia. }
    destruct (change_player_cases s) as [(_ & H) | [(_ & _ & H) | (_ & j & Rj & Pj & _)]];
      [exact H | exact H | rewrite (Z0 j Rj) in Pj; lia].
  - (* the turn goes to player i *)
    pose proof (up_num_set_up s i R) as U.
    assert (Up : 0 < Player.spins (State.up (State.set_up s i))).
    { unfold State.up. rewrite U, spins_player_set_up. exact P. }
    split; [now apply wf_set_up|]. split; [now rewrite U|].
    split; [intros H; lia|].
    split; [intros Z0; rewrite (Z0 i R) in P; lia|].
    split.
    { intros _ j Rj Pj Lj. rewrite U.
      destruct (Z.lt_trichotomy i j) as [Lt | [Eq | Gt]]; [|exact Eq|].
      - rewrite (Lj i) in P by lia. lia.
      - rewrite (L j) in Pj by lia. lia. }
    split; [intros _; exact Up|].
    destruct (change_player_cases (State.set_up s i))
      as [(_ & H) | [(E' & _) | (E' & _)]]; [exact H | lia | lia].
Qed.

Lemma State_change_player_spec_witness :
  let s := State.mk (Player.mk 0 0 0 0 0 0) (Player.mk 2000 3 0 0 0 0)
                    (Player.mk 3500 2 0 0 0 0) in
  State.up_num (State.change_player s) = 1 /\
  0 < Player.spins (State.up (State.change_player s)).
Proof.
  intros s.
  assert (W : State.wf s).
  { unfold State.wf, Player.wf, in_bits, State.num_players. cbn. lia. }
  destruct (State_change_player_spec s W) as (_ & _ & _ & _ & _ & H & _).
  split; [reflexivity|]. apply H. reflexivity.
Defined.

(** ** Spinning *)

Lemma set_player_player s i : State.set_player s i (State.player s i) = s.
Proof.
  destruct s as [p0 p1 p2]. unfold State.set_player, State.player.
  destruct (i =? 0); [reflexivity|]. destruct (i =? 1); reflexivity.
Qed.

(** [operator*] in stages: the record of the player up, the turn, the copy
    of the record of the player who is up then into the slot of the player
    who spun, and the reset of the whammy count in that slot. *)
Lemma spin_stages opv sv :
  State.spin opv sv
  = let i := State.up_num sv in
    let res := State.change_player (State.spin_update opv sv) in
    let res := State.set_player res i (State.player res (State.up_num res)) in
    State.set_player res i
      (State.reset_whammies (State.total_spins res) (State.player res i)).
Proof.
  unfold State.spin, State.spin_update, State.spin_record,
    State.reset_whammies. cbv zeta.
  destruct (_ <? _); [reflexivity|].
  symmetry. apply set_player_player.
Qed.

Ltac player_fields :=
  cbn [Player.score Player.earned Player.passed Player.whammies Player.up
       Player.reserved Player.set_score Player.set_earned Player.set_passed
       Player.set_whammies Player.set_up].

Lemma wf_set_score p v : Player.wf p -> Player.wf (Player.set_score p v).
Proof.
  intros (A & B & C & D & E & F). unfold Player.wf, Player.set_score.
  player_fields.
  repeat match goal with |- _ /\ _ => split end;
    try assumption; apply bits_range; lia.
Qed.

Lemma wf_set_earned p v : Player.wf p -> Player.wf (Player.set_earned p v).
Proof.
  intros (A & B & C & D & E & F). unfold Player.wf, Player.set_earned.
  player_fields.
  repeat match goal with |- _ /\ _ => split end;
    try assumption; apply bits_range; lia.
Qed.

Lemma wf_set_passed p v : Player.wf p -> Player.wf (Player.set_passed p v).
Proof.
  intros (A & B & C & D & E & F). unfold Player.wf, Player.set_passed.
  player_fields.
  repeat match goal with |- _ /\ _ => split end;
    try assumption; apply bits_range; lia.
Qed.

Lemma wf_set_whammies p v : Player.wf p -> Player.wf (Player.set_whammies p v).
Proof.
  intros (A & B & C & D & E & F). unfold Player.wf, Player.set_whammies.
  player_fields.
  repeat match goal with |- _ /\ _ => split end;
    try assumption; apply bits_range; lia.
Qed.

Lemma wf_take_spins p count :
  Player.wf p -> Player.wf (Player.take_spins p count).
Proof.
  intros W. unfold Player.take_spins.
  destruct (_ =? _); [now apply wf_set_passed|].
  destruct (_ >? _); [now apply wf_set_passed|].
  destruct (_ <? _); [|exact W].
  now apply wf_set_passed, wf_set_earned.
Qed.

Lemma up_take_spins p count :
  Player.up (Player.take_spins p count) = Player.up p
  /\ Player.reserved (Player.take_spins p count) = Player.reserved p
  /\ Player.score (Player.take_spins p count) = Player.score p
  /\ Player.whammies (Player.take_spins p count) = Player.whammies p.
Proof.
  unfold Player.take_spins.
  destruct (_ =? _); [repeat split|].
  destruct (_ >? _); [repeat split|].
  destruct (_ <? _); repeat split.
Qed.

Lemma wf_spin_record opv p :
  Player.wf p -> Player.wf (State.spin_record opv p).
Proof.
  intros W. unfold State.spin_record. cbv zeta.
  pose proof (wf_take_spins p (SpinValue.taken opv) W) as Wt.
  destruct (SpinValue.whammy opv).
  - destruct (Player.out _).
    + now apply wf_set_earned, wf_set_whammies, wf_set_passed, wf_set_earned,
        wf_set_score.
    + now apply wf_set_whammies, wf_set_passed, wf_set_earned, wf_set_score.
  - now apply wf_set_earned, wf_set_score.
Qed.

Lemma up_spin_record opv p :
  Player.up (State.spin_record opv p) = Player.up p
  /\ Player.reserved (State.spin_record opv p) = Player.reserved p.
Proof.
  unfold State.spin_record. cbv zeta.
  destruct (up_take_spins p (SpinValue.taken opv)) as (U & R & _).
  destruct (SpinValue.whammy opv); [destruct (Player.out _)|];
    player_fields; auto.
Qed.

Lemma wf_reset_whammies total p :
  Player.wf p -> Player.wf (State.reset_whammies total p).
Proof.
  intros W. unfold State.reset_whammies.
  destruct (_ <? _); [now apply wf_set_whammies | exact W].
Qed.

Lemma reset_whammies_fields total p :
  let p' := State.reset_whammies total p in
  Player.score p' = Player.score p /\ Player.earned p' = Player.earned p /\
  Player.passed p' = Player.passed p /\ Player.up p' = Player.up p /\
  Player.reserved p' = Player.reserved p /\
  (Player.whammies p' = Player.whammies p \/ Player.whammies p' = 0).
Proof.
  unfold State.reset_whammies. destruct (_ <? _); cbn; auto 10.
Qed.

Lemma set_up_same s : State.wf s -> State.set_up s (State.up_num s) = s.
Proof.
  intros W. pose proof (wf_up_num s W) as Hu.
  destruct s as [[s0 e0 p0 w0 u0 r0] p1 p2].
  unfold State.set_up, State.set_player, Player.set_up, State.up_num in *.
  cbn [Z.eqb State.players0 State.players1 State.players2 Player.score
       Player.earned Player.passed Player.whammies Player.up
       Player.reserved] in *.
  now rewrite (bits2_small u0 Hu).
Qed.

(** [change_player] is an assignment to the turn index, of a value below 3. *)
Lemma change_player_set_up s :
  State.wf s ->
  exists u, 0 <= u < 3 /\ State.change_player s = State.set_up s u.
Proof.
  intros W. pose proof (wf_up_num s W) as Hu.
  destruct (change_player_cases s)
    as [(_ & ->) | [(_ & _ & ->) | (_ & i & R & _ & _ & ->)]].
  - exists (State.up_num s). split; [exact Hu | now rewrite set_up_same].
  - exists (State.up_num s). split; [exact Hu | now rewrite set_up_same].
  - exists i. auto.
Qed.

Lemma wf_set_player s i p :
  State.wf s -> Player.wf p -> Player.up p = Player.up (State.player s i) ->
  State.wf (State.set_player s i p).
Proof.
  intros (W0 & W1 & W2 & U) Wp Up. unfold State.wf.
  rewrite (up_num_set_player s i p Up).
  destruct s as [p0 p1 p2]. unfold State.set_player.
  destruct (i =? 0); [|destruct (i =? 1)];
    cbn [State.players0 State.players1 State.players2] in *; auto.
Qed.

Lemma up_num_set_player_other s i p :
  0 < i -> State.up_num (State.set_player s i p) = State.up_num s.
Proof.
  intros H. unfold State.up_num, State.set_player.
  destruct (Z.eqb_spec i 0); [lia|]. destruct (i =? 1); reflexivity.
Qed.

Lemma set_player_twice s i p q :
  State.set_player (State.set_player s i p) i q = State.set_player s i q.
Proof.
  unfold State.set_player. destruct (i =? 0); [reflexivity|].
  destruct (i =? 1); reflexivity.
Qed.

Lemma wf_spin_update opv s : State.wf s -> State.wf (State.spin_update opv s).
Proof.
  intros W. unfold State.spin_update.
  apply wf_set_player; [exact W | apply wf_spin_record, wf_player, W|].
  apply up_spin_record.
Qed.

Lemma up_num_spin_update opv s :
  State.up_num (State.spin_update opv s) = State.up_num s.
Proof. unfold State.spin_update. apply up_num_set_player, up_spin_record. Qed.

Lemma player_spin_update opv s k :
  State.wf s -> 0 <= k < 3 ->
  State.player (State.spin_update opv s) k
  = if k =? State.up_num s then State.spin_record opv (State.up s)
    else State.player s k.
Proof.
  intros W Rk. pose proof (wf_up_num s W) as Ru. unfold State.spin_update.
  destruct (Z.eqb_spec k (State.up_num s)) as [-> | N].
  - now rewrite player_set_player_same.
  - now rewrite player_set_player_other.
Qed.

Lemma set_up_fields p u :
  Player.score (Player.set_up p u) = Player.score p /\
  Player.earned (Player.set_up p u) = Player.earned p /\
  Player.passed (Player.set_up p u) = Player.passed p /\
  Player.whammies (Player.set_up p u) = Player.whammies p /\
  Player.reserved (Player.set_up p u) = Player.reserved p.
Proof. repeat split. Qed.

(** X13: a spin leaves the other players alone.  In a state with a turn
    index below 3, [operator* (SpinValue, State)] changes no score, no
    earned or passed spins, no whammy count of a player who is not up, and
    nothing at all of such a player other than [players[0]], whose [up]
    field holds the turn. *)
Theorem State_spin_frame (opv : SpinValue.t) (s : State.t) (k : Z) :
  State.wf s -> 0 <= k < 3 -> k <> State.up_num s ->
  let p := State.player s k in
  let p' := State.player (State.spin opv s) k in
  Player.score p' = Player.score p /\ Player.earned p' = Player.earned p /\
  Player.passed p' = Player.passed p /\ Player.whammies p' = Player.whammies p /\
  Player.reserved p' = Player.reserved p /\
  (k <> 0 -> p' = p).
Proof.
  intros W Rk Nk p p'. subst p p'.
  pose proof (wf_up_num s W) as Ru.
  rewrite spin_stages. cbv zeta.
  rewrite !player_set_player_other by (try assumption; congruence).
  destruct (change_player_set_up _ (wf_spin_update opv s W)) as (u & Hu & ->).
  destruct (Z.eq_dec k 0) as [-> | N0].
  - rewrite player_set_up_0.
    change (State.players0 (State.spin_update opv s))
      with (State.player (State.spin_update opv s) 0).
    rewrite (player_spin_update opv s 0 W Rk).
    destruct (Z.eqb_spec 0 (State.up_num s)) as [E | _]; [congruence|].
    repeat split. intros H. contradiction.
  - rewrite player_set_up_other by exact N0.
    rewrite (player_spin_update opv s k W Rk).
    destruct (Z.eqb_spec k (State.up_num s)) as [E | _]; [congruence|].
    repeat split.
Qed.

Lemma State_spin_frame_witness :
  let s := State.mk (Player.mk 0 0 0 0 1 0) (Player.mk 2000 3 0 0 0 0)
                    (Player.mk 3500 2 0 0 0 0) in
  State.player (State.spin (SpinValue.SpinValue3 1000 1 1) s) 2
  = State.player s 2.
Proof.
  intros s.
  assert (W : State.wf s).
  { unfold State.wf, Player.wf, in_bits, State.num_players. cbn. lia. }
  apply (State_spin_frame (SpinValue.SpinValue3 1000 1 1) s 2 W);
    [lia | discriminate | discriminate].
Defined.

(** X14: the copy at a change of turn.  [up = res.up()] assigns through
    the reference [up], which still refers to the slot of the player who
    spun.  So when that player has no spin left after the outcome and
    another player [j] has one ([j] the first such player by index), the
    slot of the player who spun ends with the score, the earned and the
    passed spins of player [j] (and the whammy count of [j], or 0); the
    result of the spin for the player who spun is lost.  When the player
    who spun is [players[0]], whose [up] field is the turn index, the turn
    index becomes the [up] field of player [j]. *)
Theorem State_spin_copies_next_player (opv : SpinValue.t) (s : State.t)
    (j : Z) :
  State.wf s ->
  let i := State.up_num s in
  Player.spins (State.spin_record opv (State.up s)) = 0 ->
  0 <= j < 3 -> j <> i -> 0 < Player.spins (State.player s j) ->
  (forall k, 0 <= k < j -> k <> i -> Player.spins (State.player s k) = 0) ->
  let s' := State.spin opv s in
  Player.score (State.player s' i) = Player.score (State.player s j) /\
  Player.earned (State.player s' i) = Player.earned (State.player s j) /\
  Player.passed (State.player s' i) = Player.passed (State.player s j) /\
  (Player.whammies (State.player s' i) = Player.whammies (State.player s j)
   \/ Player.whammies (State.player s' i) = 0) /\
  State.up_num s'
  = (if i =? 0 then Player.up (State.player s j) else j).
Proof.
  intros W i E Rj Nj Pj Lj s'. subst s'.
  pose proof (wf_up_num s W) as Ri. fold i in Ri.
  set (m := State.spin_update opv s).
  assert (Pm : forall k, 0 <= k < 3 ->
             State.player m k
             = if k =? i then State.spin_record opv (State.up s)
               else State.player s k)
    by (intros k Rk; apply (player_spin_update opv s k W Rk)).
  assert (Um : State.up_num m = i) by apply up_num_spin_update.
  assert (C : State.change_player m = State.set_up m j).
  { destruct (change_player_cases m)
      as [(N & _) | [(_ & Z0 & _) | (_ & i0 & R0 & P0 & L0 & ->)]].
    - exfalso. apply N. unfold State.up. rewrite Um, (Pm i Ri), Z.eqb_refl.
      exact E.
    - exfalso. specialize (Z0 j Rj). rewrite (Pm j Rj) in Z0.
      destruct (Z.eqb_spec j i); [contradiction | lia].
    - f_equal. rewrite (Pm i0 R0) in P0.
      destruct (Z.eqb_spec i0 i) as [-> | N0]; [lia|].
      destruct (Z.lt_trichotomy i0 j) as [Lt | [Eq | Gt]]; [|exact Eq|].
      + rewrite (Lj i0) in P0 by (try assumption; lia). lia.
      + specialize (L0 j). rewrite (Pm j Rj) in L0.
        destruct (Z.eqb_spec j i); [contradiction|]. lia. }
  rewrite spin_stages. cbv zeta. fold i. fold m. rewrite C.
  rewrite (up_num_set_up m j Rj).
  set (c := State.set_up m j).
  set (r := State.set_player c i (State.player c j)).
  assert (Pc : State.player c j
               = if j =? 0 then Player.set_up (State.player s j) j
                 else State.player s j).
  { subst c. destruct (Z.eqb_spec j 0) as [-> | N0].
    - rewrite player_set_up_0.
      change (State.players0 m) with (State.player m 0).
      rewrite (Pm 0 Rj). destruct (Z.eqb_spec 0 i); [congruence | reflexivity].
    - rewrite player_set_up_other by exact N0. rewrite (Pm j Rj).
      destruct (Z.eqb_spec j i); [contradiction | reflexivity]. }
  assert (Pr : State.player r i = State.player c j)
    by (subst r; now rewrite player_set_player_same).
  rewrite player_set_player_same by exact Ri. rewrite Pr.
  destruct (reset_whammies_fields (State.total_spins r) (State.player c j))
    as (Fs & Fe & Fp & Fu & _ & Fw).
  cbv zeta in Fs, Fe, Fp, Fu, Fw.
  assert (Fc : Player.score (State.player c j) = Player.score (State.player s j)
               /\ Player.earned (State.player c j) = Player.earned (State.player s j)
               /\ Player.passed (State.player c j) = Player.passed (State.player s j)
               /\ Player.whammies (State.player c j)
                  = Player.whammies (State.player s j)).
  { rewrite Pc. destruct (j =? 0); repeat split. }
  destruct Fc as (Cs & Ce & Cp & Cw).
  split; [congruence|]. split; [congruence|]. split; [congruence|].
  split; [destruct Fw as [Fw | Fw]; [left; congruence | right; exact Fw]|].
  destruct (Z.eqb_spec i 0) as [I0 | I0].
  - rewrite I0. unfold State.up_num, State.set_player. cbn [Z.eqb State.players0].
    rewrite Fu, Pc. destruct (Z.eqb_spec j 0); [congruence | reflexivity].
  - rewrite up_num_set_player_other by lia. subst r.
    rewrite up_num_set_player_other by lia. subst c.
    now apply up_num_set_up.
Qed.

Lemma State_spin_copies_next_player_witness :
  let s := State.mk (Player.mk 0 0 0 0 1 0) (Player.mk 2000 1 0 0 0 0)
                    (Player.mk 3500 2 0 0 0 0) in
  let s' := State.spin (SpinValue.SpinValue3 500 0 1) s in
  Player.score (State.player s' 1) = 3500 /\
  Player.earned (State.player s' 1) = 2 /\
  State.player s' 2 = State.player s 2 /\ State.up_num s' = 2.
Proof.
  intros s s'.
  assert (W : State.wf s).
  { unfold State.wf, Player.wf, in_bits, State.num_players. cbn. lia. }
  destruct (State_spin_copies_next_player (SpinValue.SpinValue3 500 0 1) s 2 W)
    as (A & B & _ & _ & U).
  - reflexivity.
  - lia.
  - discriminate.
  - reflexivity.
  - intros k Hk Nk. assert (k = 0) by (cbn in Nk; lia). subst k. reflexivity.
  - split; [exact A|]. split; [exact B|]. split; [reflexivity | exact U].
Defined.

(** *** The turn index stays below 3 *)

Lemma wf_up_players s :
  State.wf_up s <->
  (Player.wf (State.players0 s) /\ Player.up (State.players0 s) < 3) /\
  (Player.wf (State.players1 s) /\ Player.up (State.players1 s) < 3) /\
  (Player.wf (State.players2 s) /\ Player.up (State.players2 s) < 3).
Proof.
  unfold State.wf_up, State.wf, State.up_num, State.num_players. tauto.
Qed.

Lemma wf_up_player s k :
  State.wf_up s ->
  Player.wf (State.player s k) /\ Player.up (State.player s k) < 3.
Proof.
  intros W. apply wf_up_players in W. destruct W as (W0 & W1 & W2).
  unfold State.player. destruct (k =? 0); [exact W0|].
  destruct (k =? 1); assumption.
Qed.

Lemma wf_up_set_player s i p :
  State.wf_up s -> Player.wf p -> Player.up p < 3 ->
  State.wf_up (State.set_player s i p).
Proof.
  intros W Wp Up. apply wf_up_players in W. destruct W as (W0 & W1 & W2).
  apply wf_up_players. destruct s as [p0 p1 p2]. unfold State.set_player.
  destruct (i =? 0); [|destruct (i =? 1)];
    cbn [State.players0 State.players1 State.players2] in *; auto.
Qed.

Lemma wf_up_set_up s u : State.wf_up s -> 0 <= u < 3 -> State.wf_up (State.set_up s u).
Proof.
  intros W Hu. unfold State.set_up. apply wf_up_set_player; [exact W| |].
  - destruct W as ((W0 & _) & _).
    destruct W0 as (A & B & C & D & E & F). unfold Player.wf, Player.set_up.
    player_fields. rewrite (bits2_small u Hu).
    repeat match goal with |- _ /\ _ => split end; try assumption.
    unfold in_bits. change (2 ^ 2) with 4. lia.
  - cbn. rewrite (bits2_small u Hu). lia.
Qed.

Lemma wf_up_change_player s : State.wf_up s -> State.wf_up (State.change_player s).
Proof.
  intros W. destruct (change_player_set_up s (proj1 W)) as (u & Hu & ->).
  now apply wf_up_set_up.
Qed.

Lemma wf_up_spin opv s : State.wf_up s -> State.wf_up (State.spin opv s).
Proof.
  intros W. rewrite spin_stages. cbv zeta.
  assert (Wm : State.wf_up (State.spin_update opv s)).
  { unfold State.spin_update.
    destruct (wf_up_player s (State.up_num s) W) as (Wp & Up).
    apply wf_up_set_player; [exact W | now apply wf_spin_record|].
    now rewrite (proj1 (up_spin_record opv _)). }
  pose proof (wf_up_change_player _ Wm) as Wc.
  set (c := State.change_player (State.spin_update opv s)) in *.
  destruct (wf_up_player c (State.up_num c) Wc) as (Wp & Up).
  pose proof (wf_up_set_player c (State.up_num s) _ Wc Wp Up) as Wr.
  set (r := State.set_player c (State.up_num s) _) in *.
  destruct (wf_up_player r (State.up_num s) Wr) as (Wq & Uq).
  apply wf_up_set_player; [exact Wr | now apply wf_reset_whammies|].
  destruct (reset_whammies_fields (State.total_spins r)
              (State.player r (State.up_num s))) as (_ & _ & _ & U & _).
  cbv zeta in U. now rewrite U.
Qed.

Lemma wf_up_pass s : State.wf_up s -> State.wf_up (State.pass s).
Proof.
  intros W. unfold State.pass. apply wf_up_change_player.
  unfold State.pass_transfer. cbv zeta.
  destruct (wf_up_player s (State.passee_num s) W) as (Wp & Up).
  pose proof (wf_up_set_player s (State.passee_num s)
                (Player.set_passed (State.player s (State.passee_num s))
                   (Player.passed (State.player s (State.passee_num s))
                    + Player.earned (State.up s)))
                W (wf_set_passed _ _ Wp) Up) as W1.
  set (s1 := State.set_player s (State.passee_num s) _) in *.
  destruct (wf_up_player s1 (State.up_num s1) W1) as (Wq & Uq).
  apply wf_up_set_player; [exact W1 | now apply wf_set_earned | exact Uq].
Qed.

(** X15: the operations keep the turn index in range.  A state in which
    every field is within its width and the [up] field of every player is
    below 3 stays such a state under [change_player], under a spin with any
    outcome and under a pass, so [players[up_num ()]] is always one of the
    three players.  (The [up] fields of [players[1]] and [players[2]]
    matter because a spin can copy either record into [players[0]].) *)
Theorem State_ops_keep_turn_index (opv : SpinValue.t) (s : State.t) :
  State.wf_up s ->
  State.wf_up (State.change_player s) /\
  State.wf_up (State.spin opv s) /\
  State.wf_up (State.pass s) /\
  0 <= State.up_num (State.spin opv s) < 3 /\
  0 <= State.up_num (State.pass s) < 3.
Proof.
  intros W.
  pose proof (wf_up_change_player s W) as A.
  pose proof (wf_up_spin opv s W) as B.
  pose proof (wf_up_pass s W) as C.
  split; [exact A|]. split; [exact B|]. split; [exact C|].
  split; apply wf_up_num; [apply B | apply C].
Qed.

Lemma State_ops_keep_turn_index_witness :
  let s := State.mk (Player.mk 0 0 0 0 1 0) (Player.mk 2000 1 0 0 0 0)
                    (Player.mk 3500 2 0 0 0 0) in
  0 <= State.up_num (State.spin (SpinValue.SpinValue3 0 0 1) s) < 3 /\
  0 <= State.up_num (State.pass s) < 3.
Proof.
  intros s.
  apply (State_ops_keep_turn_index (SpinValue.SpinValue3 0 0 1) s).
  unfold State.wf_up, State.wf, Player.wf, in_bits, State.num_players.
  cbn. lia.
Defined.

(** ** Passing and the turn *)

Lemma passee_num_range s :
  State.wf s ->
  0 <= State.passee_num s < 3 /\ State.passee_num s <> State.up_num s /\
  0 <= State.standby_num s < 3 /\ State.standby_num s <> State.up_num s /\
  State.standby_num s <> State.passee_num s.
Proof.
  intros W. unfold State.passee_num, State.standby_num.
  destruct (opponent_num_cases s W)
    as [(-> & -> & ->) | [(-> & -> & ->) | (-> & -> & ->)]];
    destruct (_ >=? _); lia.
Qed.

Lemma pass_transfer_slots s :
  State.wf s ->
  let u := State.up_num s in
  let i := State.passee_num s in
  let s' := State.pass_transfer s in
  State.player s' i
  = Player.set_passed (State.player s i)
      (Player.passed (State.player s i) + Player.earned (State.player s u)) /\
  State.player s' u = Player.set_earned (State.player s u) 0 /\
  (forall k, 0 <= k < 3 -> k <> i -> k <> u ->
     State.player s' k = State.player s k) /\
  State.up_num s' = u.
Proof.
  intros W u i s'. subst s'.
  destruct (passee_num_range s W) as (Ri & Niu & _). fold i u in Ri, Niu.
  pose proof (wf_up_num s W) as Ru. fold u in Ru.
  unfold State.pass_transfer. cbv zeta. fold i. unfold State.up.
  rewrite up_num_set_player by reflexivity. fold u.
  rewrite (player_set_player_other _ i u) by (try assumption; congruence).
  split; [|split; [|split]].
  - rewrite player_set_player_other, player_set_player_same by assumption.
    reflexivity.
  - now rewrite player_set_player_same.
  - intros k Rk Nki Nku. now rewrite !player_set_player_other by assumption.
  - rewrite up_num_set_player by
      (rewrite player_set_player_other by (try assumption; congruence);
       reflexivity).
    now rewrite up_num_set_player.
Qed.

Lemma total_spins_players s :
  State.wf s ->
  State.total_spins s
  = Player.spins (State.player s 0) + Player.spins (State.player s 1)
    + Player.spins (State.player s 2).
Proof.
  intros (W0 & W1 & W2 & _). unfold State.total_spins, State.spins.
  change (State.player s 0) with (State.players0 s).
  change (State.player s 1) with (State.players1 s).
  change (State.player s 2) with (State.players2 s).
  rewrite (spins_sum _ W0), (spins_sum _ W1), (spins_sum _ W2).
  field_ranges. apply u32_small. unfold UINT_MOD.
  change (2 ^ 32) with 4294967296. lia.
Qed.

Lemma total_spins_set_up s u :
  State.total_spins (State.set_up s u) = State.total_spins s.
Proof. reflexivity. Qed.

Lemma total_spins_change_player s :
  State.wf s -> State.total_spins (State.change_player s) = State.total_spins s.
Proof.
  intros W. destruct (change_player_set_up s W) as (u & _ & ->).
  apply total_spins_set_up.
Qed.

Lemma wf_pass_transfer s : State.wf s -> State.wf (State.pass_transfer s).
Proof.
  intros W. unfold State.pass_transfer. cbv zeta.
  assert (W1 : State.wf
                 (State.set_player s (State.passee_num s)
                    (Player.set_passed (State.player s (State.passee_num s))
                       (Player.passed (State.player s (State.passee_num s))
                        + Player.earned (State.up s))))).
  { apply wf_set_player; [exact W | apply wf_set_passed, wf_player, W|].
    reflexivity. }
  apply wf_set_player; [exact W1 | apply wf_set_earned, wf_player, W1|].
  reflexivity.
Qed.

(** X16: a pass hands the turn on.  When the player up can pass (earned
    spins, no passed spins) and the passed spins of the passee stay below
    16, then after [operator* (PassOperator, State)] the player who passed
    has no spin, the passee has the spins as passed spins on top of their
    own, the number of spins in the game is what it was, and the player who
    is up has a spin: the one with the lowest index among the players with
    spins, which is the passee if the third player has none, who then
    cannot pass them again. *)
Theorem State_pass_hands_turn (s : State.t) :
  State.wf s -> State.can_pass s = true ->
  Player.passed (State.passee s) + Player.earned (State.up s) < 16 ->
  let s' := State.pass s in
  let u := State.up_num s in
  let i := State.passee_num s in
  Player.spins (State.player s' u) = 0 /\
  Player.passed (State.player s' i)
  = Player.passed (State.passee s) + Player.earned (State.up s) /\
  State.total_spins s' = State.total_spins s /\
  0 < Player.spins (State.up s') /\
  (Player.spins (State.standby s) = 0 ->
   State.up_num s' = i /\ State.can_pass s' = false).
Proof.
  intros W CP Lt s' u i. subst s'.
  destruct (passee_num_range s W) as (Ri & Niu & Rq & Nqu & Nqi).
  fold i u in Ri, Niu, Nqu, Nqi.
  pose proof (wf_up_num s W) as Ru. fold u in Ru.
  destruct (pass_transfer_slots s W) as (Fi & Fu & Fk & Ut).
  fold i u in Fi, Fu, Fk, Ut.
  pose proof (wf_pass_transfer s W) as Wt.
  set (t := State.pass_transfer s) in *.
  unfold State.can_pass, Player.can_pass in CP. apply andb_true_iff in CP.
  destruct CP as (Ce & Cp). apply Z.gtb_lt in Ce. apply Z.eqb_eq in Cp.
  unfold State.passee, State.up in *. fold i u in Lt, Ce, Cp |- *.
  pose proof (wf_player s u W) as Wu. pose proof (wf_player s i W) as Wi.
  assert (Su : Player.spins (State.player t u) = 0).
  { rewrite Fu. unfold Player.spins. cbn. rewrite Cp. reflexivity. }
  assert (Pi : Player.passed (State.player t i)
               = Player.passed (State.player s i)
                 + Player.earned (State.player s u)).
  { rewrite Fi. cbn. apply bits4_small. field_ranges. lia. }
  assert (Si : Player.spins (State.player t i)
               = Player.spins (State.player s i)
                 + Player.earned (State.player s u)).
  { rewrite (spins_sum _ (wf_player t i Wt)), (spins_sum _ Wi), Pi.
    rewrite Fi. cbn. lia. }
  assert (Tot : State.total_spins t = State.total_spins s).
  { rewrite (total_spins_players t Wt), (total_spins_players s W).
    assert (Eu : Player.spins (State.player s u)
                 = Player.earned (State.player s u))
      by (rewrite (spins_sum _ Wu); lia).
    assert (C : (u = 0 /\ i = 1) \/ (u = 0 /\ i = 2) \/ (u = 1 /\ i = 0)
                \/ (u = 1 /\ i = 2) \/ (u = 2 /\ i = 0) \/ (u = 2 /\ i = 1))
      by lia.
    destruct C as [(Hu & Hi) | [(Hu & Hi) | [(Hu & Hi) | [(Hu & Hi) | [(Hu & Hi) | (Hu & Hi)]]]]];
      rewrite Hu, Hi in *.
    - rewrite (Fk 2) by lia. lia.
    - rewrite (Fk 1) by lia. lia.
    - rewrite (Fk 2) by lia. lia.
    - rewrite (Fk 0) by lia. lia.
    - rewrite (Fk 1) by lia. lia.
    - rewrite (Fk 0) by lia. lia. }
  unfold State.pass. fold t.
  assert (Pc : forall k, Player.spins (State.player (State.change_player t) k)
                         = Player.spins (State.player t k)).
  { intros k. destruct (change_player_set_up t Wt) as (v & _ & ->).
    apply spins_player_set_up. }
  assert (Pp : forall k, Player.passed (State.player (State.change_player t) k)
                         = Player.passed (State.player t k)
                         /\ Player.earned (State.player (State.change_player t) k)
                            = Player.earned (State.player t k)).
  { intros k. destruct (change_player_set_up t Wt) as (v & _ & ->).
    destruct (Z.eq_dec k 0) as [-> | N].
    - rewrite player_set_up_0. split; reflexivity.
    - rewrite player_set_up_other by exact N. split; reflexivity. }
  assert (St : 0 < State.total_spins t).
  { rewrite Tot, (total_spins_players s W).
    pose proof (spins_nonneg (State.player s 0)).
    pose proof (spins_nonneg (State.player s 1)).
    pose proof (spins_nonneg (State.player s 2)).
    assert (0 < Player.spins (State.player s u))
      by (rewrite (spins_sum _ Wu); field_ranges; lia).
    assert (C : u = 0 \/ u = 1 \/ u = 2) by lia.
    destruct C as [E | [E | E]]; rewrite E in *; lia. }
  split; [now rewrite Pc|].
  split; [now rewrite (proj1 (Pp i))|].
  split; [now rewrite total_spins_change_player|].
  split; [apply change_player_up_has_spin; exact St|].
  intros Sq.
  assert (Uc : State.up_num (State.change_player t) = i).
  { rewrite (change_player_first t i); [now apply up_num_set_up| | exact Ri | |].
    - unfold State.up. rewrite Ut. exact Su.
    - rewrite Si. pose proof (spins_nonneg (State.player s i)). lia.
    - intros k Hk.
      destruct (Z.eq_dec k u) as [-> | Nu]; [exact Su|].
      assert (Ek : k = State.standby_num s) by (unfold u, i in *; lia).
      rewrite (Fk k) by (try assumption; lia). rewrite Ek. exact Sq. }
  split; [exact Uc|].
  unfold State.can_pass, State.up. rewrite Uc. unfold Player.can_pass.
  rewrite (proj1 (Pp i)), Pi.
  destruct (Z.eqb_spec (Player.passed (State.player s i)
                        + Player.earned (State.player s u)) 0) as [E | _].
  - field_ranges. lia.
  - apply andb_false_r.
Qed.

Lemma State_pass_hands_turn_witness :
  let s := State.mk (Player.mk 0 0 0 0 1 0) (Player.mk 8000 3 0 0 0 0)
                    (Player.mk 3000 0 0 0 0 0) in
  State.total_spins (State.pass s) = 3 /\
  State.up_num (State.pass s) = 2 /\ State.can_pass (State.pass s) = false.
Proof.
  intros s.
  assert (W : State.wf s).
  { unfold State.wf, Player.wf, in_bits, State.num_players. cbn. lia. }
  destruct (State_pass_hands_turn s W) as (_ & _ & T & _ & U).
  - reflexivity.
  - cbn. lia.
  - split; [exact T|]. apply U. reflexivity.
Defined.

(** ** The record of the player who spins *)




(** X18: a spin that keeps the turn.  In a state with a turn index below
    3, when the player up still has a spin after the outcome, or no other
    player has one, [operator* (SpinValue, State)] changes the state in the
    slot of the player up only: that slot holds the new record, with the
    whammy count set to 0 if the whammies and all spins left in the game
    are fewer than four; the same player is up. *)
Theorem State_spin_turn_stays (opv : SpinValue.t) (s : State.t) :
  State.wf s ->
  let i := State.up_num s in
  let rec := State.spin_record opv (State.up s) in
  (0 < Player.spins rec \/
   forall k, 0 <= k < 3 -> k <> i -> Player.spins (State.player s k) = 0) ->
  State.spin opv s
  = State.set_player s i
      (State.reset_whammies (State.total_spins (State.spin_update opv s)) rec)
  /\ State.up_num (State.spin opv s) = i
  /\ (0 < Player.spins rec -> State.terminal (State.spin opv s)
                              = Player.out (State.opponent s 0)
                                && Player.out (State.opponent s 1)).
Proof.
  intros W i rec H.
  pose proof (wf_up_num s W) as Ri. fold i in Ri.
  set (m := State.spin_update opv s).
  assert (Pm : forall k, 0 <= k < 3 ->
             State.player m k
             = if k =? i then rec else State.player s k)
    by (intros k Rk; apply (player_spin_update opv s k W Rk)).
  assert (Um : State.up_num m = i) by apply up_num_spin_update.
  assert (C : State.change_player m = m).
  { destruct (change_player_cases m)
      as [(_ & E) | [(_ & _ & E) | (E & i0 & R0 & P0 & _ & _)]];
      [exact E | exact E | exfalso].
    unfold State.up in E. rewrite Um, (Pm i Ri), Z.eqb_refl in E.
    rewrite (Pm i0 R0) in P0.
    destruct (Z.eqb_spec i0 i) as [-> | N0]; [lia|].
    destruct H as [H | H]; [lia|]. rewrite (H i0 R0 N0) in P0. lia. }
  assert (E : State.spin opv s
              = State.set_player s i
                  (State.reset_whammies (State.total_spins m) rec)).
  { rewrite spin_stages. cbv zeta. fold i. fold m. rewrite C, Um.
    rewrite set_player_player, (Pm i Ri), Z.eqb_refl.
    unfold m at 1, State.spin_update. fold i. apply set_player_twice. }
  destruct (reset_whammies_fields (State.total_spins m) rec)
    as (_ & Fe & Fp & Fu & _).
  cbv zeta in Fe, Fp, Fu.
  assert (U : State.up_num (State.spin opv s) = i).
  { rewrite E. unfold i at 2.
    apply up_num_set_player. rewrite Fu.
    apply (proj1 (up_spin_record opv _)). }
  split; [exact E|]. split; [exact U|].
  intros P. unfold State.terminal, State.up, State.opponent, State.opponent_num.
  rewrite U. fold i. rewrite E at 1.
  rewrite player_set_player_same by exact Ri.
  assert (Sp : Player.spins
                 (State.reset_whammies (State.total_spins m) rec)
               = Player.spins rec)
    by (unfold Player.spins; now rewrite Fe, Fp).
  rewrite Sp. destruct (Z.eqb_spec (Player.spins rec) 0) as [Z0 | _]; [lia|].
  cbn [orb]. rewrite E.
  assert (O : forall n, (n = 0 \/ n = 1) ->
            u32 (i + n + 1) mod State.num_players <> i /\
            0 <= u32 (i + n + 1) mod State.num_players < 3).
  { intros n Hn. unfold u32, UINT_MOD, State.num_players.
    assert (Ci : i = 0 \/ i = 1 \/ i = 2) by lia.
    destruct Ci as [-> | [-> | ->]], Hn as [-> | ->]; vm_compute;
      split; try split; congruence. }
  destruct (O 0 (or_introl eq_refl)) as (N0 & R0).
  destruct (O 1 (or_intror eq_refl)) as (N1 & R1).
  now rewrite !player_set_player_other by assumption.
Qed.

Lemma State_spin_turn_stays_witness :
  let s := State.mk (Player.mk 0 0 0 0 1 0) (Player.mk 2000 3 0 0 0 0)
                    (Player.mk 3500 2 0 0 0 0) in
  let s' := State.spin (SpinValue.SpinValue3 1000 1 1) s in
  State.up_num s' = 1 /\ State.player s' 1 = Player.mk 3000 3 0 0 0 0.
Proof.
  intros s s'.
  assert (W : State.wf s).
  { unfold State.wf, Player.wf, in_bits, State.num_players. cbn. lia. }
  destruct (State_spin_turn_stays (SpinValue.SpinValue3 1000 1 1) s W)
    as (E & U & _).
  - left. reflexivity.
  - split; [exact U|]. subst s'. rewrite E. reflexivity.
Defined.

(** ** Intervals *)

Lemma make_fields t1 t2 :
  (Interval.min_ (Interval.make t1 t2) <= Interval.max_ (Interval.make t1 t2))%Q
  /\ ((t1 < t2)%Q -> Interval.make t1 t2 = Interval.mk t1 t2)
  /\ ((t2 <= t1)%Q -> Interval.make t1 t2 = Interval.mk t2 t1).
Proof.
  unfold Interval.make. destruct (Payoff.gt t2 t1) eqn:E.
  - apply Payoff_gt_lt in E. cbn. split; [now apply Qlt_le_weak|].
    split; [reflexivity|]. intros H. exfalso. apply (Qlt_not_le _ _ E H).
  - apply Payoff_gt_false in E. cbn. split; [exact E|].
    split; [|reflexivity]. intros H. exfalso. apply (Qlt_not_le _ _ H E).
Qed.

(** X19: the constructor of [Interval] orders its arguments.  Whatever
    the two numbers, the interval built from them has [min_ <= max_], its
    ends are the two numbers, and its width is not negative: the distance
    between them; with equal arguments it is the single point. *)
Theorem Interval_make_ordered (t1 t2 : Q) :
  let a := Interval.make t1 t2 in
  (Interval.min_ a <= Interval.max_ a)%Q /\
  ((Interval.min_ a = t1 /\ Interval.max_ a = t2)
   \/ (Interval.min_ a = t2 /\ Interval.max_ a = t1)) /\
  (0 <= Interval.width a)%Q /\
  (Interval.width a == Qabs (t2 - t1))%Q /\
  Interval.make t2 t2 = Interval.mk t2 t2.
Proof.
  intros a. subst a. destruct (make_fields t1 t2) as (Le & Lt & Ge).
  split; [exact Le|]. unfold Interval.width.
  destruct (Qlt_le_dec t1 t2) as [H | H].
  - rewrite (Lt H). cbn [Interval.min_ Interval.max_]. split; [auto|].
    split; [apply Qlt_le_weak in H; lra|].
    split; [|apply (proj2 (proj2 (make_fields t2 t2))), Qle_refl].
    rewrite Qabs_pos by (apply Qlt_le_weak in H; lra). reflexivity.
  - rewrite (Ge H). cbn [Interval.min_ Interval.max_]. split; [auto|].
    split; [lra|].
    split; [|apply (proj2 (proj2 (make_fields t2 t2))), Qle_refl].
    rewrite Qabs_neg by lra. ring.
Qed.

(** X20: comparing intervals.  For two intervals with [min_ <= max_],
    exactly one of [a < b], [a > b] and [a.overlaps (b)] holds; [a < b] is
    [b > a]; [overlaps] is symmetric, holds of an interval and itself, and
    holds exactly when the larger of the lower ends is at most the smaller
    of the upper ends, so two intervals that only share an end point
    overlap. *)
Theorem Interval_compare (a b : Interval.t) :
  (Interval.min_ a <= Interval.max_ a)%Q ->
  (Interval.min_ b <= Interval.max_ b)%Q ->
  (Interval.lt a b = true /\ Interval.gt a b = false
   /\ Interval.overlaps a b = false
   \/ Interval.lt a b = false /\ Interval.gt a b = true
      /\ Interval.overlaps a b = false
   \/ Interval.lt a b = false /\ Interval.gt a b = false
      /\ Interval.overlaps a b = true) /\
  Interval.lt a b = Interval.gt b a /\
  Interval.overlaps a b = Interval.overlaps b a /\
  Interval.overlaps a a = true /\
  (Interval.overlaps a b = true <->
   (Qmax (Interval.min_ a) (Interval.min_ b)
    <= Qmin (Interval.max_ a) (Interval.max_ b))%Q) /\
  ((Interval.max_ a == Interval.min_ b)%Q -> Interval.overlaps a b = true).
Proof.
  intros Ha Hb. unfold Interval.overlaps, Interval.lt, Interval.gt.
  assert (Self : Payoff.gt (Interval.min_ a) (Interval.max_ a) = false)
    by now apply Payoff_gt_false.
  destruct (Payoff.gt (Interval.min_ b) (Interval.max_ a)) eqn:L;
    destruct (Payoff.gt (Interval.min_ a) (Interval.max_ b)) eqn:G;
    rewrite ?Self; cbn [negb andb].
  - apply Payoff_gt_lt in L, G. exfalso. lra.
  - apply Payoff_gt_lt in L. apply Payoff_gt_false in G.
    split; [auto|]. repeat split; try discriminate.
    + intros H. exfalso.
      pose proof (Q.le_max_r (Interval.min_ a) (Interval.min_ b)).
      pose proof (Q.le_min_l (Interval.max_ a) (Interval.max_ b)). lra.
    + intros H. exfalso. lra.
  - apply Payoff_gt_false in L. apply Payoff_gt_lt in G.
    split; [auto|]. repeat split; try discriminate.
    + intros H. exfalso.
      pose proof (Q.le_max_l (Interval.min_ a) (Interval.min_ b)).
      pose proof (Q.le_min_r (Interval.max_ a) (Interval.max_ b)). lra.
    + intros H. exfalso. lra.
  - apply Payoff_gt_false in L, G.
    split; [auto 10|]. repeat split.
    intros _. apply Q.max_lub; apply Q.min_glb; assumption.
Qed.

Lemma Interval_compare_witness :
  Interval.overlaps (Interval.make 1 (11 # 10)) (Interval.make (11 # 10) (13 # 10))
  = true /\
  Interval.lt (Interval.make 1 (11 # 10)) (Interval.make (12 # 10) (13 # 10))
  = true.
Proof.
  split; [|reflexivity].
  apply (Interval_compare (Interval.make 1 (11 # 10))
           (Interval.make (11 # 10) (13 # 10)));
    [apply make_fields | apply make_fields | reflexivity].
Defined.

(** ** Payoffs, ranges and the choice of a decision node *)



(** ** Valid payoffs *)

Lemma valid_not_null p : Payoff.valid p -> Payoff.is_null p = false.
Proof.
  intros (H0 & _). unfold Payoff.is_null, Payoff.null_value.
  apply Bool.not_true_iff_false. intros L. apply Qle_bool_iff in L. lra.
Qed.

Lemma valid_clear p : Payoff.valid (Payoff.clear p).
Proof. unfold Payoff.valid, Payoff.sum. cbn. repeat split; lra. Qed.

Lemma invalidate_null p : Payoff.is_null (Payoff.invalidate p) = true.
Proof. reflexivity. Qed.

Lemma valid_uncertainty p :
  Payoff.valid p ->
  (0 <= Payoff.uncertainty p <= 1)%Q
  /\ (Payoff.uncertainty p == 1 - Payoff.sum p)%Q.
Proof.
  intros V. unfold Payoff.uncertainty. rewrite (valid_not_null p V).
  destruct V as (H0 & H1 & H2 & S). unfold Payoff.sum in *.
  split; [split; lra | reflexivity].
Qed.

Lemma valid_merge first second :
  Payoff.valid first -> Payoff.valid second ->
  Payoff.valid (DecideNode.merge first second).
Proof.
  intros (A0 & A1 & A2 & SA) (B0 & B1 & B2 & SB). rewrite merge_fields.
  destruct (Payoff_min_spec (Payoff.prob0 first) (Payoff.prob0 second))
    as (L0 & _ & C0).
  destruct (Payoff_min_spec (Payoff.prob1 first) (Payoff.prob1 second))
    as (L1 & _ & C1).
  destruct (Payoff_min_spec (Payoff.prob2 first) (Payoff.prob2 second))
    as (L2 & _ & C2).
  unfold Payoff.valid, Payoff.sum in *.
  cbn [Payoff.prob0 Payoff.prob1 Payoff.prob2].
  repeat split;
    [destruct C0 as [-> | ->]; assumption
    |destruct C1 as [-> | ->]; assumption
    |destruct C2 as [-> | ->]; assumption
    |lra].
Qed.

Lemma valid_decide state play pass old :
  Payoff.valid play -> Payoff.valid pass ->
  Payoff.valid (DecideNode.calc_payoff state (Some play) (Some pass) old).
Proof.
  intros Vp Vq. unfold DecideNode.calc_payoff.
  destruct (Payoff.gt _ _); [exact Vp|].
  destruct (Payoff.gt _ _); [exact Vq|]. now apply valid_merge.
Qed.

(** The terminal payoff is valid for every state: the shares of the
    leaders add up to 1, and without a leader every entry is 0. *)
Lemma valid_terminal state old :
  Payoff.valid (TerminalNode.calc_payoff state old).
Proof.
  destruct state as [[s0 e0 p0 w0 u0 r0] [s1 e1 p1 w1 u1 r1] [s2 e2 p2 w2 u2 r2]].
  unfold TerminalNode.calc_payoff, TerminalNode.tally.
  cbn [map fold_left].
  change (State.player (State.mk ?a ?b ?c) 0) with a.
  change (State.player (State.mk ?a ?b ?c) 1) with b.
  change (State.player (State.mk ?a ?b ?c) 2) with c.
  unfold Player.out. cbn [Player.whammies Player.score].
  destruct (w0 >=? Player.MaxWhammies), (w1 >=? Player.MaxWhammies),
    (w2 >=? Player.MaxWhammies); cbn [negb andb orb].
  all: break_cmp.
  all: vm_compute; repeat split;
    let X := fresh in (intros X; discriminate X).
Qed.

Lemma total_weight_nonneg {A : Type} (branches : list (Q * A)) :
  Forall (fun branch => (0 <= fst branch)%Q) branches ->
  (0 <= total_weight branches)%Q.
Proof.
  induction 1 as [|b l Hb _ IH]; cbn [total_weight]; lra.
Qed.

Lemma total_weight_app {A : Type} (l1 l2 : list (Q * A)) :
  (total_weight (l1 ++ l2) == total_weight l1 + total_weight l2)%Q.
Proof.
  induction l1 as [|b l1 IH]; cbn [app total_weight]; [ring|].
  rewrite IH. ring.
Qed.

(** ** The cache invariant *)

Lemma cache_ok_empty : cache_ok NodeCache.empty.
Proof. intros [[] s] n F; discriminate F. Qed.

Lemma cache_ok_set r n c :
  cache_ok c -> node_ok n -> cache_ok (NodeCache.set r n c).
Proof.
  intros C N r' n' F. rewrite find_set in F.
  destruct (same_node r r'); [injection F as <-; exact N | eapply C; exact F].
Qed.

Lemma node_ok_set_payoff n p :
  node_ok n -> Payoff.is_null p = true \/ Payoff.valid p ->
  node_ok (set_payoff_ n p).
Proof. intros (_ & B) P. split; [exact P | exact B]. Qed.

Lemma node_ok_set_visited n v : node_ok n -> node_ok (set_visited_ n v).
Proof. intros (P & B). split; [exact P | exact B]. Qed.

Lemma node_ok_new r : node_ok (new_node r).
Proof.
  split; [left; reflexivity|]. destruct r as [[] s]; cbn; auto.
  split; [constructor | cbn; lra].
Qed.

Lemma find_counter sp de te x y r :
  NodeCache.find r (NodeCache.mk sp de te x)
  = NodeCache.find r (NodeCache.mk sp de te y).
Proof. destruct r as [[] s]; reflexivity. Qed.

Lemma find_create r r' c :
  NodeCache.find r' (NodeCache.create r c)
  = match NodeCache.find r' c with
    | Some n => Some n
    | None => if same_node r r' then Some (new_node r) else None
    end.
Proof.
  unfold NodeCache.create. destruct (NodeCache.find r c) as [n|] eqn:F.
  - destruct (NodeCache.find r' c) as [n'|] eqn:F'; [reflexivity|].
    destruct (same_node r r') eqn:E; [|reflexivity].
    rewrite (find_same_node _ _ _ E) in F. congruence.
  - assert (S : NodeCache.find r' (NodeCache.set r (new_node r) c)
                = match NodeCache.find r' c with
                  | Some n => Some n
                  | None => if same_node r r' then Some (new_node r) else None
                  end).
    { rewrite find_set. destruct (same_node r r') eqn:E.
      - rewrite <- (find_same_node _ _ _ E), F. reflexivity.
      - now destruct (NodeCache.find r' c). }
    destruct (fst r); try exact S.
    destruct (State.spins (snd r) =? 1); [|exact S].
    rewrite <- S.
    destruct (NodeCache.set r (new_node r) c) as [sp de te fi].
    apply find_counter.
Qed.

Lemma cache_ok_create r c : cache_ok c -> cache_ok (NodeCache.create r c).
Proof.
  intros C r' n F. rewrite find_create in F.
  destruct (NodeCache.find r' c) as [n'|] eqn:F'.
  - injection F as <-. eapply C; exact F'.
  - destruct (same_node r r'); [|discriminate]. injection F as <-.
    apply node_ok_new.
Qed.

Lemma cache_ok_apply f c :
  (forall n, node_ok n -> node_ok (f n)) -> cache_ok c ->
  cache_ok (NodeCache.apply f c).
Proof.
  intros Hf C r n F. rewrite find_apply in F.
  destruct (NodeCache.find r c) as [n0|] eqn:F0; [|discriminate].
  injection F as <-. apply Hf. eapply C; exact F0.
Qed.

Lemma set_payoff_ok r p c u c' :
  cache_ok c -> Payoff.valid p -> set_payoff r p c = Some (u, c') ->
  cache_ok c' /\ exists n, NodeCache.find r c' = Some n /\ payoff_ n = p.
Proof.
  intros C V H. apply set_payoff_Some in H. destruct H as (n & F & ->).
  split.
  - apply cache_ok_set; [exact C|]. apply node_ok_set_payoff; [|now right].
    eapply C; exact F.
  - exists (set_payoff_ n p). split; [|reflexivity].
    now rewrite find_set, same_node_refl.
Qed.

Lemma valid_step acc p w bound :
  (0 <= Payoff.prob0 acc)%Q -> (0 <= Payoff.prob1 acc)%Q ->
  (0 <= Payoff.prob2 acc)%Q -> (Payoff.sum acc <= bound)%Q ->
  Payoff.valid p -> (0 <= w)%Q ->
  let q := Payoff.plus acc (Payoff.scale p w) in
  (0 <= Payoff.prob0 q)%Q /\ (0 <= Payoff.prob1 q)%Q /\
  (0 <= Payoff.prob2 q)%Q /\ (Payoff.sum q <= bound + w)%Q /\
  (Payoff.sum q == Payoff.sum acc + w * Payoff.sum p)%Q.
Proof.
  intros A0 A1 A2 S (P0 & P1 & P2 & SP) W q. subst q.
  unfold Payoff.plus, Payoff.scale, Payoff.sum in *.
  cbn [Payoff.prob0 Payoff.prob1 Payoff.prob2].
  pose proof (Qmult_le_0_compat _ _ P0 W).
  pose proof (Qmult_le_0_compat _ _ P1 W).
  pose proof (Qmult_le_0_compat _ _ P2 W).
  assert (M : (w * (0 + Payoff.prob0 p + Payoff.prob1 p + Payoff.prob2 p)
               <= w * 1)%Q).
  { apply Qmult_le_compat_nonneg; split; try lra. }
  repeat split; try lra.
Qed.

Section CalcPayoffOk.

Variable payoff_rec : NodeRef -> M Payoff.t.
Hypothesis payoff_rec_keeps :
  forall r c v c', payoff_rec r c = Some (v, c') -> keeps c c'.
Hypothesis payoff_rec_ok :
  forall r c v c',
    cache_ok c -> payoff_rec r c = Some (v, c') ->
    Payoff.valid v /\ cache_ok c'.

Variable r : NodeRef.

Lemma call_then_set_ok (child : NodeRef) (g : Payoff.t -> Payoff.t) c u c' :
  (forall p, Payoff.valid p -> Payoff.valid (g p)) ->
  cache_ok c ->
  (p <- payoff_rec child ;; set_payoff r (g p))%search c = Some (u, c') ->
  cache_ok c' /\ exists n, NodeCache.find r c' = Some n /\ Payoff.valid (payoff_ n).
Proof.
  intros G C H. apply bind_Some in H. destruct H as (p & c1 & P & S).
  destruct (payoff_rec_ok _ _ _ _ C P) as (V & C1).
  destruct (set_payoff_ok _ _ _ _ _ C1 (G p V) S) as (C2 & n & F & E).
  split; [exact C2|]. exists n. split; [exact F|]. rewrite E. now apply G.
Qed.

Lemma spin_loop_ok (branches : list (Q * NodeRef)) :
  forall c bound n u c',
    cache_ok c -> NodeCache.find r c = Some n ->
    (0 <= Payoff.prob0 (payoff_ n))%Q -> (0 <= Payoff.prob1 (payoff_ n))%Q ->
    (0 <= Payoff.prob2 (payoff_ n))%Q ->
    (Payoff.sum (payoff_ n) <= bound)%Q ->
    Forall (fun branch => (0 <= fst branch)%Q) branches ->
    (bound + total_weight branches <= 1)%Q ->
    for_each branches
      (fun branch =>
         p <- payoff_rec (snd branch) ;;
         node <- get r ;;
         set_payoff r (Payoff.plus (payoff_ node) (Payoff.scale p (fst branch))))%search
      c = Some (u, c') ->
    cache_ok c' /\
    exists n', NodeCache.find r c' = Some n' /\ Payoff.valid (payoff_ n').
Proof.
  induction branches as [|b branches IH]; intros c bound n u c' C F A0 A1 A2 S W T H.
  - injection H as _ <-. split; [exact C|]. exists n. split; [exact F|].
    cbn [total_weight] in T. repeat split; try assumption. lra.
  - cbn [for_each] in H. apply bind_Some in H. destruct H as (u1 & c1 & B & R).
    apply bind_Some in B. destruct B as (p & c2 & P & B).
    apply bind_Some in B. destruct B as (node & c3 & G & St).
    apply get_Some in G. destruct G as (F2 & ->).
    destruct (payoff_rec_ok _ _ _ _ C P) as (V & C2).
    assert (N : Payoff.is_null (payoff_ n) = false).
    { unfold Payoff.is_null, Payoff.null_value.
      apply Bool.not_true_iff_false. intros L. apply Qle_bool_iff in L. lra. }
    pose proof (payoff_rec_keeps _ _ _ _ P r n F N) as Fn.
    rewrite Fn in F2. injection F2 as <-.
    inversion W as [|? ? Wb Wr]; subst.
    cbn [total_weight] in T.
    pose proof (total_weight_nonneg branches Wr) as Tr.
    destruct (valid_step (payoff_ n) p (fst b) bound A0 A1 A2 S V Wb)
      as (Q0 & Q1 & Q2 & QS & _).
    cbv zeta in Q0, Q1, Q2, QS.
    assert (Vq : Payoff.valid
                   (Payoff.plus (payoff_ n) (Payoff.scale p (fst b))))
      by (repeat split; try assumption; lra).
    destruct (set_payoff_ok _ _ _ _ _ C2 Vq St) as (C3 & n3 & F3 & E3).
    apply (IH c1 (bound + fst b)%Q n3 u c'); try assumption;
      rewrite ?E3; try assumption. lra.
Qed.

Lemma calc_payoff_ok c u c' :
  cache_ok c ->
  SearchNode.calc_payoff payoff_rec r c = Some (u, c') ->
  cache_ok c' /\
  exists n, NodeCache.find r c' = Some n /\ Payoff.valid (payoff_ n).
Proof.
  intros C H. unfold SearchNode.calc_payoff in H.
  apply bind_Some in H. destruct H as (node & c1 & G & H).
  apply get_Some in G. destruct G as (F & ->).
  pose proof (C r node F) as (_ & Bok).
  assert (Fin : forall p c0 u0 c1,
            cache_ok c0 -> Payoff.valid p ->
            set_payoff r p c0 = Some (u0, c1) ->
            cache_ok c1 /\
            exists n, NodeCache.find r c1 = Some n /\ Payoff.valid (payoff_ n)).
  { intros p c0 u0 c1 C0 V S.
    destruct (set_payoff_ok _ _ _ _ _ C0 V S) as (C1 & n & Fn & E).
    split; [exact C1|]. exists n. split; [exact Fn | now rewrite E]. }
  destruct (body node) as [|if_play if_pass|branches].
  - eapply Fin; [exact C | apply valid_terminal | exact H].
  - destruct if_play as [if_play|], if_pass as [if_pass|].
    + apply bind_Some in H. destruct H as (p1 & c1 & P1 & H).
      destruct (payoff_rec_ok _ _ _ _ C P1) as (V1 & C1).
      apply bind_Some in H. destruct H as (p2 & c2 & P2 & H).
      destruct (payoff_rec_ok _ _ _ _ C1 P2) as (V2 & C2).
      destruct (Payoff.gt _ _).
      * eapply (call_then_set_ok _ (fun p => p)); [auto | exact C2 | exact H].
      * destruct (Payoff.gt _ _).
        -- eapply (call_then_set_ok _ (fun p => p)); [auto | exact C2 | exact H].
        -- apply bind_Some in H. destruct H as (first & c3 & P3 & H).
           destruct (payoff_rec_ok _ _ _ _ C2 P3) as (V3 & C3).
           eapply (call_then_set_ok _ (fun p => DecideNode.merge first p));
             [|exact C3 | exact H].
           intros p Vp. now apply valid_merge.
    + eapply (call_then_set_ok _ (fun p => p)); [auto | exact C | exact H].
    + eapply (call_then_set_ok _ (fun p => p)); [auto | exact C | exact H].
    + eapply Fin; [exact C | apply valid_clear | exact H].
  - apply bind_Some in H. destruct H as (u1 & c1 & S & L).
    destruct (set_payoff_ok _ _ _ _ _ C (valid_clear (payoff_ node)) S)
      as (C1 & n1 & F1 & E1).
    destruct Bok as (W & T).
    eapply (spin_loop_ok branches c1 0%Q n1); try eassumption;
      rewrite ?E1; cbn; try lra.
    unfold Payoff.sum. cbn. lra.
Qed.

End CalcPayoffOk.

(** [payoff ()] returns a valid payoff, the one the node holds afterwards,
    and keeps the cache invariant. *)
Lemma payoff_ok fuel : forall r c v c',
  cache_ok c -> SearchNode.payoff fuel r c = Some (v, c') ->
  Payoff.valid v /\ cache_ok c' /\
  exists n, NodeCache.find r c' = Some n /\ payoff_ n = v.
Proof.
  induction fuel as [|fuel IH]; intros r c v c' C H; [discriminate|].
  cbn [SearchNode.payoff] in H.
  apply bind_Some in H. destruct H as (node & c1 & G & H).
  apply get_Some in G. destruct G as (F & ->).
  destruct (Payoff.is_null (payoff_ node)) eqn:N.
  - apply bind_Some in H. destruct H as (u & c1 & Cp & H).
    apply bind_Some in H. destruct H as (node' & c2 & G & H).
    apply get_Some in G. destruct G as (F' & ->).
    injection H as <- <-.
    destruct (calc_payoff_ok (SearchNode.payoff fuel) (payoff_keeps fuel)
                (fun r c v c' Hc Hp => let (A, B) := IH r c v c' Hc Hp in
                                       conj A (proj1 B))
                r c u c1 C Cp) as (C1 & n & Fn & V).
    rewrite Fn in F'. injection F' as <-.
    split; [exact V|]. split; [exact C1|]. exists n. auto.
  - injection H as <- <-.
    destruct (C r node F) as ([P | P] & _); [congruence|].
    split; [exact P|]. split; [exact C|]. exists node. auto.
Qed.

(** *** Scanning keeps the invariant *)

Lemma add_nonneg {T : Type} (T_eqb : T -> T -> bool) p x
    (m : WeightedSet.Container T) :
  (0 <= p)%Q -> Forall (fun e => (0 <= snd e)%Q) m ->
  Forall (fun e => (0 <= snd e)%Q) (WeightedSet.add T_eqb p x m).
Proof.
  intros Hp. induction 1 as [|[k w] m Hk Hm IH]; cbn [WeightedSet.add].
  - constructor; [cbn; lra | constructor].
  - cbn [snd] in Hk. destruct (T_eqb k x); constructor; cbn [snd];
      solve [lra | assumption].
Qed.

Lemma apply_nonneg (expr : SpinOperator.t) (ds : State.t) :
  Forall (fun term => (0 <= snd term)%Q) expr ->
  Forall (fun e => (0 <= snd e)%Q) (SpinOperator_apply expr ds).
Proof.
  unfold SpinOperator_apply.
  assert (G : forall res : ProbState,
    Forall (fun term => (0 <= snd term)%Q) expr ->
    Forall (fun e => (0 <= snd e)%Q) res ->
    Forall (fun e => (0 <= snd e)%Q)
      (fold_left
         (fun res term =>
            WeightedSet.add State.eqb (snd term) (State.spin (fst term) ds) res)
         expr res)).
  { induction expr as [|term expr IH]; intros res He Hr; cbn [fold_left];
      [exact Hr|].
    inversion He; subst. apply IH; [assumption|]. now apply add_nonneg. }
  intros He. apply G; [exact He | constructor].
Qed.

Lemma op_ok_nth n (ops : list SpinOperator.t) :
  Forall op_ok ops -> op_ok (nth n ops []).
Proof.
  intros H. revert n. induction H as [|op ops Ho _ IH]; intros [|n]; cbn [nth];
    try solve [split; [constructor | cbn; lra]]; auto.
Qed.

Section ScanOk.

Variable search : Search.
Hypothesis search_is_ok : search_ok search.

Variable scan_rec : NodeRef -> M unit.
Hypothesis scan_rec_ok :
  forall r c u c', cache_ok c -> scan_rec r c = Some (u, c') -> cache_ok c'.

Lemma for_each_scan_ok (branches : list (Q * NodeRef)) c u c' :
  cache_ok c ->
  for_each branches (fun branch => scan_rec (snd branch)) c = Some (u, c') ->
  cache_ok c'.
Proof.
  revert c. induction branches as [|b branches IH]; intros c C H.
  - now injection H as _ <-.
  - cbn [for_each] in H. apply bind_Some in H. destruct H as (u1 & c1 & S & R).
    eapply IH; [|exact R]. eapply scan_rec_ok; eassumption.
Qed.

Lemma scan_opt_ok (branch : option NodeRef) c u c' :
  cache_ok c ->
  match branch with Some n => scan_rec n | None => ret tt end c = Some (u, c') ->
  cache_ok c'.
Proof.
  intros C H. destruct branch as [n|].
  - eapply scan_rec_ok; eassumption.
  - now injection H as _ <-.
Qed.

Lemma create_opt_ok (branch : option NodeRef) c u c' :
  cache_ok c -> create_opt branch c = Some (u, c') -> cache_ok c'.
Proof.
  intros C H. destruct branch as [n|]; cbn in H.
  - injection H as _ <-. now apply cache_ok_create.
  - now injection H as _ <-.
Qed.

Lemma make_branches_ok (st : State.t) (terms : ProbState) :
  forall coverage0 branches0 c coverage branches c',
    Forall (fun e => (0 <= snd e)%Q) terms -> cache_ok c ->
    SearchNode.make_branches st terms coverage0 branches0 c
    = Some (coverage, branches, c') ->
    cache_ok c' /\
    (Forall (fun branch => (0 <= fst branch)%Q) branches0 ->
     Forall (fun branch => (0 <= fst branch)%Q) branches) /\
    exists self other,
      (0 <= self)%Q /\ (0 <= other)%Q /\
      (self + other == WeightedSet.weight terms)%Q /\
      (coverage == coverage0 - self)%Q /\
      (total_weight branches == total_weight branches0 + other)%Q.
Proof.
  induction terms as [|s terms IH];
    intros coverage0 branches0 c coverage branches c' W C H.
  - injection H as <- <- <-. split; [exact C|]. split; [auto|].
    exists 0%Q, 0%Q. unfold WeightedSet.weight. cbn [fold_left].
    repeat split; lra.
  - inversion W as [|? ? Ws Wt]; subst. cbn [SearchNode.make_branches] in H.
    destruct (State.eqb (fst s) st).
    + destruct (IH _ _ _ _ _ _ Wt C H) as (C' & F & self & other & A & B & D & E & G).
      split; [exact C'|]. split; [exact F|].
      exists (snd s + self)%Q, other. rewrite weight_cons.
      repeat split; try lra.
    + apply bind_Some in H. destruct H as (node & c1 & Cr & H).
      unfold create in Cr. injection Cr as <- <-.
      destruct (IH _ _ _ _ _ _ Wt (cache_ok_create _ _ C) H)
        as (C' & F & self & other & A & B & D & E & G).
      split; [exact C'|].
      split.
      { intros F0. apply F. apply Forall_app. split; [exact F0|].
        constructor; [exact Ws | constructor]. }
      exists self, (snd s + other)%Q. rewrite weight_cons.
      rewrite total_weight_app in G. cbn [total_weight fst] in G.
      repeat split; try lra.
Qed.

Lemma total_weight_map_div {A : Type} (branches : list (Q * A)) (d : Q) :
  (total_weight (map (fun b : Q * A => ((fst b / d)%Q, snd b)) branches)
   == total_weight branches / d)%Q.
Proof.
  induction branches as [|b branches IH]; cbn [map total_weight fst].
  - unfold Qdiv. ring.
  - rewrite IH. unfold Qdiv. ring.
Qed.

Lemma made_weights_ok (terms : ProbState) coverage
    (branches : list (Q * NodeRef)) self other :
  (WeightedSet.weight terms <= 1)%Q ->
  Forall (fun branch => (0 <= fst branch)%Q) branches ->
  (0 <= self)%Q -> (0 <= other)%Q ->
  (self + other == WeightedSet.weight terms)%Q ->
  (coverage == 1 - self)%Q ->
  (total_weight branches == 0 + other)%Q ->
  weights_ok
    (if Payoff.gt 1 coverage
     then map (fun b : Q * NodeRef => ((fst b / coverage)%Q, snd b)) branches
     else branches).
Proof.
  intros W F A B D E G.
  assert (Cov : (0 <= coverage)%Q) by lra.
  destruct (Payoff.gt 1 coverage) eqn:Gt.
  - split.
    + apply Forall_forall. intros b Hin. apply in_map_iff in Hin.
      destruct Hin as (b0 & <- & Hin0). cbn [fst].
      rewrite Forall_forall in F. specialize (F b0 Hin0).
      unfold Qdiv. apply Qmult_le_0_compat; [exact F|].
      now apply Qinv_le_0_compat.
    + rewrite total_weight_map_div, G.
      destruct (Qlt_le_dec 0 coverage) as [Pos | Npos].
      * apply Qle_shift_div_r; [exact Pos | lra].
      * assert (Z0 : (coverage == 0)%Q) by lra.
        unfold Qdiv. rewrite Z0. unfold Qinv. cbn. lra.
  - apply Payoff_gt_false in Gt. split; [exact F | lra].
Qed.

Lemma put_ok r n c u c' :
  cache_ok c -> node_ok n -> put r n c = Some (u, c') -> cache_ok c'.
Proof.
  intros C N H. unfold put in H. injection H as _ <-. now apply cache_ok_set.
Qed.

Lemma scan_branches_ok r c u c' :
  cache_ok c ->
  SearchNode.scan_branches search scan_rec r c = Some (u, c') ->
  cache_ok c'.
Proof.
  intros C H. unfold SearchNode.scan_branches in H.
  apply bind_Some in H. destruct H as (node & c1 & G & H).
  apply get_Some in G. destruct G as (F & ->).
  pose proof (C r node F) as Nok.
  destruct (body node) as [|if_play if_pass|branches] eqn:B.
  - now injection H as _ <-.
  - apply bind_Some in H. destruct H as (u1 & c1 & P & H).
    assert (C1 : cache_ok c1).
    { eapply put_ok; [exact C | | exact P].
      apply node_ok_set_payoff; [exact Nok | left; apply invalidate_null]. }
    apply bind_Some in H. destruct H as (u2 & c2 & Cr1 & H).
    pose proof (create_opt_ok _ _ _ _ C1 Cr1) as C2.
    apply bind_Some in H. destruct H as (u3 & c3 & Cr2 & H).
    pose proof (create_opt_ok _ _ _ _ C2 Cr2) as C3.
    apply bind_Some in H. destruct H as (node3 & c4 & G & H).
    apply get_Some in G. destruct G as (F3 & ->).
    apply bind_Some in H. destruct H as (u4 & c4 & P4 & H).
    assert (C4 : cache_ok c4).
    { eapply put_ok; [exact C3 | | exact P4].
      destruct (C3 r node3 F3) as (Pn & _). split; [exact Pn | exact I]. }
    apply bind_Some in H. destruct H as (u5 & c5 & S1 & S2).
    eapply scan_opt_ok; [|exact S2]. eapply scan_opt_ok; [exact C4 | exact S1].
  - apply bind_Some in H. destruct H as (u1 & c1 & P & H).
    assert (C1 : cache_ok c1).
    { eapply put_ok; [exact C | | exact P].
      apply node_ok_set_payoff; [exact Nok | left; apply invalidate_null]. }
    apply bind_Some in H. destruct H as (bs & c2 & Mk & H).
    enough (C2 : cache_ok c2) by (eapply for_each_scan_ok; eassumption).
    destruct branches as [|b0 branches0].
    + apply bind_Some in Mk. destruct Mk as ([coverage made] & c3 & Mb & Mk).
      apply bind_Some in Mk. destruct Mk as (node3 & c4 & G & Mk).
      apply get_Some in G. destruct G as (F3 & ->).
      apply bind_Some in Mk. destruct Mk as (u4 & c4 & P4 & Mk).
      injection Mk as _ <-.
      set (op := nth _ (spin_op search) []) in Mb.
      destruct search_is_ok as (Ops & Ord).
      destruct (op_ok_nth
                  (Z.to_nat
                     (if opt_passed_spin_merge
                         && (Player.passed (State.up (state node)) >? 0)
                      then Z.min (Player.passed (State.up (state node))) 5
                      else 1))
                  _ Ops) as (Wop & Top).
      fold op in Wop, Top.
      set (next := SpinOperator_apply op (state node)) in Mb.
      assert (Wn : Forall (fun e => (0 <= snd e)%Q) (order search next)).
      { eapply Permutation_Forall; [apply Permutation_sym, Ord|].
        now apply apply_nonneg. }
      assert (Tn : (WeightedSet.weight (order search next) <= 1)%Q).
      { rewrite (weight_Permutation _ _ (Ord next)). unfold next.
        now rewrite apply_weight. }
      destruct (make_branches_ok _ _ _ _ _ _ _ _ Wn C1 Mb)
        as (C3 & Fb & self & other & A & Bo & D & E & G).
      eapply put_ok; [exact C3 | | exact P4].
      destruct (C3 r node3 F3) as (Pn & _). split; [exact Pn|].
      cbn [body set_body fst snd].
      exact (made_weights_ok (order search next) coverage made self other
               Tn (Fb (Forall_nil _)) A Bo D E G).
    + now injection Mk as _ <-.
Qed.

End ScanOk.

Lemma scan_ok search depth : forall r c u c',
  search_ok search -> cache_ok c ->
  SearchNode.scan search depth r c = Some (u, c') -> cache_ok c'.
Proof.
  induction depth as [|depth IH]; intros r c u c' S C H;
    cbn [SearchNode.scan] in H;
    apply bind_Some in H; destruct H as (node & c1 & G & H);
    apply get_Some in G; destruct G as (F & ->);
    (destruct (visited_ node); [now injection H as _ <-|]);
    apply bind_Some in H; destruct H as (u1 & c1 & P & H);
    assert (C1 : cache_ok c1)
      by (eapply put_ok; [exact C | | exact P];
          apply node_ok_set_visited; eapply C; exact F).
  - now injection H as _ <-.
  - destruct (Qle_bool _ _); [now injection H as _ <-|].
    eapply (scan_branches_ok search S (SearchNode.scan search depth));
      [|exact C1 | exact H].
    intros r0 c0 u0 c0' C0 H0. eapply IH; eassumption.
Qed.

(** *** A whole run keeps the invariant *)

Lemma payoff_then_ret_ok {A : Type} fuel n (g : Payoff.t -> A) c x c' :
  cache_ok c ->
  (p <- SearchNode.payoff fuel n ;; ret (g p))%search c = Some (x, c') ->
  cache_ok c'.
Proof.
  intros C H. apply bind_Some in H. destruct H as (p & c1 & P & R).
  injection R as _ <-. now destruct (payoff_ok fuel _ _ _ _ C P) as (_ & C1 & _).
Qed.

Lemma chosen_ok fuel r branch c x c' :
  cache_ok c -> SearchNode.chosen fuel r branch c = Some (x, c') -> cache_ok c'.
Proof.
  intros C H. destruct branch as [n|]; cbn in H.
  - apply bind_Some in H. destruct H as (p & c1 & P & H).
    apply bind_Some in H. destruct H as (node & c2 & G & H).
    apply get_Some in G. destruct G as (_ & ->). injection H as _ <-.
    now destruct (payoff_ok fuel _ _ _ _ C P) as (_ & C1 & _).
  - now injection H as _ <-.
Qed.

Lemma decision_ok fuel r c x c' :
  cache_ok c -> SearchNode.decision fuel r c = Some (x, c') -> cache_ok c'.
Proof.
  intros C H. unfold SearchNode.decision in H.
  apply bind_Some in H. destruct H as (node & c1 & G & H).
  apply get_Some in G. destruct G as (_ & ->).
  destruct (body node) as [|if_play if_pass|]; try discriminate.
  apply bind_Some in H. destruct H as (play & c1 & P1 & H).
  pose proof (chosen_ok _ _ _ _ _ _ C P1) as C1.
  destruct play; [now injection H as _ <-|].
  apply bind_Some in H. destruct H as (pass & c2 & P2 & H).
  pose proof (chosen_ok _ _ _ _ _ _ C1 P2) as C2.
  destruct pass; now injection H as _ <-.
Qed.

Lemma solved_ok fuel search r result c x c' :
  cache_ok c -> SearchNode.solved fuel search r result c = Some (x, c') ->
  cache_ok c'.
Proof.
  intros C H. unfold SearchNode.solved in H.
  apply bind_Some in H. destruct H as (node & c1 & G & H).
  apply get_Some in G. destruct G as (_ & ->).
  destruct (body node) as [|if_play if_pass|]; try discriminate.
  destruct (_ || _); [now injection H as _ <-|].
  apply bind_Some in H. destruct H as (res1 & c1 & H1 & H).
  assert (C1 : cache_ok c1).
  { destruct if_play as [n|].
    - eapply payoff_then_ret_ok; [exact C | exact H1].
    - now injection H1 as _ <-. }
  apply bind_Some in H. destruct H as (res2 & c2 & H2 & H).
  assert (C2 : cache_ok c2).
  { destruct if_pass as [n|].
    - eapply payoff_then_ret_ok; [exact C1 | exact H2].
    - now injection H2 as _ <-. }
  destruct if_pass as [pa|], if_play as [pl|];
    try (now injection H as _ <-).
  destruct (negb _); [now injection H as _ <-|].
  apply bind_Some in H. destruct H as (a & c3 & P3 & H).
  destruct (payoff_ok fuel _ _ _ _ C2 P3) as (_ & C3 & _).
  apply bind_Some in H. destruct H as (b & c4 & P4 & H).
  destruct (payoff_ok fuel _ _ _ _ C3 P4) as (_ & C4 & _).
  destruct (_ && _); now injection H as _ <-.
Qed.

Lemma log_round_ok fuel r solved c x c' :
  cache_ok c -> SearchNode.log_round fuel r solved c = Some (x, c') ->
  cache_ok c'.
Proof.
  intros C H. unfold SearchNode.log_round in H.
  apply bind_Some in H. destruct H as (node & c1 & G & H).
  apply get_Some in G. destruct G as (_ & ->).
  destruct (body node) as [|if_play if_pass|]; try discriminate.
  apply bind_Some in H. destruct H as (u1 & c1 & H1 & H).
  assert (C1 : cache_ok c1).
  { destruct if_play as [n|].
    - eapply (payoff_then_ret_ok fuel n (fun _ => tt)); [exact C | exact H1].
    - now injection H1 as _ <-. }
  apply bind_Some in H. destruct H as (u2 & c2 & H2 & H).
  assert (C2 : cache_ok c2).
  { destruct if_pass as [n|].
    - eapply (payoff_then_ret_ok fuel n (fun _ => tt)); [exact C1 | exact H2].
    - now injection H2 as _ <-. }
  destruct solved; [|now injection H as _ <-].
  apply bind_Some in H. destruct H as (d & c3 & D & H).
  injection H as _ <-. eapply decision_ok; eassumption.
Qed.

Lemma run_pass_ok fuel search node depth result c payoff solved result' c' :
  search_ok search -> cache_ok c ->
  run_pass fuel search node depth result c
  = Some (payoff, solved, result', c') ->
  Payoff.valid payoff /\ cache_ok c'.
Proof.
  intros S C H. unfold run_pass in H.
  apply bind_Some in H. destruct H as (u & c1 & Sc & H).
  pose proof (scan_ok _ _ _ _ _ _ S C Sc) as C1.
  apply bind_Some in H. destruct H as (p & c2 & P & H).
  destruct (payoff_ok _ _ _ _ _ C1 P) as (V & C2 & _).
  apply bind_Some in H. destruct H as (res & c3 & So & H).
  pose proof (solved_ok _ _ _ _ _ _ _ C2 So) as C3.
  apply bind_Some in H. destruct H as (u4 & c4 & Lo & H).
  pose proof (log_round_ok _ _ _ _ _ _ C3 Lo) as C4.
  unfold bind in H. injection H as <- _ _ <-.
  split; [exact V|]. apply cache_ok_apply; [|exact C4].
  intros n. apply node_ok_set_visited.
Qed.

Lemma run_loop_ok rounds fuel search node :
  forall depth solved result c payoffs c',
    search_ok search -> cache_ok c ->
    run_loop rounds fuel search node depth solved result c
    = Some (payoffs, c') ->
    Forall Payoff.valid payoffs /\ cache_ok c'.
Proof.
  induction rounds as [|rounds IH];
    intros depth solved result c payoffs c' S C H; cbn [run_loop] in H;
    (destruct ((depth <? 64) && negb solved);
     [|injection H as <- <-; split; [constructor | exact C]]).
  - discriminate.
  - apply bind_Some in H. destruct H as ([[payoff solved1] result1] & c1 & P & H).
    destruct (run_pass_ok _ _ _ _ _ _ _ _ _ _ S C P) as (V & C1).
    apply bind_Some in H. destruct H as (rest & c2 & R & H).
    injection H as <- <-.
    destruct (IH _ _ _ _ _ _ S C1 R) as (Vr & C2).
    split; [constructor; assumption | exact C2].
Qed.

Lemma compose_nonneg (this sop : SpinOperator.t) :
  Forall (fun term => (0 <= snd term)%Q) this ->
  Forall (fun term => (0 <= snd term)%Q) sop ->
  Forall (fun term => (0 <= snd term)%Q) (SpinOperator.compose this sop).
Proof.
  intros Ht Hs. unfold SpinOperator.compose.
  assert (Inner : forall (t0 : SpinValue.t * Q) (res : SpinOperator.t),
    (0 <= snd t0)%Q ->
    Forall (fun term => (0 <= snd term)%Q) res ->
    Forall (fun term => (0 <= snd term)%Q)
      (fold_left
         (fun res u =>
            SpinOperator.add (snd u * snd t0)%Q
              (SpinValue.mul (fst u) (fst t0)) res)
         this res)).
  { intros t0 res H0. revert res.
    induction Ht as [|u this Hu _ IH]; intros res Hr; cbn [fold_left];
      [exact Hr|].
    apply IH. apply add_nonneg; [|exact Hr].
    now apply Qmult_le_0_compat. }
  assert (Outer : forall res : SpinOperator.t,
    Forall (fun term => (0 <= snd term)%Q) res ->
    Forall (fun term => (0 <= snd term)%Q)
      (fold_left
         (fun res t0 =>
            fold_left
              (fun res u =>
                 SpinOperator.add (snd u * snd t0)%Q
                   (SpinValue.mul (fst u) (fst t0)) res)
              this res)
         sop res)).
  { induction Hs as [|t0 sop H0 _ IH]; intros res Hr; cbn [fold_left];
      [exact Hr|].
    apply IH. now apply Inner. }
  apply Outer. constructor.
Qed.

Lemma op_ok_compose (this sop : SpinOperator.t) :
  op_ok this -> op_ok sop -> op_ok (SpinOperator.compose this sop).
Proof.
  intros (Ft & Wt) (Fs & Ws). split; [now apply compose_nonneg|].
  rewrite compose_weight.
  assert (Pt : (0 <= WeightedSet.weight this)%Q).
  { clear Wt. induction Ft as [|e m He _ IH].
    - unfold WeightedSet.weight. cbn. lra.
    - rewrite weight_cons. lra. }
  assert (Ps : (0 <= WeightedSet.weight sop)%Q).
  { clear Ws. induction Fs as [|e m He _ IH].
    - unfold WeightedSet.weight. cbn. lra.
    - rewrite weight_cons. lra. }
  assert (M : (WeightedSet.weight this * WeightedSet.weight sop <= 1 * 1)%Q)
    by (apply Qmult_le_compat_nonneg; split; assumption).
  lra.
Qed.

Lemma new_Search_ok spin opts ord :
  op_ok spin -> (forall t, Permutation (ord t) t) ->
  search_ok (new_Search spin opts ord).
Proof.
  intros O P. split; [|exact P]. unfold new_Search. cbn [spin_op].
  repeat (apply Forall_cons; [auto 10 using op_ok_compose|]). constructor.
Qed.

(** X22: the payoffs of a search are probabilities.  For a board whose
    weights are positive and total 1, and whatever the order in which the
    hash tables are visited, every root payoff that a round of
    [Search::run] computes is valid: no entry is negative and the entries
    sum to at most 1, so the uncertainty lies between 0 and 1 (in exact
    arithmetic).  The same holds for the payoff of every node that the
    cache holds when [run] returns, unless it is null, and the weights of
    the branches of every spin node are not negative and total at most 1. *)
Theorem Search_run_payoffs_valid (spin : SpinOperator.t)
    (opts : SearchOptions) (ord : ProbState -> ProbState) (fuel : nat)
    (init : State.t) (root : NodeRef) (payoffs : list Payoff.t)
    (c : NodeCache.t) :
  Forall (fun term => (0 < snd term)%Q) spin ->
  (WeightedSet.weight spin == 1)%Q ->
  (forall t, Permutation (ord t) t) ->
  run fuel (new_Search spin opts ord) init NodeCache.empty
  = Some (root, payoffs, c) ->
  Forall
    (fun p => Payoff.valid p /\ (0 <= Payoff.uncertainty p <= 1)%Q) payoffs
  /\ forall r n,
       NodeCache.find r c = Some n ->
       (Payoff.is_null (payoff_ n) = true \/ Payoff.valid (payoff_ n)) /\
       match body n with
       | SpinBody branches =>
           Forall (fun branch => (0 <= fst branch)%Q) branches
           /\ (total_weight branches <= 1)%Q
       | _ => True
       end.
Proof.
  intros Pos One Perm H.
  assert (O : op_ok spin).
  { split; [|lra]. eapply Forall_impl; [|exact Pos].
    intros term Ht. now apply Qlt_le_weak. }
  pose proof (new_Search_ok spin opts ord O Perm) as S.
  unfold run in H. apply bind_Some in H. destruct H as (node & c1 & Cr & H).
  unfold create in Cr. injection Cr as <- <-.
  apply bind_Some in H. destruct H as (ps & c2 & L & H).
  injection H as <- <- <-.
  destruct (run_loop_ok _ _ _ _ _ _ _ _ _ _ S
              (cache_ok_create _ _ cache_ok_empty) L) as (V & C).
  split; [|exact C].
  eapply Forall_impl; [|exact V]. intros p Vp. split; [exact Vp|].
  apply (valid_uncertainty p Vp).
Qed.

Lemma Search_run_payoffs_valid_witness :
  exists root payoffs c,
    run 64 (new_Search tie_board default_options (fun t => t)) tie_state
      NodeCache.empty = Some (root, payoffs, c)
    /\ length payoffs = 2%nat
    /\ Forall
         (fun p => Payoff.valid p /\ (0 <= Payoff.uncertainty p <= 1)%Q)
         payoffs.
Proof.
  destruct (run 64 (new_Search tie_board default_options (fun t => t))
              tie_state NodeCache.empty) as [[[root payoffs] c]|] eqn:R;
    [|vm_compute in R; discriminate].
  exists root, payoffs, c. split; [reflexivity|].
  split.
  - assert (E : option_map (fun x => length (snd (fst x)))
                  (run 64 (new_Search tie_board default_options (fun t => t))
                     tie_state NodeCache.empty) = Some 2%nat)
      by (vm_compute; reflexivity).
    rewrite R in E. cbn in E. now injection E.
  - apply (Search_run_payoffs_valid tie_board default_options (fun t => t)
             64 tie_state root payoffs c).
    + unfold tie_board. vm_compute. repeat constructor.
    + vm_compute. reflexivity.
    + intros t. apply Permutation_refl.
    + exact R.
Defined.



(** ** Spin nodes *)

Lemma get_plus_scale acc p w n :
  Payoff.get (Payoff.plus acc (Payoff.scale p w)) n
  = (Payoff.get acc n + Payoff.get p n * w)%Q.
Proof.
  unfold Payoff.get, Payoff.plus, Payoff.scale.
  destruct (n =? 0); [reflexivity|]. destruct (n =? 1); reflexivity.
Qed.

Lemma spin_fold_get (branches : list (Q * Payoff.t)) :
  forall acc n,
    (Payoff.get
       (fold_left
          (fun payoff_ branch =>
             Payoff.plus payoff_ (Payoff.scale (snd branch) (fst branch)))
          branches acc) n
     == Payoff.get acc n
        + weighted_sum (fun p => Payoff.get p n) branches)%Q.
Proof.
  induction branches as [|b branches IH]; intros acc n;
    cbn [fold_left weighted_sum].
  - ring.
  - rewrite IH, get_plus_scale. ring.
Qed.

Lemma sum_gets p :
  (Payoff.sum p == Payoff.get p 0 + Payoff.get p 1 + Payoff.get p 2)%Q.
Proof. unfold Payoff.sum, Payoff.get. simpl. ring. Qed.

Lemma weighted_sum_plus {A : Type} (f g : A -> Q) (l : list (Q * A)) :
  (weighted_sum (fun a => f a + g a) l
   == weighted_sum f l + weighted_sum g l)%Q.
Proof.
  induction l as [|b l IH]; cbn [weighted_sum]; [ring|]. rewrite IH. ring.
Qed.

Lemma weighted_sum_ext {A : Type} (f g : A -> Q) (l : list (Q * A)) :
  Forall (fun b => (f (snd b) == g (snd b))%Q) l ->
  (weighted_sum f l == weighted_sum g l)%Q.
Proof.
  induction 1 as [|b l Hb _ IH]; cbn [weighted_sum]; [reflexivity|].
  rewrite IH, Hb. reflexivity.
Qed.

Lemma weighted_sum_nonneg {A : Type} (f : A -> Q) (l : list (Q * A)) :
  Forall (fun b => (0 <= fst b)%Q) l ->
  Forall (fun b => (0 <= f (snd b))%Q) l ->
  (0 <= weighted_sum f l)%Q.
Proof.
  induction 1 as [|b l Hb _ IH]; intros Hf; cbn [weighted_sum]; [lra|].
  inversion Hf; subst.
  pose proof (Qmult_le_0_compat _ _ Hb H1). specialize (IH H2). lra.
Qed.

Lemma weighted_sum_le_total {A : Type} (f : A -> Q) (l : list (Q * A)) :
  Forall (fun b => (0 <= fst b)%Q) l ->
  Forall (fun b => (f (snd b) <= 1)%Q) l ->
  (weighted_sum f l <= total_weight l)%Q.
Proof.
  induction 1 as [|b l Hb _ IH]; intros Hf; cbn [weighted_sum total_weight];
    [lra|].
  inversion Hf; subst. specialize (IH H2).
  assert (M : (fst b * f (snd b) <= fst b * 1)%Q).
  { rewrite !(Qmult_comm (fst b)). apply Qmult_le_compat_r; assumption. }
  lra.
Qed.

Lemma spin_sum (branches : list (Q * Payoff.t)) old :
  (Payoff.sum (SpinNode.calc_payoff branches old)
   == weighted_sum Payoff.sum branches)%Q.
Proof.
  unfold SpinNode.calc_payoff. rewrite sum_gets, !spin_fold_get.
  rewrite (weighted_sum_ext Payoff.sum
             (fun p => Payoff.get p 0 + Payoff.get p 1 + Payoff.get p 2)%Q)
    by (apply Forall_forall; intros b _; apply sum_gets).
  rewrite !weighted_sum_plus. cbn. ring.
Qed.

Lemma table_set_twice ds n1 n2 m :
  NodeCache.table_set ds n2 (NodeCache.table_set ds n1 m)
  = NodeCache.table_set ds n2 m.
Proof.
  induction m as [|[k n0] m IH]; cbn [NodeCache.table_set].
  - now rewrite State_eqb_refl.
  - destruct (State.eqb k ds) eqn:E; cbn [NodeCache.table_set]; rewrite E;
      [reflexivity | now rewrite IH].
Qed.

Lemma set_twice r n1 n2 c :
  NodeCache.set r n2 (NodeCache.set r n1 c) = NodeCache.set r n2 c.
Proof.
  destruct r as [k s], c as [sp de te fi]. unfold NodeCache.set.
  destruct k; cbn; now rewrite table_set_twice.
Qed.

Lemma bind_run {A B} (m : M A) (f : A -> M B) c a c1 :
  m c = Some (a, c1) -> bind m f c = f a c1.
Proof. intros H. unfold bind. now rewrite H. Qed.

Lemma get_run r c n : NodeCache.find r c = Some n -> get r c = Some (n, c).
Proof. intros H. unfold get. now rewrite H. Qed.

Lemma set_payoff_run r p c n :
  NodeCache.find r c = Some n ->
  set_payoff r p c = Some (tt, NodeCache.set r (set_payoff_ n p) c).
Proof.
  intros H. unfold set_payoff. now rewrite (bind_run _ _ _ _ _ (get_run _ _ _ H)).
Qed.

(** The loop of [SpinNode::calc_payoff] over branches whose nodes hold
    computed payoffs. *)
Lemma spin_loop_run fuel r c node (branches : list (Q * NodeRef))
    (payoffs : list (Q * Payoff.t)) :
  Forall2
    (fun branch bp =>
       fst bp = fst branch /\ same_node r (snd branch) = false /\
       exists n, NodeCache.find (snd branch) c = Some n
                 /\ payoff_ n = snd bp /\ Payoff.is_null (snd bp) = false)
    branches payoffs ->
  forall acc,
    for_each branches
      (fun branch =>
         p <- SearchNode.payoff (S fuel) (snd branch) ;;
         node <- get r ;;
         set_payoff r (Payoff.plus (payoff_ node) (Payoff.scale p (fst branch))))
      (NodeCache.set r (set_payoff_ node acc) c)
    = Some (tt, NodeCache.set r
                  (set_payoff_ node
                     (fold_left
                        (fun payoff_ branch =>
                           Payoff.plus payoff_
                             (Payoff.scale (snd branch) (fst branch)))
                        payoffs acc)) c).
Proof.
  induction 1 as [|b bp branches payoffs (Ew & Ns & n & Fn & En & Nn) _ IH];
    intros acc; cbn [for_each fold_left].
  - reflexivity.
  - assert (Fc : NodeCache.find (snd b)
                   (NodeCache.set r (set_payoff_ node acc) c) = Some n)
      by now rewrite find_set, Ns.
    assert (Fr : NodeCache.find r
                   (NodeCache.set r (set_payoff_ node acc) c)
                 = Some (set_payoff_ node acc))
      by now rewrite find_set, same_node_refl.
    assert (Np : Payoff.is_null (payoff_ n) = false) by now rewrite En.
    erewrite bind_run; cycle 1.
    { erewrite bind_run by (apply (payoff_cached fuel _ _ _ Fc Np)).
      erewrite bind_run by (apply (get_run _ _ _ Fr)).
      apply (set_payoff_run _ _ _ _ Fr). }
    rewrite set_twice. cbn [set_payoff_ payoff_ state visited_ body].
    rewrite En, Ew. apply IH.
Qed.

(** With the payoffs of the branches computed, [calc_payoff] of a spin
    node stores what [SpinNode.calc_payoff] gives for them. *)
Lemma calc_payoff_spin fuel r c node (branches : list (Q * NodeRef))
    (payoffs : list (Q * Payoff.t)) :
  NodeCache.find r c = Some node -> body node = SpinBody branches ->
  Forall2
    (fun branch bp =>
       fst bp = fst branch /\ same_node r (snd branch) = false /\
       exists n, NodeCache.find (snd branch) c = Some n
                 /\ payoff_ n = snd bp /\ Payoff.is_null (snd bp) = false)
    branches payoffs ->
  SearchNode.calc_payoff (SearchNode.payoff (S fuel)) r c
  = Some (tt, NodeCache.set r
                (set_payoff_ node
                   (SpinNode.calc_payoff payoffs (payoff_ node))) c).
Proof.
  intros F B H. unfold SearchNode.calc_payoff.
  rewrite (bind_run _ _ _ _ _ (get_run _ _ _ F)), B.
  rewrite (bind_run _ _ _ _ _ (set_payoff_run _ (Payoff.clear (payoff_ node)) _ _ F)).
  apply (spin_loop_run fuel r c node branches payoffs H).
Qed.

(** X24: the payoff of a spin node.  [SpinNode::calc_payoff] gives every
    player the sum over the branches of the weight times the win
    probability the branch gives that player.  With weights that are not
    negative and total at most 1 and valid branch payoffs the result is
    valid, and its uncertainty is the uncovered weight plus the weighted sum
    of the uncertainties of the branches: a spin node is certain when its
    weights total 1 and all its branches are certain.  In the cache this is
    the payoff the node gets when the nodes of its branches hold computed
    payoffs. *)
Theorem SpinNode_calc_payoff_sum (branches : list (Q * Payoff.t))
    (old : Payoff.t) (n : Z) :
  (Payoff.get (SpinNode.calc_payoff branches old) n
   == weighted_sum (fun p => Payoff.get p n) branches)%Q /\
  (weights_ok branches ->
   Forall (fun branch => Payoff.valid (snd branch)) branches ->
   Payoff.valid (SpinNode.calc_payoff branches old) /\
   (Payoff.uncertainty (SpinNode.calc_payoff branches old)
    == (1 - total_weight branches)
       + weighted_sum Payoff.uncertainty branches)%Q) /\
  (forall fuel r c node (nodes : list (Q * NodeRef)),
     NodeCache.find r c = Some node -> body node = SpinBody nodes ->
     Forall2
       (fun branch bp =>
          fst bp = fst branch /\ same_node r (snd branch) = false /\
          exists m, NodeCache.find (snd branch) c = Some m
                    /\ payoff_ m = snd bp /\ Payoff.is_null (snd bp) = false)
       nodes branches ->
     SearchNode.calc_payoff (SearchNode.payoff (S fuel)) r c
     = Some (tt, NodeCache.set r
                   (set_payoff_ node
                      (SpinNode.calc_payoff branches (payoff_ node))) c)).
Proof.
  assert (G : forall k,
    (Payoff.get (SpinNode.calc_payoff branches old) k
     == weighted_sum (fun p => Payoff.get p k) branches)%Q).
  { intros k. unfold SpinNode.calc_payoff. rewrite spin_fold_get.
    unfold Payoff.get, Payoff.clear. cbn [Payoff.prob0 Payoff.prob1 Payoff.prob2].
    destruct (k =? 0); [ring|]. destruct (k =? 1); ring. }
  split; [apply G|]. split; [|intros fuel r c node nodes F B H;
    exact (calc_payoff_spin fuel r c node nodes branches F B H)].
  intros (W & T) V.
  assert (Nn : forall k,
    (0 <= weighted_sum (fun p => Payoff.get p k) branches)%Q).
  { intros k. apply weighted_sum_nonneg; [exact W|].
    eapply Forall_impl; [|exact V]. intros b (V0 & V1 & V2 & _).
    unfold Payoff.get. destruct (k =? 0); [exact V0|].
    destruct (k =? 1); assumption. }
  assert (S : (weighted_sum Payoff.sum branches <= total_weight branches)%Q).
  { apply weighted_sum_le_total; [exact W|].
    eapply Forall_impl; [|exact V]. intros b (_ & _ & _ & Sb). exact Sb. }
  assert (Val : Payoff.valid (SpinNode.calc_payoff branches old)).
  { assert (P : forall k,
      (0 <= Payoff.get (SpinNode.calc_payoff branches old) k)%Q)
      by (intros k; rewrite G; apply Nn).
    unfold Payoff.valid. rewrite spin_sum.
    repeat split; [exact (P 0) | exact (P 1) | exact (P 2) | lra]. }
  split; [exact Val|].
  rewrite (proj2 (valid_uncertainty _ Val)), spin_sum.
  assert (U : (weighted_sum Payoff.uncertainty branches
               == total_weight branches - weighted_sum Payoff.sum branches)%Q).
  { clear - V. induction V as [|b l Vb _ IH]; cbn [weighted_sum total_weight];
      [ring|].
    rewrite IH, (proj2 (valid_uncertainty _ Vb)). ring. }
  rewrite U. ring.
Qed.

(** ** The node cache *)

Lemma table_set_length ds n m :
  length (NodeCache.table_set ds n m)
  = (length m + match NodeCache.table_find ds m with
                | Some _ => 0
                | None => 1
                end)%nat.
Proof.
  induction m as [|[k n0] m IH]; cbn [NodeCache.table_set NodeCache.table_find].
  - reflexivity.
  - destruct (State.eqb k ds); cbn [length]; [lia | rewrite IH; lia].
Qed.

Lemma create_found r c n :
  NodeCache.find r c = Some n -> NodeCache.create r c = c.
Proof. intros F. unfold NodeCache.create. now rewrite F. Qed.

(** X25: the node cache keeps one node for each class and state.  After
    [create_terminal_node], [create_spin_node] or [create_decide_node] the
    node is found under its key: the node that was there, or a fresh one
    with a null payoff; no other node changes, and creating it again
    changes nothing.  [size ()] grows by one for a new spin or decide node
    and does not count terminal nodes; [final_spin_nodes] counts the new
    spin nodes whose state has one spin left. *)
Theorem NodeCache_create_spec (r : NodeRef) (c : NodeCache.t) :
  NodeCache.find r (NodeCache.create r c)
  = Some (match NodeCache.find r c with Some n => n | None => new_node r end)
  /\ (forall r', same_node r r' = false ->
        NodeCache.find r' (NodeCache.create r c) = NodeCache.find r' c)
  /\ NodeCache.create r (NodeCache.create r c) = NodeCache.create r c
  /\ NodeCache.size (NodeCache.create r c)
     = (NodeCache.size c
        + match fst r with
          | Terminal => 0
          | _ => match NodeCache.find r c with Some _ => 0 | None => 1 end
          end)%nat
  /\ NodeCache.final_spin_nodes (NodeCache.create r c)
     = match fst r with
       | Spin =>
           match NodeCache.find r c with
           | Some _ => NodeCache.final_spin_nodes c
           | None =>
               if State.spins (snd r) =? 1
               then u32 (NodeCache.final_spin_nodes c + 1)
               else NodeCache.final_spin_nodes c
           end
       | _ => NodeCache.final_spin_nodes c
       end.
Proof.
  assert (F : NodeCache.find r (NodeCache.create r c)
              = Some (match NodeCache.find r c with
                      | Some n => n
                      | None => new_node r
                      end)).
  { rewrite find_create. destruct (NodeCache.find r c); [reflexivity|].
    now rewrite same_node_refl. }
  split; [exact F|]. split.
  { intros r' E. rewrite find_create, E. now destruct (NodeCache.find r' c). }
  split; [exact (create_found _ _ _ F)|].
  unfold NodeCache.create.
  destruct (NodeCache.find r c) as [n|] eqn:Fr.
  - split; [destruct (fst r); lia | now destruct (fst r)].
  - destruct r as [k s], c as [sp de te fi].
    unfold NodeCache.find in Fr.
    destruct k;
      cbn [fst snd NodeCache.table_of NodeCache.spin_nodes_
           NodeCache.decide_nodes_ NodeCache.terminal_nodes_] in Fr;
      unfold NodeCache.set, NodeCache.size;
      cbn [fst snd NodeCache.table_of NodeCache.with_table
           NodeCache.spin_nodes_ NodeCache.decide_nodes_
           NodeCache.terminal_nodes_ NodeCache.final_spin_nodes andb].
    + split; [lia | reflexivity].
    + rewrite table_set_length, Fr. split; [lia | reflexivity].
    + destruct (State.spins s =? 1);
        cbn [NodeCache.spin_nodes_ NodeCache.decide_nodes_
             NodeCache.final_spin_nodes];
        rewrite table_set_length, Fr; split; (lia || reflexivity).
Qed.

(** ** Scanning leaves visited nodes alone *)

Lemma stays_refl c : stays c c.
Proof. intros r n F _. exact F. Qed.

Lemma stays_trans c1 c2 c3 : stays c1 c2 -> stays c2 c3 -> stays c1 c3.
Proof. intros A B r n F V. apply B; [apply A|]; assumption. Qed.

Lemma stays_set c0 c r n :
  stays c0 c ->
  (forall n0, NodeCache.find r c0 = Some n0 -> visited_ n0 = false) ->
  stays c0 (NodeCache.set r n c).
Proof.
  intros S U r' n' F V. rewrite find_set. destruct (same_node r r') eqn:E.
  - rewrite <- (find_same_node _ _ _ E) in F. rewrite (U _ F) in V.
    discriminate.
  - now apply S.
Qed.

Lemma stays_create c0 c r : stays c0 c -> stays c0 (NodeCache.create r c).
Proof. intros S r' n' F V. now rewrite find_create, (S _ _ F V). Qed.

Lemma create_found_other r r' c n :
  NodeCache.find r' c = Some n ->
  NodeCache.find r' (NodeCache.create r c) = Some n.
Proof. intros F. now rewrite find_create, F. Qed.

Lemma create_opt_Some (branch : option NodeRef) c u c' :
  create_opt branch c = Some (u, c') ->
  c' = match branch with Some n => NodeCache.create n c | None => c end.
Proof.
  destruct branch as [n|]; cbn; intros H; now injection H as _ <-.
Qed.

Lemma make_branches_found (st : State.t) (terms : ProbState) :
  forall coverage0 branches0 c coverage branches c',
    SearchNode.make_branches st terms coverage0 branches0 c
    = Some (coverage, branches, c') ->
    (forall c0, stays c0 c -> stays c0 c') /\
    (forall r n, NodeCache.find r c = Some n -> NodeCache.find r c' = Some n).
Proof.
  induction terms as [|s terms IH];
    intros coverage0 branches0 c coverage branches c' H.
  - injection H as _ _ <-. auto.
  - cbn [SearchNode.make_branches] in H.
    destruct (State.eqb (fst s) st); [eapply IH; exact H|].
    apply bind_Some in H. destruct H as (node & c1 & Cr & H).
    unfold create in Cr. injection Cr as _ <-.
    destruct (IH _ _ _ _ _ _ H) as (A & B). split.
    + intros c0 S. apply A. now apply stays_create.
    + intros r n F. apply B. now apply create_found_other.
Qed.

Section ScanStays.

Variable search : Search.
Variable scan_rec : NodeRef -> M unit.
Hypothesis scan_rec_stays :
  forall r c u c', scan_rec r c = Some (u, c') -> stays c c'.

Lemma for_each_scan_stays (branches : list (Q * NodeRef)) c u c' :
  for_each branches (fun branch => scan_rec (snd branch)) c = Some (u, c') ->
  stays c c'.
Proof.
  revert c. induction branches as [|b branches IH]; intros c H.
  - injection H as _ <-. apply stays_refl.
  - cbn [for_each] in H. apply bind_Some in H. destruct H as (u1 & c1 & S & R).
    eapply stays_trans; [eapply scan_rec_stays; exact S | now apply IH].
Qed.

Lemma scan_opt_stays (branch : option NodeRef) c u c' :
  match branch with Some n => scan_rec n | None => ret tt end c = Some (u, c') ->
  stays c c'.
Proof.
  destruct branch as [n|]; intros H.
  - eapply scan_rec_stays; exact H.
  - injection H as _ <-. apply stays_refl.
Qed.

(** [scan_branches] of a node that [scan] has marked: the nodes that had a
    mark before [scan] started are as they were, and the node keeps its
    mark. *)
Lemma scan_branches_stays r c0 c node u c' :
  stays c0 c ->
  (forall n0, NodeCache.find r c0 = Some n0 -> visited_ n0 = false) ->
  NodeCache.find r c = Some node -> visited_ node = true ->
  SearchNode.scan_branches search scan_rec r c = Some (u, c') ->
  stays c0 c' /\
  exists node', NodeCache.find r c' = Some node' /\ visited_ node' = true.
Proof.
  intros S U F V H. unfold SearchNode.scan_branches in H.
  rewrite (bind_run _ _ _ _ _ (get_run _ _ _ F)) in H.
  set (n1 := set_payoff_ node (Payoff.invalidate (payoff_ node))) in H.
  assert (F1 : NodeCache.find r (NodeCache.set r n1 c) = Some n1)
    by now rewrite find_set, same_node_refl.
  assert (S1 : stays c0 (NodeCache.set r n1 c)) by now apply stays_set.
  destruct (body node) as [|if_play if_pass|branches] eqn:B.
  - injection H as _ <-. split; [exact S|]. now exists node.
  - unfold bind at 1, put at 1 in H.
    apply bind_Some in H. destruct H as (u2 & c2 & Cr1 & H).
    apply create_opt_Some in Cr1.
    apply bind_Some in H. destruct H as (u3 & c3 & Cr2 & H).
    apply create_opt_Some in Cr2.
    assert (S3 : stays c0 c3).
    { subst c3 c2.
      destruct (snd (DecideNode.materialize _ _ _ _)),
               (fst (DecideNode.materialize _ _ _ _));
        repeat apply stays_create; exact S1. }
    assert (F3 : NodeCache.find r c3 = Some n1).
    { subst c3 c2.
      destruct (snd (DecideNode.materialize _ _ _ _)),
               (fst (DecideNode.materialize _ _ _ _));
        repeat apply create_found_other; exact F1. }
    rewrite (bind_run _ _ _ _ _ (get_run _ _ _ F3)) in H.
    unfold bind at 1, put at 1 in H.
    match type of H with
    | context [NodeCache.set r ?n c3] => set (n4 := n) in H
    end.
    apply bind_Some in H. destruct H as (u5 & c5 & Sc1 & Sc2).
    apply scan_opt_stays in Sc1. apply scan_opt_stays in Sc2.
    pose proof (stays_trans _ _ _ Sc1 Sc2) as S45.
    split.
    + eapply stays_trans; [|exact S45]. now apply stays_set.
    + exists n4. split; [|exact V]. apply S45; [|exact V].
      now rewrite find_set, same_node_refl.
  - unfold bind at 1, put at 1 in H.
    apply bind_Some in H. destruct H as (bs & c2 & Mk & H).
    apply for_each_scan_stays in H.
    destruct branches as [|b0 branches0].
    + apply bind_Some in Mk. destruct Mk as ([coverage made] & c3 & Mb & Mk).
      destruct (make_branches_found _ _ _ _ _ _ _ _ Mb) as (A3 & B3).
      rewrite (bind_run _ _ _ _ _ (get_run _ _ _ (B3 _ _ F1))) in Mk.
      unfold bind at 1, put at 1 in Mk. injection Mk as _ <-.
      match type of H with
      | stays (NodeCache.set r ?n c3) _ => set (n4 := n) in H
      end.
      split.
      * eapply stays_trans; [|exact H]. apply stays_set; [|exact U].
        now apply A3.
      * exists n4. split; [|exact V]. apply H; [|exact V].
        now rewrite find_set, same_node_refl.
    + injection Mk as _ <-. split.
      * eapply stays_trans; [exact S1 | exact H].
      * exists n1. split; [|exact V]. now apply H.
Qed.

End ScanStays.

Lemma scan_stays search depth : forall r c u c',
  SearchNode.scan search depth r c = Some (u, c') ->
  stays c c' /\
  exists n, NodeCache.find r c' = Some n /\ visited_ n = true.
Proof.
  induction depth as [|depth IH]; intros r c u c' H;
    cbn [SearchNode.scan] in H;
    apply bind_Some in H; destruct H as (node & c1 & G & H);
    apply get_Some in G; destruct G as (F & ->);
    (destruct (visited_ node) eqn:V;
     [injection H as _ <-; split; [apply stays_refl | now exists node]|]);
    unfold bind at 1, put at 1 in H;
    assert (U : forall n0, NodeCache.find r c = Some n0 -> visited_ n0 = false)
      by (intros n0 F0; rewrite F in F0; now injection F0 as <-);
    assert (S1 : stays c (NodeCache.set r (set_visited_ node true) c))
      by (apply stays_set; [apply stays_refl | exact U]);
    assert (F1 : NodeCache.find r (NodeCache.set r (set_visited_ node true) c)
                 = Some (set_visited_ node true))
      by now rewrite find_set, same_node_refl.
  - injection H as _ <-. split; [exact S1 | eauto].
  - destruct (Qle_bool _ _); [injection H as _ <-; split; [exact S1 | eauto]|].
    eapply (scan_branches_stays search (SearchNode.scan search depth));
      [|exact S1 | exact U | exact F1 | reflexivity | exact H].
    intros r0 c0 u0 c0' H0. now apply (IH r0 c0 u0 c0').
Qed.

(** X26: [Node::scan] scans a node once.  A scan leaves every node that
    already has its visited mark exactly as it is (payoff, branches and
    mark), it leaves the scanned node with the mark, and a second scan of
    that node, with whatever stop condition, changes nothing: only the
    reset of the marks at the end of a round of [Search::run] lets a node
    be scanned again, so within a round a node reached at a low remaining
    depth is not scanned deeper when it is reached again. *)
Theorem Node_scan_once (search : Search) (depth : nat) (r : NodeRef)
    (c c' : NodeCache.t) (u : unit) :
  SearchNode.scan search depth r c = Some (u, c') ->
  (forall r' n, NodeCache.find r' c = Some n -> visited_ n = true ->
                NodeCache.find r' c' = Some n) /\
  (exists n, NodeCache.find r c' = Some n /\ visited_ n = true) /\
  forall search' depth', SearchNode.scan search' depth' r c' = Some (tt, c').
Proof.
  intros H. destruct (scan_stays _ _ _ _ _ _ H) as (S & n & F & V).
  split; [exact S|]. split; [now exists n|].
  intros search' depth'.
  destruct depth'; cbn [SearchNode.scan];
    rewrite (bind_run _ _ _ _ _ (get_run _ _ _ F)), V; reflexivity.
Qed.

Lemma Node_scan_once_witness :
  exists c',
    SearchNode.scan settled_search 3 (Decide, tie_state)
      (NodeCache.create (Decide, tie_state) NodeCache.empty) = Some (tt, c')
    /\ SearchNode.scan settled_search 9 (Decide, tie_state) c' = Some (tt, c').
Proof.
  destruct (SearchNode.scan settled_search 3 (Decide, tie_state)
              (NodeCache.create (Decide, tie_state) NodeCache.empty))
    as [[[] c']|] eqn:S; [|vm_compute in S; discriminate].
  exists c'. split; [reflexivity|].
  apply (Node_scan_once settled_search 3 (Decide, tie_state) _ c' tt S).
Defined.

(** ** The rounds of a run *)









(** ** The first scan of a spin node *)

Lemma make_branches_weights (st : State.t) (terms : ProbState) :
  forall coverage0 branches0 c coverage branches c',
    SearchNode.make_branches st terms coverage0 branches0 c
    = Some (coverage, branches, c') ->
    (coverage
     == coverage0
        - WeightedSet.weight
            (filter (fun s => State.eqb (fst s) st) terms))%Q /\
    (total_weight branches
     == total_weight branches0
        + (WeightedSet.weight terms
           - WeightedSet.weight
               (filter (fun s => State.eqb (fst s) st) terms)))%Q /\
    map snd branches
    = map snd branches0
      ++ map (fun s => create_node (fst s))
           (filter (fun s => negb (State.eqb (fst s) st)) terms).
Proof.
  induction terms as [|s terms IH];
    intros coverage0 branches0 c coverage branches c' H.
  - injection H as <- <- _. cbn [filter map]. rewrite app_nil_r.
    unfold WeightedSet.weight. cbn [fold_left]. repeat split; ring.
  - cbn [SearchNode.make_branches] in H. cbn [filter].
    destruct (State.eqb (fst s) st); cbn [negb].
    + destruct (IH _ _ _ _ _ _ H) as (A & B & D).
      rewrite !weight_cons. repeat split; [lra | lra | exact D].
    + apply bind_Some in H. destruct H as (node & c1 & Cr & H).
      unfold create in Cr. injection Cr as <- _.
      destruct (IH _ _ _ _ _ _ H) as (A & B & D).
      rewrite total_weight_app in B. cbn [total_weight fst] in B.
      rewrite weight_cons. repeat split; [lra | lra |].
      rewrite D, map_app, <- app_assoc. reflexivity.
Qed.

(** X28: the first scan of a spin node.  [Node::scan], with a stop depth
    of at least 1, of a spin node without branches, without a visited mark
    and with an uncertain payoff leaves the node marked, with a null payoff,
    and with one branch for every outcome state of
    [spin_op[max_spins] * state] other than the state of the node itself, in
    the order of the table, to the node [create_node] gives that state.  The weight of the outcomes that leave the state as it is
    is taken out: for an operator of total weight 1 of which such outcomes
    hold a weight below 1, the branch weights total exactly 1 (in exact
    arithmetic). *)
Theorem SpinNode_first_scan (search : Search) (depth : nat) (r : NodeRef)
    (c c' : NodeCache.t) (node : Node) (u : unit) :
  NodeCache.find r c = Some node ->
  visited_ node = false ->
  body node = SpinBody [] ->
  Qle_bool (Payoff.uncertainty (payoff_ node))
           (max_uncertainty (options search)) = false ->
  SearchNode.scan search (S depth) r c = Some (u, c') ->
  let passed := Player.passed (State.up (state node)) in
  let max_spins := if passed >? 0 then Z.min passed 5 else 1 in
  let op := nth (Z.to_nat max_spins) (spin_op search) [] in
  let next := order search (SpinOperator_apply op (state node)) in
  let self :=
    WeightedSet.weight
      (filter (fun s => State.eqb (fst s) (state node)) next) in
  exists branches,
    NodeCache.find r c'
    = Some {| state := state node; payoff_ := Payoff.null; visited_ := true;
              body := SpinBody branches |} /\
    map snd branches
    = map (fun s => create_node (fst s))
        (filter (fun s => negb (State.eqb (fst s) (state node))) next) /\
    ((forall t, Permutation (order search t) t) ->
     (WeightedSet.weight op == 1)%Q -> (0 <= self < 1)%Q ->
     (total_weight branches == 1)%Q).
Proof.
  intros F V B Unc H passed max_spins op next self.
  cbn [SearchNode.scan] in H.
  rewrite (bind_run _ _ _ _ _ (get_run _ _ _ F)), V in H.
  unfold bind at 1, put at 1 in H. rewrite Unc in H.
  set (n1 := set_visited_ node true) in H.
  unfold SearchNode.scan_branches in H.
  assert (F1 : NodeCache.find r (NodeCache.set r n1 c) = Some n1)
    by now rewrite find_set, same_node_refl.
  rewrite (bind_run _ _ _ _ _ (get_run _ _ _ F1)) in H.
  cbn [n1 set_visited_ body state payoff_ visited_] in H. rewrite B in H.
  unfold bind at 1, put at 1 in H. rewrite set_twice in H.
  set (n2 := set_payoff_ n1 (Payoff.invalidate (payoff_ node))) in H.
  assert (F2 : NodeCache.find r (NodeCache.set r n2 c) = Some n2)
    by now rewrite find_set, same_node_refl.
  apply bind_Some in H. destruct H as (bs & c4 & Mk & H).
  apply bind_Some in Mk. destruct Mk as ([coverage made] & c3 & Mb & Mk).
  change (opt_passed_spin_merge && (passed >? 0)) with (passed >? 0) in Mb.
  fold max_spins op next in Mb.
  destruct (make_branches_found _ _ _ _ _ _ _ _ Mb) as (_ & Keep).
  rewrite (bind_run _ _ _ _ _ (get_run _ _ _ (Keep _ _ F2))) in Mk.
  unfold bind at 1, put at 1 in Mk. injection Mk as <- <-.
  cbn [fst snd] in H.
  apply (for_each_scan_stays (SearchNode.scan search depth)) in H;
    [|intros r0 c0 u0 c0' H0; exact (proj1 (scan_stays _ _ _ _ _ _ H0))].
  destruct (make_branches_weights _ _ _ _ _ _ _ _ Mb) as (Cov & Tot & Nodes).
  fold self in Cov, Tot. cbn [total_weight map app] in Tot, Nodes.
  match type of H with
  | stays (NodeCache.set r (set_body n2 (SpinBody ?b)) c3) _ =>
      exists b; set (branches := b) in *
  end.
  split; [|split].
  - apply H; [|reflexivity]. now rewrite find_set, same_node_refl.
  - subst branches. destruct (Payoff.gt 1 coverage); [|exact Nodes].
    rewrite map_map. cbn [snd]. exact Nodes.
  - intros Ord W (S0 & S1).
    assert (Wn : (WeightedSet.weight next == 1)%Q).
    { unfold next. rewrite (weight_Permutation _ _ (Ord _)), apply_weight.
      exact W. }
    assert (Cov' : (coverage == 1 - self)%Q) by exact Cov.
    assert (Tot' : (total_weight made
                    == 0 + (WeightedSet.weight next - self))%Q) by exact Tot.
    assert (E : (total_weight made == coverage)%Q) by lra.
    subst branches. destruct (Payoff.gt 1 coverage) eqn:G.
    + rewrite total_weight_map_div, E. field. intros Z0. lra.
    + apply Payoff_gt_false in G. lra.
Qed.

Lemma SpinNode_first_scan_witness :
  exists c' branches,
    SearchNode.scan settled_search 1 (Spin, tie_state)
      (NodeCache.create (Spin, tie_state) NodeCache.empty) = Some (tt, c')
    /\ NodeCache.find (Spin, tie_state) c'
       = Some {| state := tie_state; payoff_ := Payoff.null;
                 visited_ := true; body := SpinBody branches |}
    /\ (total_weight branches == 1)%Q.
Proof.
  destruct (SearchNode.scan settled_search 1 (Spin, tie_state)
              (NodeCache.create (Spin, tie_state) NodeCache.empty))
    as [[[] c']|] eqn:S; [|vm_compute in S; discriminate].
  destruct (SpinNode_first_scan settled_search 0 (Spin, tie_state)
              (NodeCache.create (Spin, tie_state) NodeCache.empty) c'
              (new_node (Spin, tie_state)) tt)
    as (branches & F & _ & T);
    [vm_compute; reflexivity | reflexivity | reflexivity
    | vm_compute; reflexivity | exact S |].
  exists c', branches. split; [reflexivity|]. split; [exact F|].
  apply T.
  - intros t. apply Permutation_refl.
  - vm_compute. reflexivity.
  - split; [vm_compute; discriminate | vm_compute; reflexivity].
Defined.

(** ** The decision of a decide node *)

Lemma Qeq_bool_refl a : Qeq_bool a a = true.
Proof. apply Qeq_bool_iff. reflexivity. Qed.

Lemma Payoff_eqb_refl p : Payoff.eqb p p = true.
Proof. unfold Payoff.eqb. now rewrite !Qeq_bool_refl. Qed.

Lemma Payoff_eqb_get a b n :
  Payoff.eqb a b = true -> (Payoff.get a n == Payoff.get b n)%Q.
Proof.
  unfold Payoff.eqb, Payoff.get. intros H.
  apply andb_prop in H. destruct H as (H & H2).
  apply andb_prop in H. destruct H as (H0 & H1).
  destruct (n =? 0); [now apply Qeq_bool_iff|].
  destruct (n =? 1); now apply Qeq_bool_iff.
Qed.

Lemma bool_eq_of_iff (a b : bool) : (a = true <-> b = true) -> a = b.
Proof. destruct a, b; intros (A & B); auto; symmetry; auto. Qed.

Lemma min_eq_second a b : Qeq_bool (Payoff.min a b) b = Qle_bool b a.
Proof.
  apply bool_eq_of_iff. rewrite Qeq_bool_iff, Qle_bool_iff.
  unfold Payoff.min. destruct (Payoff.gt a b) eqn:G.
  - apply Payoff_gt_lt in G. split; intros _; [lra | reflexivity].
  - apply Payoff_gt_false in G. split; intros H; lra.
Qed.

Lemma min_eq_first a b : Qeq_bool (Payoff.min a b) a = Qle_bool a b.
Proof.
  apply bool_eq_of_iff. rewrite Qeq_bool_iff, Qle_bool_iff.
  unfold Payoff.min. destruct (Payoff.gt a b) eqn:G.
  - apply Payoff_gt_lt in G. split; intros H; lra.
  - apply Payoff_gt_false in G. split; intros _; [exact G | reflexivity].
Qed.

Lemma decision_of_calc st play pass old :
  let up := State.up_num st in
  let result := DecideNode.calc_payoff st (Some play) (Some pass) old in
  (Payoff.gt (Payoff.get play up) (Payoff.get pass up) = true ->
   decision_of result play pass = SearchNode.PLAY) /\
  (Payoff.gt (Payoff.get pass up) (Payoff.get play up) = true ->
   decision_of result play pass = SearchNode.PASS) /\
  (Payoff.gt (Payoff.get play up) (Payoff.get pass up) = false ->
   Payoff.gt (Payoff.get pass up) (Payoff.get play up) = false ->
   decision_of result play pass
   = if Payoff_le play pass then SearchNode.PLAY
     else if Payoff_le pass play then SearchNode.PASS
     else SearchNode.UNDECIDED).
Proof.
  intros up result. subst result. unfold DecideNode.calc_payoff. fold up.
  split; [|split].
  - intros G. rewrite G. unfold decision_of. now rewrite Payoff_eqb_refl.
  - intros G.
    assert (G' : Payoff.gt (Payoff.get play up) (Payoff.get pass up) = false).
    { apply Payoff_gt_false. apply Payoff_gt_lt in G. lra. }
    rewrite G', G. unfold decision_of.
    destruct (Payoff.eqb pass play) eqn:E.
    + apply Payoff_eqb_get with (n := up) in E. apply Payoff_gt_lt in G. lra.
    + now rewrite Payoff_eqb_refl.
  - intros G1 G2. rewrite G1, G2. unfold decision_of.
    rewrite merge_fields. unfold Payoff.eqb, Payoff_le.
    cbn [Payoff.prob0 Payoff.prob1 Payoff.prob2].
    now rewrite !min_eq_second, !min_eq_first.
Qed.

Lemma decision_run fuel r c node pl pa npl npa :
  NodeCache.find r c = Some node ->
  body node = DecideBody (Some pl) (Some pa) ->
  NodeCache.find pl c = Some npl -> Payoff.is_null (payoff_ npl) = false ->
  NodeCache.find pa c = Some npa -> Payoff.is_null (payoff_ npa) = false ->
  SearchNode.decision (S fuel) r c
  = Some (decision_of (payoff_ node) (payoff_ npl) (payoff_ npa), c).
Proof.
  intros F B Fpl Npl Fpa Npa. unfold SearchNode.decision.
  rewrite (bind_run _ _ _ _ _ (get_run _ _ _ F)), B.
  unfold SearchNode.chosen, decision_of.
  erewrite bind_run; cycle 1.
  { erewrite bind_run by (apply (payoff_cached fuel _ _ _ Fpl Npl)).
    erewrite bind_run by (apply (get_run _ _ _ F)). reflexivity. }
  destruct (Payoff.eqb (payoff_ node) (payoff_ npl)); [reflexivity|].
  erewrite bind_run; cycle 1.
  { erewrite bind_run by (apply (payoff_cached fuel _ _ _ Fpa Npa)).
    erewrite bind_run by (apply (get_run _ _ _ F)). reflexivity. }
  now destruct (Payoff.eqb (payoff_ node) (payoff_ npa)).
Qed.

(** X29: what [decision ()] reports after [calc_payoff ()] on a decide node
    with both branches, whose nodes hold the computed payoffs [play] and
    [pass].  If the player up wins more often by playing the decision is
    PLAY, if more often by passing it is PASS.  If the two win probabilities
    are equal the node holds the merged payoff and the decision is PLAY when
    no entry of [play] exceeds the entry of [pass] (so also when the two
    payoffs are equal, or both all zero), else PASS when no entry of [pass]
    exceeds the entry of [play], and UNDECIDED only when neither holds.
    [decision ()] leaves the cache as it is. *)
Theorem DecideNode_decision_spec (fuel : nat) (r pl pa : NodeRef)
    (c : NodeCache.t) (node npl npa : Node) :
  NodeCache.find r c = Some node ->
  body node = DecideBody (Some pl) (Some pa) ->
  NodeCache.find pl c = Some npl -> Payoff.is_null (payoff_ npl) = false ->
  NodeCache.find pa c = Some npa -> Payoff.is_null (payoff_ npa) = false ->
  same_node r pl = false -> same_node r pa = false ->
  let up := State.up_num (state node) in
  let play := payoff_ npl in
  let pass := payoff_ npa in
  exists c1 d,
    SearchNode.calc_payoff (SearchNode.payoff (S fuel)) r c = Some (tt, c1) /\
    SearchNode.decision (S fuel) r c1 = Some (d, c1) /\
    (Payoff.gt (Payoff.get play up) (Payoff.get pass up) = true ->
     d = SearchNode.PLAY) /\
    (Payoff.gt (Payoff.get pass up) (Payoff.get play up) = true ->
     d = SearchNode.PASS) /\
    (Payoff.gt (Payoff.get play up) (Payoff.get pass up) = false ->
     Payoff.gt (Payoff.get pass up) (Payoff.get play up) = false ->
     d = if Payoff_le play pass then SearchNode.PLAY
         else if Payoff_le pass play then SearchNode.PASS
         else SearchNode.UNDECIDED).
Proof.
  intros F B Fpl Npl Fpa Npa Epl Epa up play pass.
  set (result := DecideNode.calc_payoff (state node) (Some play) (Some pass)
                   (payoff_ node)).
  exists (NodeCache.set r (set_payoff_ node result) c),
         (decision_of result play pass).
  split.
  { apply (calc_payoff_decide fuel r c node (Some pl) (Some pa)
             (Some play) (Some pass) F B).
    - exists npl. auto.
    - exists npa. auto. }
  split.
  { apply (decision_run fuel r _ (set_payoff_ node result) pl pa npl npa).
    - now rewrite find_set, same_node_refl.
    - exact B.
    - now rewrite find_set, Epl.
    - exact Npl.
    - now rewrite find_set, Epa.
    - exact Npa. }
  apply decision_of_calc.
Qed.

Lemma DecideNode_decision_spec_witness :
  let s := State.mk (Player.mk 5000 1 0 0 0 0) (Player.mk 5000 0 0 0 0 0)
                    (Player.mk 9000 0 0 0 0 0) in
  let t := State.mk (Player.mk 5250 0 0 0 0 0) (Player.mk 5000 0 0 0 0 0)
                    (Player.mk 9000 0 0 0 0 0) in
  let zero := Payoff.mk 0 0 0 in
  let holds (st : State.t) (p : Payoff.t) (b : NodeBody) :=
    {| state := st; payoff_ := p; visited_ := false; body := b |} in
  let c :=
    NodeCache.set (Decide, s)
      (holds s Payoff.null (DecideBody (Some (Spin, s)) (Some (Terminal, t))))
      (NodeCache.set (Spin, s) (holds s zero (SpinBody []))
         (NodeCache.set (Terminal, t) (holds t zero TerminalBody)
            NodeCache.empty)) in
  exists c1,
    SearchNode.calc_payoff (SearchNode.payoff 2) (Decide, s) c = Some (tt, c1)
    /\ SearchNode.decision 2 (Decide, s) c1 = Some (SearchNode.PLAY, c1).
Proof.
  intros s t zero holds c.
  assert (F : NodeCache.find (Decide, s) c
              = Some (holds s Payoff.null
                        (DecideBody (Some (Spin, s)) (Some (Terminal, t)))))
    by (vm_compute; reflexivity).
  assert (Fpl : NodeCache.find (Spin, s) c = Some (holds s zero (SpinBody [])))
    by (vm_compute; reflexivity).
  assert (Fpa : NodeCache.find (Terminal, t) c
                = Some (holds t zero TerminalBody))
    by (vm_compute; reflexivity).
  pose proof (DecideNode_decision_spec 1 (Decide, s) (Spin, s) (Terminal, t) c
                _ _ _ F eq_refl Fpl eq_refl Fpa eq_refl eq_refl eq_refl) as X.
  destruct X as (c1 & d & A & B & _ & _ & D).
  exists c1. split; [exact A|].
  assert (E : d = SearchNode.PLAY) by (apply D; vm_compute; reflexivity).
  rewrite <- E. exact B.
Defined.
